(** * rrlmgraph-mcp: the SQLite graph reader

    A shallow embedding of [src/db/sqlite_reader.ts] (class [SQLiteGraph])
    and of the row types of [src/types.ts], with the properties of the
    retrieval engine: seed discovery, bounded breadth-first traversal,
    TF-IDF query vectors, blended scoring, budgeted assembly, task traces.

    Conventions of the embedding.
    - A JavaScript string is a [string]; its [length] is the number of
      characters (exact for ASCII text).
    - A value read from a REAL column (pagerank, task_weight, idf, polarity,
      embedding components) is a rational [Q]; values computed with
      [Math.log] and [Math.sqrt] live in [R].  Rounding of IEEE doubles,
      NaN and infinities are not modelled.
    - A nullable column is an [option].
    - A table is the list of its rows in rowid order.
    - A JavaScript [Map] is an association list in insertion order.
    - A token budget is an integer [Z]; depth and row bounds are counts.
    - The FTS5 engine is not part of the repository: what it answers to a
      [MATCH] is a field of the database, and every property holds for
      every such answer.
    - A method that writes returns the store after the call next to its
      result; an exception is a value of [exn]. *)

From Stdlib Require Import Bool List Arith ZArith QArith Qround Lia.
From Stdlib Require Import String Ascii DecimalString.
From Stdlib Require Import Reals Lra Qreals.
From Stdlib Require Import Permutation Sorted.
Import ListNotations.

Local Open Scope string_scope.
Local Open Scope list_scope.

(** ** JavaScript helpers *)

(** Truthiness of a [string | null] value: [null] and the empty string are
    falsy. *)
Definition truthy (s : option string) : bool :=
  match s with
  | Some (String _ _) => true
  | _ => false
  end.

(** [s.slice(0, n)]. *)
Definition slice0 (n : nat) (s : string) : string := substring 0 n s.

(** [lines.join(sep)]. *)
Fixpoint join (sep : string) (l : list string) : string :=
  match l with
  | [] => EmptyString
  | [x] => x
  | x :: r => (x ++ sep ++ join sep r)%string
  end.

(** Decimal rendering of a number inside a template literal. *)
Definition string_of_nat (n : nat) : string :=
  NilEmpty.string_of_uint (Nat.to_uint n).

Definition string_of_Z (z : Z) : string :=
  match z with
  | Z0 => "0"
  | Zpos p => string_of_nat (Pos.to_nat p)
  | Zneg p => ("-" ++ string_of_nat (Pos.to_nat p))%string
  end.

(** [c.toLowerCase()] on one character: only [A-Z] change. *)
Definition lower_ascii (c : ascii) : ascii :=
  let n := nat_of_ascii c in
  if (65 <=? n)%nat && (n <=? 90)%nat then ascii_of_nat (n + 32) else c.

(** The character class [[a-z0-9_.]] of the tokenizer. *)
Definition is_token_char (c : ascii) : bool :=
  let n := nat_of_ascii c in
  ((97 <=? n)%nat && (n <=? 122)%nat)
  || ((48 <=? n)%nat && (n <=? 57)%nat)
  || (n =? 95)%nat || (n =? 46)%nat.

(** [.replace(/[^a-z0-9_.]/g, " ")] on one character. *)
Definition blank_non_token (c : ascii) : ascii :=
  if is_token_char c then c else " "%char.

(** [.split(/\s+/)] on a text whose only white space is the blank: the
    pieces between runs of blanks.  [cur] is the piece being read, reversed.
    A leading or trailing run of blanks gives an empty first or last piece,
    as in JavaScript. *)
Fixpoint split_blank_runs (cur : list ascii) (in_run : bool) (s : list ascii)
  : list string :=
  match s with
  | [] => [string_of_list_ascii (rev cur)]
  | c :: r =>
      if Ascii.eqb c " "%char
      then if in_run
           then split_blank_runs cur true r
           else string_of_list_ascii (rev cur) :: split_blank_runs [] true r
      else split_blank_runs (c :: cur) false r
  end.

(** [tokenize]: lower-case, blank every character outside [[a-z0-9_.]],
    split on blank runs, keep the pieces longer than one character. *)
Definition tokenize (text : string) : list string :=
  filter (fun t => (1 <? String.length t)%nat)
    (split_blank_runs [] false
       (map blank_non_token (map lower_ascii (list_ascii_of_string text)))).

(** ** JavaScript [Map] with string keys, in insertion order *)

Definition JsMap (V : Type) : Type := list (string * V).

Fixpoint map_get {V} (k : string) (m : JsMap V) : option V :=
  match m with
  | [] => None
  | (k', v) :: r => if String.eqb k k' then Some v else map_get k r
  end.

(** [m.set(k, v)]: an existing key keeps its position, a new one goes last. *)
Fixpoint map_set {V} (k : string) (v : V) (m : JsMap V) : JsMap V :=
  match m with
  | [] => [(k, v)]
  | (k', v') :: r =>
      if String.eqb k k' then (k', v) :: r else (k', v') :: map_set k v r
  end.

Definition map_keys {V} (m : JsMap V) : list string := map fst m.
Definition map_values {V} (m : JsMap V) : list V := map snd m.

(** [new Map(entries)]. *)
Definition map_of_entries {V} (l : list (string * V)) : JsMap V :=
  fold_left (fun m kv => map_set (fst kv) (snd kv) m) l [].

(** ** Row types ([src/types.ts]) *)

Record NodeRow := mkNodeRow {
  node_id : string;
  name : string;
  file : option string;
  node_type : option string;
  signature : option string;
  body_text : option string;
  roxygen_text : option string;
  complexity : option Q;
  pagerank : option Q;
  task_weight : option Q;
  embedding : option string;
  pkg_name : option string;
  pkg_version : option string
}.

Record EdgeRow := mkEdgeRow {
  edge_id : Z;
  source_id : string;
  target_id : string;
  edge_type : option string;
  weight : option Q;
  metadata : option string
}.

Record TaskTraceRow := mkTaskTraceRow {
  trace_id : Z;
  query : option string;
  nodes_json : option string;
  polarity : Q;
  session_id : option string;
  created_at : option string
}.

Record TfidfVocabRow := mkTfidfVocabRow {
  term : string;
  idf : Q;
  doc_count : Z;
  term_count : Z
}.

Record NodeInfo := mkNodeInfo {
  info_node_id : string;
  info_name : string;
  info_file : option string;
  info_node_type : option string;
  info_signature : option string;
  info_body_text : option string;
  info_roxygen_text : option string;
  info_complexity : option Q;
  info_pagerank : option Q;
  info_task_weight : option Q;
  info_pkg_name : option string;
  info_pkg_version : option string;
  callers : list string;
  callees : list string;
  tests : list string
}.

Inductive RetrievalMode := tfidf_cosine | fts5_fallback | pagerank_only.

(** [retrieval_mode] is [None] when the returned object has no such
    property. *)
Record ContextResult := mkContextResult {
  context_string : string;
  node_ids : list string;
  token_estimate : Z;
  seed_node : option string;
  retrieval_mode : option RetrievalMode
}.

(** Outcome of a [MATCH] on the [nodes_fts] virtual table: the statement
    throws (no such table, or a query FTS5 cannot parse), or it yields the
    rowids of the matching index entries, best rank first. *)
Inductive FtsOutcome :=
| FtsThrows
| FtsRows (rowids : list nat).

(** The open database.  The rowid of a node is its position in [nodes].
    [task_traces_seq] is the AUTOINCREMENT counter of [task_traces] (the
    largest trace_id ever handed out).  [tfidf_vocab] is [None] when the
    table is missing.  The FTS5 engine is outside the repository: its
    answer to a query is the field [nodes_fts]. *)
Record Db := mkDb {
  nodes : list NodeRow;
  edges : list EdgeRow;
  task_traces : list TaskTraceRow;
  task_traces_seq : Z;
  tfidf_vocab : option (list TfidfVocabRow);
  nodes_fts : string -> FtsOutcome
}.

(** ** Token counting *)

(** [Math.ceil(text.length / 3.5)]. *)
Definition estimateTokens (text : string) : Z :=
  Qceiling (inject_Z (Z.of_nat (String.length text)) / (7 # 2)).

(** ** SQL helpers *)

(** Stable insertion sort: [before a b] says that [a] must come strictly
    before [b].  Rows that neither precedes the other keep their order. *)
Fixpoint insert_sorted {A} (before : A -> A -> bool) (x : A) (l : list A)
  : list A :=
  match l with
  | [] => [x]
  | y :: r => if before y x then y :: insert_sorted before x r else x :: y :: r
  end.

Definition stable_sort {A} (before : A -> A -> bool) (l : list A) : list A :=
  fold_right (insert_sorted before) [] l.

Definition Qltb (x y : Q) : bool := negb (Qle_bool y x).

(** SQLite's order on a nullable REAL: NULL is below every number. *)
Definition sql_gtb (a b : option Q) : bool :=
  match a, b with
  | Some x, Some y => Qltb y x
  | Some _, None => true
  | None, _ => false
  end.

(** [ORDER BY pagerank DESC] (with or without [NULLS LAST]: NULL sorts last
    in descending order either way).  SQL leaves the order of rows of equal
    rank open; here they keep their table order. *)
Definition order_by_pagerank_desc (rows : list NodeRow) : list NodeRow :=
  stable_sort (fun a b => sql_gtb (pagerank a) (pagerank b)) rows.

(** [e.edge_type = ty]; a NULL type matches nothing. *)
Definition edge_type_is (ty : string) (e : EdgeRow) : bool :=
  match edge_type e with
  | Some t => String.eqb t ty
  | None => false
  end.

(** [JOIN nodes n ON n.node_id = id], projected on [n.name]. *)
Definition names_of (db : Db) (id : string) : list string :=
  map name (filter (fun n => String.eqb (node_id n) id) (nodes db)).

(** Names of the neighbours of [id] over edges of type [ty]:
    [SELECT n.name FROM edges e JOIN nodes n ON n.node_id = e.target_id
     WHERE e.source_id = ? AND e.edge_type = ty LIMIT lim], and the same
    with source and target exchanged. *)
Definition outgoing_names (db : Db) (ty : string) (lim : nat) (id : string)
  : list string :=
  firstn lim
    (flat_map (fun e => names_of db (target_id e))
       (filter (fun e => String.eqb (source_id e) id && edge_type_is ty e)
          (edges db))).

Definition incoming_names (db : Db) (ty : string) (lim : nat) (id : string)
  : list string :=
  firstn lim
    (flat_map (fun e => names_of db (source_id e))
       (filter (fun e => String.eqb (target_id e) id && edge_type_is ty e)
          (edges db))).

(** ** Seed node discovery *)

(** [SELECT n.node_id FROM nodes_fts f JOIN nodes n ON n.rowid = f.rowid
     WHERE nodes_fts MATCH ? ORDER BY rank LIMIT 1], inside the [try]:
    [None] both when the statement throws and when no row comes back. *)
Definition fts_first_hit (db : Db) (ftsQuery : string) : option string :=
  match nodes_fts db ftsQuery with
  | FtsThrows => None
  | FtsRows rowids =>
      match flat_map (fun rid => match nth_error (nodes db) rid with
                                 | Some n => [n]
                                 | None => []
                                 end) rowids with
      | n :: _ => Some (node_id n)
      | [] => None
      end
  end.

(** One round of the term-overlap loop over the 200 best-ranked rows. *)
Definition overlap_step (tokens : list string) (best : Q * option string)
  (row : NodeRow) : Q * option string :=
  let nameTokens := tokenize (name row) in
  let overlap :=
    List.length
      (filter (fun t => existsb (String.eqb t) tokens) nameTokens) in
  let score :=
    (inject_Z (Z.of_nat overlap)
     + match pagerank row with Some p => p | None => 0 end)%Q in
  if Qltb (fst best) score then (score, Some (node_id row)) else best.

Definition _findSeedNode (db : Db) (query : string)
  (seedNodeName : option string) : option string :=
  let by_name :=
    if truthy seedNodeName
    then match seedNodeName with
         | Some s => find (fun n => String.eqb (name n) s) (nodes db)
         | None => None
         end
    else None in
  match by_name with
  | Some row => Some (node_id row)
  | None =>
      let ftsQuery := join " OR " (firstn 10 (tokenize query)) in
      let fts :=
        if truthy (Some ftsQuery) then fts_first_hit db ftsQuery else None in
      match fts with
      | Some id => Some id
      | None =>
          let tokens := tokenize query in
          let rows := firstn 200 (order_by_pagerank_desc (nodes db)) in
          let bestId :=
            snd (fold_left (overlap_step tokens) rows (0%Q, None)) in
          if truthy bestId then bestId
          else match order_by_pagerank_desc (nodes db) with
               | top :: _ => Some (node_id top)
               | [] => None
               end
      end
  end.

(** ** Breadth-first traversal ([BFS_SQL]) *)

(** [SELECT e.target_id FROM edges e WHERE e.source_id = v]. *)
Definition targets (es : list EdgeRow) (v : string) : list string :=
  map target_id (filter (fun e => String.eqb (source_id e) v) es).

(** The rows of the recursive table [bfs(node_id, depth)].  The first row
    is the seed at depth 0.  Every row of depth [d + 1] comes from a row of
    depth [d] through an edge, as long as [d < max_depth]; [UNION] keeps
    one copy of each (node_id, depth) pair, so a node met again on a cycle
    gets a new row only at a new depth, and the depth bound ends the
    recursion.  [frontier] holds the node ids of the rows of depth [d], and
    [remaining] is [max_depth - d]. *)
Fixpoint bfs_levels (es : list EdgeRow) (frontier : list string) (d : nat)
  (remaining : nat) : list (string * nat) :=
  map (fun v => (v, d)) frontier ++
  match remaining with
  | O => []
  | S r =>
      bfs_levels es (nodup string_dec (flat_map (targets es) frontier))
        (S d) r
  end.

Definition bfs_cte (es : list EdgeRow) (seed : string) (maxDepth : nat)
  : list (string * nat) :=
  bfs_levels es [seed] 0 maxDepth.

(** [MIN(bfs.depth)] over the rows of the group of [id]. *)
Definition min_depth_of (rows : list (string * nat)) (id : string)
  : option nat :=
  match map snd (filter (fun r => String.eqb (fst r) id) rows) with
  | [] => None
  | d :: ds => Some (fold_left Nat.min ds d)
  end.

(** [FROM bfs JOIN nodes n ON n.node_id = bfs.node_id GROUP BY n.node_id]:
    one row per node that has a row in [bfs]. *)
Definition bfs_grouped (ns : list NodeRow) (rows : list (string * nat))
  : list (NodeRow * nat) :=
  flat_map (fun n => match min_depth_of rows (node_id n) with
                     | Some d => [(n, d)]
                     | None => []
                     end) ns.

(** [ORDER BY depth ASC, n.pagerank DESC]. *)
Definition bfs_before (a b : NodeRow * nat) : bool :=
  (snd a <? snd b)%nat
  || ((snd a =? snd b)%nat && sql_gtb (pagerank (fst a)) (pagerank (fst b))).

Definition bfs_ordered (db : Db) (seed : string) (maxDepth : nat)
  : list (NodeRow * nat) :=
  stable_sort bfs_before
    (bfs_grouped (nodes db) (bfs_cte (edges db) seed maxDepth)).

(** The whole statement, [LIMIT @max_nodes] included.  The bounds are
    counts: [queryContext] defaults them to 3 and 80, and the tool never
    passes others. *)
Definition BFS_SQL (db : Db) (seed : string) (maxDepth maxNodes : nat)
  : list (NodeRow * nat) :=
  firstn maxNodes (bfs_ordered db seed maxDepth).

(** ** SQLite's evaluation of the recursive table

    SQLite computes [bfs] with a queue: it starts from the row of the
    initial SELECT, and at each step takes one row out of the queue, adds
    it to the table, runs the recursive SELECT on that row alone and
    queues the rows it yields that were never produced before ([UNION]).
    [fuel] bounds the number of steps. *)

Definition Row : Type := (string * nat)%type.

Definition row_eqb (a b : Row) : bool :=
  String.eqb (fst a) (fst b) && (snd a =? snd b)%nat.

(** [SELECT e.target_id, bfs.depth + 1 FROM edges e JOIN bfs
     ON e.source_id = bfs.node_id WHERE bfs.depth < @max_depth], with [bfs]
    holding the single row [r]. *)
Definition recursive_select (es : list EdgeRow) (maxDepth : nat) (r : Row)
  : list Row :=
  if (snd r <? maxDepth)%nat
  then map (fun t => (t, S (snd r))) (targets es (fst r))
  else [].

(** The rows of [produced] that are new, each once. *)
Fixpoint fresh_rows (produced seen : list Row) : list Row :=
  match produced with
  | [] => []
  | p :: ps =>
      if existsb (row_eqb p) seen then fresh_rows ps seen
      else p :: fresh_rows ps (p :: seen)
  end.

Fixpoint cte_run (fuel : nat) (es : list EdgeRow) (maxDepth : nat)
  (queue seen out : list Row) : option (list Row) :=
  match queue with
  | [] => Some (rev out)
  | r :: q =>
      match fuel with
      | O => None
      | S f =>
          let fresh := fresh_rows (recursive_select es maxDepth r) seen in
          cte_run f es maxDepth (q ++ fresh) (fresh ++ seen) (r :: out)
      end
  end.

Definition cte_eval (fuel : nat) (es : list EdgeRow) (seed : string)
  (maxDepth : nat) : option (list Row) :=
  cte_run fuel es maxDepth [(seed, O)] [(seed, O)] [].

(** Every row the evaluation can ever produce: the seed at depth 0 and the
    target of an edge at a depth from 1 to [maxDepth]. *)
Definition cte_universe (es : list EdgeRow) (seed : string) (maxDepth : nat)
  : list Row :=
  (seed, O)
  :: flat_map (fun e => map (fun k => (target_id e, k)) (seq 1 maxDepth)) es.

(** ** Rendering of one node *)

Definition _formatNodeContext (db : Db) (node : NodeRow) : string :=
  let type := match node_type node with Some t => t | None => "node" end in
  let file_part :=
    match file node with
    | Some f =>
        if truthy (Some f) then (" [" ++ f ++ "]")%string else EmptyString
    | None => EmptyString
    end in
  let head :=
    [("## " ++ name node ++ "  <" ++ type ++ ">" ++ file_part)%string] in
  let sig :=
    match signature node with
    | Some s =>
        if truthy (Some s)
        then [("**Signature**: `" ++ s ++ "`")%string]
        else []
    | None => []
    end in
  let doc :=
    match roxygen_text node with
    | Some r =>
        if truthy (Some r) then ["**Documentation**:"; slice0 400 r] else []
    | None => []
    end in
  let callees := outgoing_names db "CALLS" 10 (node_id node) in
  let callers := incoming_names db "CALLS" 10 (node_id node) in
  let calls :=
    match callees with
    | [] => []
    | _ => [("**Calls**: " ++ join ", " callees)%string]
    end in
  let called :=
    match callers with
    | [] => []
    | _ => [("**Called by**: " ++ join ", " callers)%string]
    end in
  let body :=
    match body_text node with
    | Some b =>
        if truthy (Some b) then ["```r"; slice0 1200 b; "```"] else []
    | None => []
    end in
  join (String "010" EmptyString)
    (head ++ sig ++ doc ++ calls ++ called ++ body).

(** ** Cosine similarity *)

Local Open Scope R_scope.

Definition cosine_step (a b : list R) (acc : R * R * R) (i : nat)
  : R * R * R :=
  let '(dot, normA, normB) := acc in
  (dot + nth i a 0 * nth i b 0,
   normA + nth i a 0 * nth i a 0,
   normB + nth i b 0 * nth i b 0).

Definition cosineSimilarity (a b : list R) : R :=
  if negb (List.length a =? List.length b)%nat || (List.length a =? 0)%nat
  then 0
  else
    let '(dot, normA, normB) :=
      fold_left (cosine_step a b) (seq 0 (List.length a)) (0, 0, 0) in
    let denom := sqrt normA * sqrt normB in
    if Req_dec_T denom 0 then 0 else dot / denom.

(** ** TF-IDF query encoding *)

(** The loop [for (const t of tokens) tf.set(t, (tf.get(t) ?? 0) + 1)]. *)
Definition count_tokens (tokens : list string) : JsMap nat :=
  fold_left
    (fun tf t =>
       map_set t (match map_get t tf with Some c => c | None => O end + 1)%nat
         tf)
    tokens [].

Definition buildQueryVector (query : string) (vocab : JsMap TfidfVocabRow)
  : JsMap R :=
  let tokens := tokenize query in
  let tf := count_tokens tokens in
  fold_left
    (fun result tc =>
       match map_get (fst tc) vocab with
       | Some row =>
           let logTf :=
             ln (1 + INR (snd tc)) / ln (1 + INR (List.length tokens)) in
           map_set (fst tc) (logTf * Q2R (idf row)) result
       | None => result
       end)
    tf [].

Local Close Scope R_scope.

(** ** [JSON.parse] of an embedding

    The embedding column holds a JSON array of numbers.  [None] stands for
    every text on which the [try] block of [queryContext] ends in the
    [catch]: a text that is not JSON, or JSON that is not an array.  An
    array with an element that is not a number is outside the contract of
    the column and is read as [None] too. *)

Definition is_ws (c : ascii) : bool :=
  let n := nat_of_ascii c in
  (n =? 32)%nat || (n =? 9)%nat || (n =? 10)%nat || (n =? 13)%nat.

Fixpoint skip_ws (s : list ascii) : list ascii :=
  match s with
  | c :: r => if is_ws c then skip_ws r else s
  | [] => []
  end.

Definition digit_of (c : ascii) : option Z :=
  let n := nat_of_ascii c in
  if (48 <=? n)%nat && (n <=? 57)%nat then Some (Z.of_nat (n - 48)) else None.

(** A maximal run of digits: its value, its length, the rest. *)
Fixpoint read_digits (s : list ascii) (acc : Z) (cnt : nat)
  : Z * nat * list ascii :=
  match s with
  | c :: r =>
      match digit_of c with
      | Some d => read_digits r (10 * acc + d)%Z (S cnt)
      | None => (acc, cnt, s)
      end
  | [] => (acc, cnt, [])
  end.

Definition starts_with_zero (s : list ascii) : bool :=
  match s with
  | c :: _ => Ascii.eqb c "0"%char
  | [] => false
  end.

(** The fraction of a JSON number: value and number of digits. *)
Definition parse_fraction (s : list ascii) : option (Z * nat * list ascii) :=
  match s with
  | c :: r =>
      if Ascii.eqb c "."%char
      then let '(f, k, r') := read_digits r 0%Z O in
           if (k =? 0)%nat then None else Some (f, k, r')
      else Some (0%Z, O, s)
  | [] => Some (0%Z, O, [])
  end.

Definition parse_exponent (s : list ascii) : option (Z * list ascii) :=
  match s with
  | c :: r =>
      if Ascii.eqb c "e"%char || Ascii.eqb c "E"%char
      then
        let '(neg, r1) :=
          match r with
          | d :: r' =>
              if Ascii.eqb d "-"%char then (true, r')
              else if Ascii.eqb d "+"%char then (false, r')
              else (false, r)
          | [] => (false, r)
          end in
        let '(e, k, r2) := read_digits r1 0%Z O in
        if (k =? 0)%nat then None
        else Some (if neg then (- e)%Z else e, r2)
      else Some (0%Z, s)
  | [] => Some (0%Z, [])
  end.

Definition parse_number (s : list ascii) : option (Q * list ascii) :=
  let '(neg, s1) :=
    match s with
    | c :: r => if Ascii.eqb c "-"%char then (true, r) else (false, s)
    | [] => (false, s)
    end in
  let '(ip, n, s2) := read_digits s1 0%Z O in
  if (n =? 0)%nat || ((1 <? n)%nat && starts_with_zero s1) then None
  else
    match parse_fraction s2 with
    | None => None
    | Some (fp, k, s3) =>
        match parse_exponent s3 with
        | None => None
        | Some (e, s4) =>
            let scale := (10 ^ Z.of_nat k)%Z in
            let mant := (ip * scale + fp)%Z in
            let m := if neg then (- mant)%Z else mant in
            Some ((Qmake m (Z.to_pos scale) * Qpower (10 # 1) e)%Q, s4)
        end
    end.

Fixpoint parse_elements (fuel : nat) (s : list ascii) (acc : list Q)
  : option (list Q * list ascii) :=
  match fuel with
  | O => None
  | S f =>
      match parse_number (skip_ws s) with
      | None => None
      | Some (q, r) =>
          match skip_ws r with
          | c :: r' =>
              if Ascii.eqb c ","%char then parse_elements f r' (q :: acc)
              else if Ascii.eqb c "]"%char then Some (rev (q :: acc), r')
              else None
          | [] => None
          end
      end
  end.

Definition all_ws (s : list ascii) : bool :=
  match skip_ws s with [] => true | _ => false end.

Definition JSON_parse_floats (text : string) : option (list Q) :=
  match skip_ws (list_ascii_of_string text) with
  | c :: r =>
      if Ascii.eqb c "["%char
      then
        match skip_ws r with
        | d :: r' =>
            if Ascii.eqb d "]"%char
            then if all_ws r' then Some [] else None
            else
              match parse_elements (S (List.length r)) r [] with
              | Some (l, rest) => if all_ws rest then Some l else None
              | None => None
              end
        | [] => None
        end
      else None
  | [] => None
  end.

(** ** [JSON.stringify] of an array of strings *)

Definition hex_digit (n : nat) : ascii :=
  if (n <? 10)%nat then ascii_of_nat (48 + n) else ascii_of_nat (87 + n).

Definition json_escape (c : ascii) : list ascii :=
  let n := nat_of_ascii c in
  if (n =? 34)%nat then ["\"; "034"]%char
  else if (n =? 92)%nat then ["\"; "\"]%char
  else if (n =? 8)%nat then ["\"; "b"]%char
  else if (n =? 12)%nat then ["\"; "f"]%char
  else if (n =? 10)%nat then ["\"; "n"]%char
  else if (n =? 13)%nat then ["\"; "r"]%char
  else if (n =? 9)%nat then ["\"; "t"]%char
  else if (n <? 32)%nat
       then ["\"; "u"; "0"; "0"; hex_digit (n / 16); hex_digit (n mod 16)]%char
  else [c].

Definition json_string (s : string) : string :=
  string_of_list_ascii
    (["034"%char] ++ flat_map json_escape (list_ascii_of_string s)
     ++ ["034"%char]).

Definition JSON_stringify (l : list string) : string :=
  ("[" ++ join "," (map json_string l) ++ "]")%string.

(** ** [decodeURIComponent] and SQL [LIKE] *)

Definition hex_val (c : ascii) : option nat :=
  let n := nat_of_ascii c in
  if (48 <=? n)%nat && (n <=? 57)%nat then Some (n - 48)%nat
  else if (65 <=? n)%nat && (n <=? 70)%nat then Some (n - 55)%nat
  else if (97 <=? n)%nat && (n <=? 102)%nat then Some (n - 87)%nat
  else None.

(** A decoded code point is acceptable when it is not an overlong form
    ([lo] is the least value of its length), not a surrogate and at most
    U+10FFFF. *)
Definition valid_code_point (cp lo : N) : bool :=
  (lo <=? cp)%N && (cp <=? 1114111)%N
  && negb ((55296 <=? cp)%N && (cp <=? 57343)%N).

(** Percent-decoding.  [need] counts the continuation escapes still owed
    by a multi-byte sequence, [cp] is the code point read so far and
    [pending] its bytes.  [None] is the URIError. *)
Fixpoint decode_uri (s : list ascii) (need : nat) (cp lo : N)
  (pending : list ascii) : option (list ascii) :=
  match s with
  | [] => if (need =? 0)%nat then Some [] else None
  | c :: r =>
      if Ascii.eqb c "%"%char
      then
        match r with
        | h1 :: h2 :: r' =>
            match hex_val h1, hex_val h2 with
            | Some a, Some b =>
                let B := (16 * a + b)%nat in
                if (need =? 0)%nat
                then
                  if (B <? 128)%nat
                  then option_map (cons (ascii_of_nat B))
                         (decode_uri r' 0 0%N 0%N [])
                  else if (192 <=? B)%nat && (B <? 224)%nat
                  then decode_uri r' 1 (N.of_nat (B - 192)) 128%N [ascii_of_nat B]
                  else if (224 <=? B)%nat && (B <? 240)%nat
                  then decode_uri r' 2 (N.of_nat (B - 224)) 2048%N [ascii_of_nat B]
                  else if (240 <=? B)%nat && (B <? 248)%nat
                  then decode_uri r' 3 (N.of_nat (B - 240)) 65536%N [ascii_of_nat B]
                  else None
                else
                  if (128 <=? B)%nat && (B <? 192)%nat
                  then
                    let cp' := (cp * 64 + N.of_nat (B - 128))%N in
                    let bytes := pending ++ [ascii_of_nat B] in
                    if (need =? 1)%nat
                    then
                      if valid_code_point cp' lo
                      then option_map (app bytes) (decode_uri r' 0 0%N 0%N [])
                      else None
                    else decode_uri r' (need - 1) cp' lo bytes
                  else None
            | _, _ => None
            end
        | _ => None
        end
      else if (need =? 0)%nat
           then option_map (cons c) (decode_uri r 0 0%N 0%N [])
           else None
  end.

Definition decodeURIComponent (s : string) : option string :=
  option_map string_of_list_ascii
    (decode_uri (list_ascii_of_string s) 0 0%N 0%N []).

(** [text LIKE pattern]: [%] matches any run, [_] one character, letters
    compare without case. *)
Fixpoint like_match (p : list ascii) (s : list ascii) {struct p} : bool :=
  match p with
  | [] => match s with [] => true | _ => false end
  | c :: p' =>
      if Ascii.eqb c "%"%char
      then (fix star (t : list ascii) : bool :=
              like_match p' t
              || match t with [] => false | _ :: t' => star t' end) s
      else
        match s with
        | [] => false
        | d :: s' =>
            (Ascii.eqb c "_"%char
             || Ascii.eqb (lower_ascii c) (lower_ascii d))
            && like_match p' s'
        end
  end.

Definition sql_like (pattern text : string) : bool :=
  like_match (list_ascii_of_string pattern) (list_ascii_of_string text).

(** ** Errors *)

Inductive exn :=
| RangeError (got : Q)
| URIError.

(** ** The [SQLiteGraph] object *)

Record SQLiteGraph := mkSQLiteGraph {
  db : Db;
  tfidfVocab : JsMap TfidfVocabRow
}.

(** [_loadVocab]: a missing table leaves the cached map as it is. *)
Definition _loadVocab (g : SQLiteGraph) : SQLiteGraph :=
  match tfidf_vocab (db g) with
  | Some rows =>
      mkSQLiteGraph (db g) (map_of_entries (map (fun r => (term r, r)) rows))
  | None => g
  end.

(** The constructor, after the schema is in place. *)
Definition open_graph (d : Db) : SQLiteGraph := _loadVocab (mkSQLiteGraph d []).

Definition reload (g : SQLiteGraph) : SQLiteGraph := _loadVocab g.

(** ** getNodeInfo *)

Definition getNodeInfo (g : SQLiteGraph) (nodeName : string)
  (includeSource : bool) : option NodeInfo :=
  match find (fun n => String.eqb (name n) nodeName) (nodes (db g)) with
  | None => None
  | Some row =>
      Some (mkNodeInfo (node_id row) (name row) (file row) (node_type row)
              (signature row)
              (if includeSource then body_text row else None)
              (roxygen_text row) (complexity row) (pagerank row)
              (task_weight row) (pkg_name row) (pkg_version row)
              (incoming_names (db g) "CALLS" 20 (node_id row))
              (outgoing_names (db g) "CALLS" 20 (node_id row))
              (incoming_names (db g) "TESTS" 20 (node_id row)))
  end.

(** ** getFileNodes *)

(** [WHERE file = ? OR file LIKE ?] with the parameters [decoded] and
    ["%" + decoded]. *)
Definition file_matches (decoded : string) (r : NodeRow) : bool :=
  match file r with
  | Some f => String.eqb f decoded || sql_like ("%" ++ decoded)%string f
  | None => false
  end.

Definition getFileNodes (g : SQLiteGraph) (filePath : string)
  : exn + list NodeInfo :=
  match decodeURIComponent filePath with
  | None => inl URIError
  | Some decoded =>
      inr (map (fun r =>
                  mkNodeInfo (node_id r) (name r) (file r) (node_type r)
                    (signature r) (body_text r) (roxygen_text r)
                    (complexity r) (pagerank r) (task_weight r)
                    (pkg_name r) (pkg_version r) [] [] [])
             (filter (file_matches decoded) (nodes (db g))))
  end.

(** ** addTaskTrace *)

(** The rowid SQLite gives to a new AUTOINCREMENT row: one more than the
    largest ever used. *)
Definition next_trace_id (d : Db) : Z :=
  (1 + fold_left Z.max (map trace_id (task_traces d)) (task_traces_seq d))%Z.

(** [now] is [new Date().toISOString()] at the time of the call.  The
    result pairs what the call returns or throws with the database after
    it. *)
Definition addTaskTrace (g : SQLiteGraph) (now : string) (query : string)
  (trace_nodes : list string) (polarity : Q) (sessionId : option string)
  : (exn + Z) * SQLiteGraph :=
  if Qltb polarity (-1) || Qltb 1 polarity
  then (inl (RangeError polarity), g)
  else
    let d := db g in
    let id := next_trace_id d in
    let row :=
      mkTaskTraceRow id (Some query) (Some (JSON_stringify trace_nodes))
        polarity sessionId (Some now) in
    (inr id,
     mkSQLiteGraph
       (mkDb (nodes d) (edges d) (task_traces d ++ [row]) id
          (tfidf_vocab d) (nodes_fts d))
       (tfidfVocab g)).

(** ** queryContext *)

Local Open Scope R_scope.

(** The [semScore] of one node: the cosine of the query vector and the
    leading components of the parsed embedding, 0 when the embedding or the
    query vector is missing or the embedding does not parse. *)
Definition semScore_of (qVecArr : option (list R)) (node : NodeRow) : R :=
  match qVecArr with
  | Some qv =>
      if truthy (embedding node)
      then match embedding node with
           | Some e =>
               match JSON_parse_floats e with
               | Some emb =>
                   cosineSimilarity qv (firstn (List.length qv) (map Q2R emb))
               | None => 0
               end
           | None => 0
           end
      else 0
  | None => 0
  end.

Definition score_node (qVecArr : option (list R)) (nd : NodeRow * nat) : R :=
  let node := fst nd in
  let semScore := semScore_of qVecArr node in
  let pr := match pagerank node with Some p => Q2R p | None => 0 end in
  let tw := match task_weight node with Some t => Q2R t | None => 0.5 end in
  let depthPenalty := 1 / (1 + INR (snd nd) * 0.5) in
  0.4 * semScore + 0.25 * pr + 0.25 * tw + 0.1 * depthPenalty.

Definition Scored : Type := (NodeRow * nat) * R.

(** The comparator [(a, b) => b.score - a.score]: [a] goes strictly before
    [b] when its score is larger; [Array.prototype.sort] is stable. *)
Definition score_before (a b : Scored) : bool :=
  if Rlt_dec (snd b) (snd a) then true else false.

Definition qVecArr_of (qVec : JsMap R) : option (list R) :=
  match qVec with
  | [] => None
  | _ => Some (map_values qVec)
  end.

Definition scored_nodes (g : SQLiteGraph) (query : string)
  (bfsNodes : list (NodeRow * nat)) : list Scored :=
  let qVecArr := qVecArr_of (buildQueryVector query (tfidfVocab g)) in
  stable_sort score_before
    (map (fun nd => (nd, score_node qVecArr nd)) bfsNodes).

Local Close Scope R_scope.

(** The assembly loop: [break] at the first chunk that does not fit. *)
Fixpoint assemble (d : Db) (budgetTokens : Z) (scored : list Scored)
  (chunks usedIds : list string) (usedTokens : Z)
  : list string * list string * Z :=
  match scored with
  | [] => (chunks, usedIds, usedTokens)
  | (nd, _) :: rest =>
      let chunk := _formatNodeContext d (fst nd) in
      let chunkTokens := estimateTokens chunk in
      if (usedTokens + chunkTokens >? budgetTokens)%Z
      then (chunks, usedIds, usedTokens)
      else assemble d budgetTokens rest (chunks ++ [chunk])
             (usedIds ++ [node_id (fst nd)]) (usedTokens + chunkTokens)%Z
  end.

Definition newline : string := String "010" EmptyString.

Definition queryContext (g : SQLiteGraph) (query : string)
  (seedNodeName : option string) (budgetTokens : Z) (maxDepth maxNodes : nat)
  : ContextResult :=
  let seedId := _findSeedNode (db g) query seedNodeName in
  match seedId with
  | Some (String c s) =>
      let seed := String c s in
      let bfsNodes := BFS_SQL (db g) seed maxDepth maxNodes in
      let scored := scored_nodes g query bfsNodes in
      let '(chunks, usedIds, usedTokens) :=
        assemble (db g) budgetTokens scored [] [] 0%Z in
      let header :=
        ("# rrlmgraph context" ++ newline
         ++ "# Query: " ++ query ++ newline
         ++ "# Nodes: " ++ string_of_nat (List.length usedIds)
         ++ " | Tokens: ~" ++ string_of_Z usedTokens ++ newline
         ++ newline)%string in
      mkContextResult
        (header ++ join (newline ++ "---" ++ newline) chunks)%string
        usedIds usedTokens seedId None
  | _ =>
      mkContextResult ("# No graph data available." ++ newline)%string
        [] 0%Z None None
  end.

Definition default_budgetTokens : Z := 6000.
Definition default_maxDepth : nat := 3.
Definition default_maxNodes : nat := 80.

(** ** Vocabulary of the properties *)

(** The text block of a scored candidate and its estimated cost. *)
Definition chunk_of (d : Db) (s : Scored) : string :=
  _formatNodeContext d (fst (fst s)).

Definition cost (d : Db) (s : Scored) : Z := estimateTokens (chunk_of d s).

Definition total_cost (d : Db) (l : list Scored) : Z :=
  fold_right Z.add 0%Z (map (cost d) l).

Definition scored_id (s : Scored) : string := node_id (fst (fst s)).

(** Sum of the estimated costs of the blocks of a list of nodes. *)
Definition blocks_cost (d : Db) (l : list NodeRow) : Z :=
  fold_right Z.add 0%Z
    (map (fun n => estimateTokens (_formatNodeContext d n)) l).

(** [walk es u k v]: there is a directed path of [k] edges from [u] to [v],
    each followed from its source to its target. *)
Inductive walk (es : list EdgeRow) : string -> nat -> string -> Prop :=
| walk_here : forall u, walk es u O u
| walk_step : forall u e k v,
    In e es -> source_id e = u -> walk es (target_id e) k v ->
    walk es u (S k) v.

(** Centrality descending, NULL last. *)
Definition pagerank_ge (a b : option Q) : Prop :=
  match a, b with
  | _, None => True
  | None, Some _ => False
  | Some x, Some y => (y <= x)%Q
  end.

(** Depth ascending, then centrality descending. *)
Definition bfs_rank_le (a b : NodeRow * nat) : Prop :=
  (snd a < snd b)%nat
  \/ (snd a = snd b /\ pagerank_ge (pagerank (fst a)) (pagerank (fst b))).

(** What holds at every step of the evaluation: [seen] is the table so far
    plus the queue, without repeats; its rows are ends of walks within the
    depth bound; the rows already in the table have had their successors
    produced. *)
Definition cte_inv (es : list EdgeRow) (seed : string) (maxDepth : nat)
  (queue seen out : list Row) : Prop :=
  (forall x, In x seen <-> In x out \/ In x queue)
  /\ NoDup (out ++ queue)
  /\ (forall x, In x seen ->
        (snd x <= maxDepth)%nat /\ walk es seed (snd x) (fst x))
  /\ (forall r x, In r out -> In x (recursive_select es maxDepth r) ->
        In x seen)
  /\ In (seed, O) seen.

(** ** The test fixture ([tests/fixtures/create_fixture.ts])

    Three functions, three CALLS edges, a seven-term vocabulary.  The
    full-text index is left out: a [MATCH] on it throws. *)

Definition fixture_nodes : list NodeRow :=
  [ mkNodeRow "build_rrlm_graph" "build_rrlm_graph" (Some "R/graph_build.R")
      (Some "function")
      (Some "build_rrlm_graph(project_path, embed_method = 'tfidf', cache = TRUE)")
      (Some "function(project_path, embed_method = 'tfidf', cache = TRUE) {
  # builds the graph
}")
      (Some "@title Build an rrlm_graph\n@param project_path Path to the R project root.")
      (Some 12%Q) (Some 0.08%Q) (Some 0.7%Q)
      (Some "[0.1,0.2,0.3,0.4,0.5,0.6,0.7,0.8]")
      (Some "rrlmgraph") (Some "0.2.0");
    mkNodeRow "query_context" "query_context" (Some "R/graph_traverse.R")
      (Some "function")
      (Some "query_context(graph, query, budget_tokens = 6000)")
      (Some "function(graph, query, budget_tokens = 6000) {
  # BFS traversal
}")
      (Some "@title Query context\n@param graph An rrlm_graph object.")
      (Some 8%Q) (Some 0.07%Q) (Some 0.65%Q)
      (Some "[0.1,0.15,0.2,0.25,0.3,0.35,0.4,0.45]")
      (Some "rrlmgraph") (Some "0.2.0");
    mkNodeRow "export_to_sqlite" "export_to_sqlite" (Some "R/cache.R")
      (Some "function")
      (Some "export_to_sqlite(graph, db_path)")
      (Some "function(graph, db_path) {
  # exports to SQLite
}")
      (Some "@title Export graph to SQLite\n@param graph The graph to export.")
      (Some 6%Q) (Some 0.05%Q) (Some 0.5%Q)
      (Some "[0.03,0.06,0.09,0.12,0.15,0.18,0.21,0.24]")
      (Some "rrlmgraph") (Some "0.2.0") ].

Definition fixture_edges : list EdgeRow :=
  [ mkEdgeRow 1 "build_rrlm_graph" "query_context" (Some "CALLS")
      (Some 1%Q) None;
    mkEdgeRow 2 "build_rrlm_graph" "export_to_sqlite" (Some "CALLS")
      (Some 1%Q) None;
    mkEdgeRow 3 "query_context" "build_rrlm_graph" (Some "CALLS")
      (Some 0.5%Q) None ].

Definition fixture_vocab : list TfidfVocabRow :=
  [ mkTfidfVocabRow "build" 0.4 3 5;
    mkTfidfVocabRow "graph" 0.3 3 8;
    mkTfidfVocabRow "query" 0.5 2 3;
    mkTfidfVocabRow "context" 0.6 2 4;
    mkTfidfVocabRow "export" 0.8 1 2;
    mkTfidfVocabRow "sqlite" 0.9 1 1;
    mkTfidfVocabRow "traverse" 1.0 1 2 ].

Definition fixture_db : Db :=
  mkDb fixture_nodes fixture_edges [] 0 (Some fixture_vocab)
    (fun _ => FtsThrows).

Definition fixture : SQLiteGraph := open_graph fixture_db.

(** ** A three-node cycle: A calls B, B calls C, C calls A *)

Definition plain_node (id nm : string) (pr : option Q) : NodeRow :=
  mkNodeRow id nm None None None None None None pr None None None None.

Definition calls_edge (k : Z) (s t : string) : EdgeRow :=
  mkEdgeRow k s t (Some "CALLS") None None.

Definition cycle_db : Db :=
  mkDb [plain_node "A" "A" None; plain_node "B" "B" None;
        plain_node "C" "C" None]
    [calls_edge 1 "A" "B"; calls_edge 2 "B" "C"; calls_edge 3 "C" "A"]
    [] 0 None (fun _ => FtsThrows).

(** ** A snapshot whose node identifiers are qualified names *)

Definition qualified_db : Db :=
  mkDb [plain_node "R/utils.R::helper" "helper" (Some 0.5%Q)]
    [] [] 0 None (fun _ => FtsThrows).

(** ** A snapshot with CALLS and TESTS edges around one function *)

Definition file_node (id : string) (f : string) : NodeRow :=
  mkNodeRow id id (Some f) (Some "function") None None None None None None
    None None None.

Definition relations_db : Db :=
  mkDb [file_node "fit_model" "R/model.R"; file_node "run_all" "R/run.R";
        file_node "clean" "R/clean.R";
        file_node "test_fit_model" "tests/testthat/test-model.R"]
    [calls_edge 1 "run_all" "fit_model"; calls_edge 2 "fit_model" "clean";
     mkEdgeRow 3 "test_fit_model" "fit_model" (Some "TESTS") None None]
    [] 0 None (fun _ => FtsThrows).

(** ** Vocabulary of the scoring properties *)

(** The weight of a term that occurs [count] times in a query of [total]
    tokens: [log(1 + count) / log(1 + total)] times the inverse document
    frequency. *)
Definition tf_weight (count total : nat) (term_idf : Q) : R :=
  (ln (1 + INR count) / ln (1 + INR total) * Q2R term_idf)%R.

Definition dot (a b : list R) : R :=
  fold_right Rplus 0%R (map (fun p => (fst p * snd p)%R) (combine a b)).

Definition sum_squares (a : list R) : R :=
  fold_right Rplus 0%R (map (fun x => (x * x)%R) a).

(** The embedding of a node as [queryContext] reads it: the parsed array,
    or nothing when the column is null or empty or does not parse. *)
Definition node_embedding (node : NodeRow) : option (list R) :=
  if truthy (embedding node)
  then match embedding node with
       | Some e => option_map (map Q2R) (JSON_parse_floats e)
       | None => None
       end
  else None.

(** Cosine of the query values [a] and the leading [length a] components
    of the embedding; 0 without embedding, for an empty [a], for an
    embedding shorter than [a], and when either norm is zero. *)
Definition semantic_similarity (a : list R) (emb : option (list R)) : R :=
  match emb with
  | None => 0%R
  | Some e =>
      let b := firstn (List.length a) e in
      if (List.length a =? 0)%nat
         || negb (List.length b =? List.length a)%nat
      then 0%R
      else if Req_dec_T (sum_squares a) 0 then 0%R
      else if Req_dec_T (sum_squares b) 0 then 0%R
      else (dot a b / (sqrt (sum_squares a) * sqrt (sum_squares b)))%R
  end.

(** The blend of the four signals. *)
Definition blended_score (s : R) (node : NodeRow) (depth : nat) : R :=
  (0.40 * s
   + 0.25 * match pagerank node with Some p => Q2R p | None => 0 end
   + 0.25 * match task_weight node with Some t => Q2R t | None => 0.5 end
   + 0.10 * (1 / (1 + INR depth * 0.5)))%R.

(** The values of a query vector read in the insertion order of the
    vocabulary, as the specification words it. *)
Definition values_in_vocab_order (qVec : JsMap R)
  (vocab : JsMap TfidfVocabRow) : list R :=
  flat_map (fun kv => match map_get (fst kv) qVec with
                      | Some w => [w]
                      | None => []
                      end) vocab.

(** A snapshot with a two-term vocabulary and one embedded node. *)
Definition order_db : Db :=
  mkDb [mkNodeRow "n" "n" None None None None None None None None
          (Some "[1,0]") None None]
    [] [] 0
    (Some [mkTfidfVocabRow "alpha" 1 1 1; mkTfidfVocabRow "beta" 2 1 1])
    (fun _ => FtsThrows).

(** ** Vocabulary of the further properties *)


(** The score of a row in the term-overlap loop of [_findSeedNode]: the
    number of tokens of its name that occur in the query, plus its
    centrality. *)
Definition overlap_score (tokens : list string) (row : NodeRow) : Q :=
  (inject_Z
     (Z.of_nat
        (List.length
           (filter (fun t => existsb (String.eqb t) tokens)
              (tokenize (name row)))))
   + match pagerank row with Some p => p | None => 0 end)%Q.

(** ** [JSON.parse]

    A JSON text read into a tree.  A string is the list of its code units
    (an escape [\uXXXX] can name a unit above 255); a number is the
    rational its text denotes; the members of an object are kept in the
    order of the text.  [None] is the SyntaxError. *)

#[warnings="-register-all"]
Inductive Json :=
| JNull
| JBool (b : bool)
| JNumber (q : Q)
| JString (units : list N)
| JArray (elements : list Json)
| JObject (members : list (list N * Json)).

Definition code_units (s : string) : list N :=
  map N_of_ascii (list_ascii_of_string s).

(** The value of [JSON.parse(JSON.stringify(l))] for an array of strings. *)
Definition json_of_strings (l : list string) : Json :=
  JArray (map (fun s => JString (code_units s)) l).

Definition cons_unit (u : N) (r : option (list N * list ascii))
  : option (list N * list ascii) :=
  match r with
  | Some (l, rest) => Some (u :: l, rest)
  | None => None
  end.

(** The characters of a string after its opening quote, up to the closing
    one.  A control character and an unknown escape are errors. *)
Fixpoint parse_string_body (s : list ascii)
  : option (list N * list ascii) :=
  match s with
  | [] => None
  | c :: r =>
      let n := nat_of_ascii c in
      if (n =? 34)%nat then Some ([], r)
      else if (n =? 92)%nat
      then
        match r with
        | e :: r1 =>
            let k := nat_of_ascii e in
            if (k =? 34)%nat then cons_unit 34%N (parse_string_body r1)
            else if (k =? 92)%nat then cons_unit 92%N (parse_string_body r1)
            else if (k =? 47)%nat then cons_unit 47%N (parse_string_body r1)
            else if (k =? 98)%nat then cons_unit 8%N (parse_string_body r1)
            else if (k =? 102)%nat then cons_unit 12%N (parse_string_body r1)
            else if (k =? 110)%nat then cons_unit 10%N (parse_string_body r1)
            else if (k =? 114)%nat then cons_unit 13%N (parse_string_body r1)
            else if (k =? 116)%nat then cons_unit 9%N (parse_string_body r1)
            else if (k =? 117)%nat
            then
              match r1 with
              | h1 :: h2 :: h3 :: h4 :: r2 =>
                  match hex_val h1, hex_val h2, hex_val h3, hex_val h4 with
                  | Some a, Some b, Some c', Some d =>
                      cons_unit
                        (N.of_nat (4096 * a + 256 * b + 16 * c' + d))
                        (parse_string_body r2)
                  | _, _, _, _ => None
                  end
              | _ => None
              end
            else None
        | [] => None
        end
      else if (n <? 32)%nat then None
      else cons_unit (N.of_nat n) (parse_string_body r)
  end.

(** [strip_prefix p s] is the rest of [s] after the literal [p]. *)
Fixpoint strip_prefix (p s : list ascii) : option (list ascii) :=
  match p, s with
  | [], _ => Some s
  | a :: p', b :: s' => if Ascii.eqb a b then strip_prefix p' s' else None
  | _ :: _, [] => None
  end.

(** Recursive descent.  Every call spends one unit of [fuel]; a text of
    [n] characters needs at most [2 * n + 1]. *)
Fixpoint parse_value (fuel : nat) (s : list ascii) {struct fuel}
  : option (Json * list ascii) :=
  match fuel with
  | O => None
  | S f =>
      match skip_ws s with
      | [] => None
      | c :: r =>
          if Ascii.eqb c "034"%char
          then match parse_string_body r with
               | Some (u, r') => Some (JString u, r')
               | None => None
               end
          else if Ascii.eqb c "["%char
          then match skip_ws r with
               | d :: r' =>
                   if Ascii.eqb d "]"%char then Some (JArray [], r')
                   else match parse_array_elements f r with
                        | Some (vs, r'') => Some (JArray vs, r'')
                        | None => None
                        end
               | [] => None
               end
          else if Ascii.eqb c "{"%char
          then match skip_ws r with
               | d :: r' =>
                   if Ascii.eqb d "}"%char then Some (JObject [], r')
                   else match parse_object_members f r with
                        | Some (ms, r'') => Some (JObject ms, r'')
                        | None => None
                        end
               | [] => None
               end
          else
            match strip_prefix (list_ascii_of_string "true") (c :: r) with
            | Some r' => Some (JBool true, r')
            | None =>
            match strip_prefix (list_ascii_of_string "false") (c :: r) with
            | Some r' => Some (JBool false, r')
            | None =>
            match strip_prefix (list_ascii_of_string "null") (c :: r) with
            | Some r' => Some (JNull, r')
            | None =>
            match parse_number (c :: r) with
            | Some (q, r') => Some (JNumber q, r')
            | None => None
            end end end end
      end
  end
with parse_array_elements (fuel : nat) (s : list ascii) {struct fuel}
  : option (list Json * list ascii) :=
  match fuel with
  | O => None
  | S f =>
      match parse_value f s with
      | Some (v, r) =>
          match skip_ws r with
          | c :: r' =>
              if Ascii.eqb c ","%char
              then match parse_array_elements f r' with
                   | Some (vs, r'') => Some (v :: vs, r'')
                   | None => None
                   end
              else if Ascii.eqb c "]"%char then Some ([v], r')
              else None
          | [] => None
          end
      | None => None
      end
  end
with parse_object_members (fuel : nat) (s : list ascii) {struct fuel}
  : option (list (list N * Json) * list ascii) :=
  match fuel with
  | O => None
  | S f =>
      match skip_ws s with
      | q :: r =>
          if Ascii.eqb q "034"%char
          then
            match parse_string_body r with
            | Some (k, r1) =>
                match skip_ws r1 with
                | c :: r2 =>
                    if Ascii.eqb c ":"%char
                    then
                      match parse_value f r2 with
                      | Some (v, r3) =>
                          match skip_ws r3 with
                          | e :: r4 =>
                              if Ascii.eqb e ","%char
                              then match parse_object_members f r4 with
                                   | Some (ms, r5) => Some ((k, v) :: ms, r5)
                                   | None => None
                                   end
                              else if Ascii.eqb e "}"%char
                                   then Some ([(k, v)], r4)
                                   else None
                          | [] => None
                          end
                      | None => None
                      end
                    else None
                | [] => None
                end
            | None => None
            end
          else None
      | [] => None
      end
  end.

Definition JSON_parse (text : string) : option Json :=
  let s := list_ascii_of_string text in
  match parse_value (2 * List.length s + 1) s with
  | Some (v, rest) => if all_ws rest then Some v else None
  | None => None
  end.

(** ** getTaskHistory *)

(** The [TaskTrace] of [src/types.ts].  [nodes] is whatever [JSON.parse]
    gave: the cast to [string[]] checks nothing. *)
Record TaskTrace := mkTaskTrace {
  tt_trace_id : Z;
  tt_query : option string;
  tt_nodes : Json;
  tt_polarity : Q;
  tt_session_id : option string;
  tt_created_at : option string
}.

(** [LIMIT n] for an integer [n]: a negative limit is no limit. *)
Definition sql_limit {A} (n : Z) (l : list A) : list A :=
  if (n <? 0)%Z then l else firstn (Z.to_nat n) l.

(** [ORDER BY trace_id DESC]. *)
Definition order_by_trace_id_desc (rows : list TaskTraceRow)
  : list TaskTraceRow :=
  stable_sort (fun a b => (trace_id b <? trace_id a)%Z) rows.

(** [JSON.parse(r.nodes_json ?? "[]")] inside the [try]; the [catch] gives
    the empty array. *)
Definition parse_nodes_json (nodes_json : option string) : Json :=
  match JSON_parse (match nodes_json with
                    | Some t => t
                    | None => "[]"
                    end) with
  | Some v => v
  | None => JArray []
  end.

Definition getTaskHistory (g : SQLiteGraph) (maxEntries : Z)
  : list TaskTrace :=
  map (fun r =>
         mkTaskTrace (trace_id r) (query r) (parse_nodes_json (nodes_json r))
           (polarity r) (session_id r) (created_at r))
    (sql_limit maxEntries (order_by_trace_id_desc (task_traces (db g)))).

Definition getTaskHistory_default_maxEntries : Z := 20.


(** The store has an edge of type [ty] from [src] to [tgt]. *)
Definition linked (d : Db) (ty : string) (src tgt : string) : Prop :=
  exists e, In e (edges d) /\ source_id e = src /\ target_id e = tgt
            /\ edge_type e = Some ty.

(** ** findSimilarNodes *)

(** White space in the sense of [String.prototype.trim]. *)
Definition js_is_white (c : ascii) : bool :=
  let n := nat_of_ascii c in
  ((9 <=? n)%nat && (n <=? 13)%nat) || (n =? 32)%nat || (n =? 160)%nat.

(** [!name.trim()]. *)
Definition trim_is_empty (s : string) : bool :=
  forallb js_is_white (list_ascii_of_string s).

(** The character class [[a-z0-9]]. *)
Definition is_alnum_char (c : ascii) : bool :=
  let n := nat_of_ascii c in
  ((97 <=? n)%nat && (n <=? 122)%nat) || ((48 <=? n)%nat && (n <=? 57)%nat).

(** [.replace(/[^a-z0-9]/g, " ")] on one character. *)
Definition blank_non_alnum (c : ascii) : ascii :=
  if is_alnum_char c then c else " "%char.

(** The word segments of a name: lower-case, blank every character outside
    [[a-z0-9]], split on blank runs, keep the pieces longer than one
    character. *)
Definition name_parts (nm : string) : list string :=
  filter (fun t => (1 <? String.length t)%nat)
    (split_blank_runs [] false
       (map blank_non_alnum (map lower_ascii (list_ascii_of_string nm)))).

(** [s.replace(/[\\%]/g, "\\$&")]: a backslash before every backslash and
    every percent sign. *)
Definition like_escape (s : string) : string :=
  string_of_list_ascii
    (flat_map (fun c => if Ascii.eqb c "\"%char || Ascii.eqb c "%"%char
                        then ["\"%char; c] else [c])
       (list_ascii_of_string s)).

(** [findSimilarNodes(name, limit)].  The statement has one [name LIKE ?]
    per segment, without an ESCAPE clause.  SQLite refuses a statement
    beyond its compile-time limits (number of conditions, length of a
    pattern); [statement_runs] says whether it accepts the one with the
    given patterns, and the [catch] turns a refusal into the empty list. *)
Definition findSimilarNodes (statement_runs : list string -> bool)
  (g : SQLiteGraph) (nm : string) (limit : Z) : list string :=
  if trim_is_empty nm then []
  else
    let parts := name_parts nm in
    let segments := match parts with [] => [nm] | _ => parts end in
    let likeParams :=
      map (fun s => ("%" ++ like_escape s ++ "%")%string) segments in
    if statement_runs likeParams
    then
      map name
        (sql_limit limit
           (order_by_pagerank_desc
              (filter (fun n => forallb (fun p => sql_like p (name n))
                                  likeParams)
                 (nodes (db g)))))
    else [].

Definition findSimilarNodes_default_limit : Z := 5.

(** [text] contains [p], letters compared without case. *)
Definition contains_ci (text p : string) : Prop :=
  exists pre mid post,
    list_ascii_of_string text = pre ++ mid ++ post
    /\ map lower_ascii mid = map lower_ascii (list_ascii_of_string p).

(** ** Metadata and getGraphSummary

    The table [graph_metadata(key PRIMARY KEY, value)] is not part of
    [Db]; the functions that read it take it as an argument, as a map from
    the key to the nullable value. *)

Definition GraphMetadata : Type := JsMap (option string).

(** [_getMeta]: [row?.value ?? null]. *)
Definition _getMeta (meta : GraphMetadata) (key : string) : option string :=
  match map_get key meta with
  | Some (Some v) => Some v
  | _ => None
  end.

(** [_setMeta]: [INSERT ... ON CONFLICT(key) DO UPDATE SET value]. *)
Definition _setMeta (meta : GraphMetadata) (key value : string)
  : GraphMetadata :=
  map_set key (Some value) meta.

Record GraphSummary := mkGraphSummary {
  node_count : Z;
  edge_count : Z;
  node_types : JsMap Z;
  edge_types : JsMap Z;
  top_hubs : list (string * Q);
  build_time : option string;
  rrlmgraph_version : option string;
  embed_method : option string;
  project_root : option string
}.

Definition sql_key_dec (a b : option string) : {a = b} + {a <> b}.
Proof. decide equality. apply string_dec. Defined.

(** The order of a nullable TEXT key: NULL first, then by the bytes. *)
Definition sql_key_ltb (a b : option string) : bool :=
  match a, b with
  | None, Some _ => true
  | Some x, Some y => String.ltb x y
  | _, _ => false
  end.

(** [SELECT k, COUNT( * ) AS c FROM t GROUP BY k]: one row per distinct key,
    NULL being a key like another; SQLite yields the groups in the order of
    the key. *)
Definition group_counts (keys : list (option string))
  : list (option string * Z) :=
  map (fun k => (k, Z.of_nat (count_occ sql_key_dec keys k)))
    (stable_sort sql_key_ltb (nodup sql_key_dec keys)).

(** [Object.fromEntries(rows.map((r) => [r.k ?? "unknown", r.c]))], kept
    as a map: a later entry of the same key replaces the earlier one.  The
    enumeration order of the object is not modelled. *)
Definition type_counts (keys : list (option string)) : JsMap Z :=
  map_of_entries
    (map (fun r => (match fst r with Some t => t | None => "unknown" end,
                    snd r))
       (group_counts keys)).

Definition getGraphSummary (g : SQLiteGraph) (meta : GraphMetadata)
  : GraphSummary :=
  mkGraphSummary
    (Z.of_nat (List.length (nodes (db g))))
    (Z.of_nat (List.length (edges (db g))))
    (type_counts (map node_type (nodes (db g))))
    (type_counts (map edge_type (edges (db g))))
    (map (fun r => (name r, match pagerank r with Some p => p | None => 0 end))
       (firstn 10 (order_by_pagerank_desc (nodes (db g)))))
    (_getMeta meta "build_time")
    (_getMeta meta "rrlmgraph_version")
    (_getMeta meta "embed_method")
    (_getMeta meta "project_root").

(** ** The resource [rrlmgraph://file/{path}] ([src/resources/file_nodes.ts]) *)

Definition file_uri_prefix : string := "rrlmgraph://file/".

(** A line terminator, which [.] does not match in a regular expression. *)
Definition is_line_terminator (c : ascii) : bool :=
  let n := nat_of_ascii c in (n =? 10)%nat || (n =? 13)%nat.

(** [uri.match(/^rrlmgraph:\/\/file\/(.+)$/)], then [match ? match[1] : ""]:
    the rest of the URI after the prefix, when it is not empty and holds no
    line terminator. *)
Definition file_path_of_uri (uri : string) : string :=
  match strip_prefix (list_ascii_of_string file_uri_prefix)
          (list_ascii_of_string uri) with
  | Some (c :: r) =>
      if forallb (fun x => negb (is_line_terminator x)) (c :: r)
      then string_of_list_ascii (c :: r)
      else EmptyString
  | _ => EmptyString
  end.

Definition file_node_lines (node : NodeInfo) : list string :=
  [("## `" ++ info_name node ++ "`")%string]
  ++ (if truthy (info_node_type node)
      then match info_node_type node with
           | Some t => [("**Type**: " ++ t)%string]
           | None => []
           end
      else [])
  ++ (if truthy (info_signature node)
      then match info_signature node with
           | Some s =>
               [("**Signature**:" ++ newline ++ "```r" ++ newline ++ s
                 ++ newline ++ "```")%string]
           | None => []
           end
      else [])
  ++ (if truthy (info_roxygen_text node)
      then match info_roxygen_text node with
           | Some d =>
               [("**Documentation**:" ++ newline ++ slice0 300 d)%string]
           | None => []
           end
      else [])
  ++ [EmptyString].

Definition file_nodes_text (filePath : string) (found : list NodeInfo)
  : string :=
  join newline
    ([("# Nodes in `" ++ filePath ++ "`")%string;
      EmptyString;
      ("**" ++ string_of_nat (List.length found) ++ " node"
       ++ (if (List.length found =? 1)%nat then EmptyString else "s")
       ++ " found.**")%string;
      EmptyString]
     ++ match found with
        | [] =>
            [("No nodes found for path `" ++ filePath ++ "`." ++ newline
              ++ "Check file paths via the `rrlmgraph://summary` resource.")
               %string]
        | _ => flat_map file_node_lines found
        end).

Record ResourceContents := mkResourceContents {
  contents_uri : string;
  contents_mimeType : string;
  contents_text : string
}.

(** [read(uri)] of the resource; an exception of [getFileNodes] rejects the
    promise. *)
Definition file_nodes_read (g : SQLiteGraph) (uri : string)
  : exn + list ResourceContents :=
  let filePath := file_path_of_uri uri in
  match getFileNodes g filePath with
  | inl e => inl e
  | inr found =>
      inr [mkResourceContents uri "text/markdown"
             (file_nodes_text filePath found)]
  end.

(** * Properties *)

(** ** Stable insertion sort *)

Section StableSort.
Context {A : Type} (before : A -> A -> bool).

Lemma insert_sorted_perm (x : A) (l : list A) :
  Permutation (insert_sorted before x l) (x :: l).
Proof.
  induction l as [|y r IH]; simpl.
  - apply Permutation_refl.
  - destruct (before y x).
    + eapply perm_trans; [apply perm_skip, IH | apply perm_swap].
    + apply Permutation_refl.
Qed.

Lemma stable_sort_perm (l : list A) : Permutation (stable_sort before l) l.
Proof.
  induction l as [|x r IH]; simpl.
  - apply perm_nil.
  - eapply perm_trans; [apply insert_sorted_perm | apply perm_skip, IH].
Qed.

Lemma stable_sort_length (l : list A) :
  List.length (stable_sort before l) = List.length l.
Proof. apply Permutation_length, stable_sort_perm. Qed.

Hypothesis before_asym : forall a b, before a b = true -> before b a = false.

Lemma insert_sorted_hd (x : A) (l : list A) :
  HdRel (fun a b => before b a = false) x l ->
  forall z, before z x = false ->
  HdRel (fun a b => before b a = false) x (insert_sorted before z l).
Proof.
  intros H z Hz. destruct l as [|y r]; simpl.
  - constructor. exact Hz.
  - destruct (before y z); constructor.
    + inversion H; assumption.
    + exact Hz.
Qed.

Lemma insert_sorted_sorted (x : A) (l : list A) :
  Sorted (fun a b => before b a = false) l ->
  Sorted (fun a b => before b a = false) (insert_sorted before x l).
Proof.
  induction l as [|y r IH]; simpl; intros Hs.
  - repeat constructor.
  - destruct (before y x) eqn:E.
    + inversion Hs as [|? ? Hr Hh]; subst. constructor.
      * apply IH, Hr.
      * apply insert_sorted_hd; [exact Hh | apply before_asym, E].
    + constructor; [exact Hs | constructor; exact E].
Qed.

Lemma stable_sort_sorted (l : list A) :
  Sorted (fun a b => before b a = false) (stable_sort before l).
Proof.
  induction l as [|x r IH]; simpl.
  - constructor.
  - apply insert_sorted_sorted, IH.
Qed.
End StableSort.

(** ** The token estimate *)

(** [estimateTokens] is the least integer not below a 3.5th of the length. *)
Lemma estimateTokens_ceiling (text : string) :
  let x := (inject_Z (Z.of_nat (String.length text)) / (7 # 2))%Q in
  (inject_Z (estimateTokens text - 1) < x)%Q
  /\ (x <= inject_Z (estimateTokens text))%Q.
Proof.
  intros x. unfold estimateTokens. fold x.
  split; [apply Qceiling_lt | apply Qle_ceiling].
Qed.

Example estimateTokens_values :
  estimateTokens EmptyString = 0%Z
  /\ estimateTokens "1234567" = 2%Z
  /\ estimateTokens "12345678" = 3%Z
  /\ estimateTokens "## first  <node>" = 5%Z.
Proof. repeat split; reflexivity. Qed.

Lemma estimateTokens_nonneg (text : string) : (0 <= estimateTokens text)%Z.
Proof.
  unfold estimateTokens.
  set (x := (inject_Z (Z.of_nat (String.length text)) / (7 # 2))%Q).
  assert (Hx : (0 <= x)%Q).
  { unfold x. apply Qle_shift_div_l; [reflexivity|].
    rewrite Qmult_0_l. rewrite <- (Zle_Qle 0). lia. }
  rewrite (Zle_Qle 0). eapply Qle_trans; [exact Hx | apply Qle_ceiling].
Qed.

(** ** The assembly loop *)

Lemma total_cost_snoc (d : Db) (l : list Scored) (x : Scored) :
  total_cost d (l ++ [x]) = (total_cost d l + cost d x)%Z.
Proof.
  unfold total_cost. induction l as [|y r IH]; simpl; [lia|].
  rewrite IH. lia.
Qed.

Lemma total_cost_cons (d : Db) (x : Scored) (l : list Scored) :
  total_cost d (x :: l) = (cost d x + total_cost d l)%Z.
Proof. reflexivity. Qed.

Lemma cost_pair (d : Db) (nd : NodeRow * nat) (sc : R) :
  cost d (nd, sc) = estimateTokens (_formatNodeContext d (fst nd)).
Proof. reflexivity. Qed.

(** The loop accepts a prefix of its input: the longest one whose running
    cost stays within the budget at every step. *)
Lemma assemble_prefix (d : Db) (B : Z) (l : list Scored) :
  forall chunks ids used,
  exists k : nat,
    (k <= List.length l)%nat
    /\ assemble d B l chunks ids used
       = (chunks ++ map (chunk_of d) (firstn k l),
          ids ++ map scored_id (firstn k l),
          (used + total_cost d (firstn k l))%Z)
    /\ (forall j, (1 <= j <= k)%nat ->
          (used + total_cost d (firstn j l) <= B)%Z)
    /\ ((k < List.length l)%nat ->
          (used + total_cost d (firstn (S k) l) > B)%Z).
Proof.
  induction l as [|x r IH]; intros chunks ids used.
  - exists O. simpl. rewrite !app_nil_r, Z.add_0_r.
    split; [lia|]. split; [reflexivity|].
    split; [intros j Hj; lia | intros H; lia].
  - destruct x as [nd sc].
    cbn [assemble]. rewrite <- (cost_pair d nd sc).
    destruct (used + cost d (nd, sc) >? B)%Z eqn:E.
    + exists O. cbn [firstn map total_cost fold_right].
      rewrite !app_nil_r, Z.add_0_r.
      split; [lia|]. split; [reflexivity|].
      split; [intros j Hj; lia|].
      intros _. apply Z.gtb_lt in E.
      change (total_cost d (firstn 0 r)) with 0%Z. lia.
    + assert (Hfit : (used + cost d (nd, sc) <= B)%Z).
      { destruct (Z.gtb_spec (used + cost d (nd, sc)) B);
          [discriminate | lia]. }
      destruct (IH (chunks ++ [_formatNodeContext d (fst nd)])
                   (ids ++ [node_id (fst nd)])
                   (used + cost d (nd, sc))%Z)
        as (k & Hk & Heq & Hle & Hgt).
      exists (S k). cbn [List.length].
      split; [lia|]. split.
      * rewrite firstn_cons. cbn [map].
        rewrite Heq, <- !app_assoc, total_cost_cons.
        cbn [app]. unfold chunk_of at 2, scored_id at 2. cbn [fst].
        f_equal. lia.
      * split.
        -- intros j Hj. destruct j as [|j]; [lia|].
           rewrite firstn_cons, total_cost_cons.
           destruct j as [|j].
           ++ change (total_cost d (firstn 0 r)) with 0%Z. lia.
           ++ specialize (Hle (S j) ltac:(lia)). lia.
        -- intros Hlt. specialize (Hgt ltac:(lia)).
           rewrite firstn_cons, total_cost_cons. lia.
Qed.

(** ** The shape of a [queryContext] result *)

Lemma queryContext_no_seed (g : SQLiteGraph) (query : string)
  (seedNodeName : option string) (B : Z) (maxDepth maxNodes : nat) :
  _findSeedNode (db g) query seedNodeName = None
  \/ _findSeedNode (db g) query seedNodeName = Some EmptyString ->
  queryContext g query seedNodeName B maxDepth maxNodes
  = mkContextResult ("# No graph data available." ++ newline)%string
      [] 0%Z None None.
Proof.
  intros [H|H]; unfold queryContext; rewrite H; reflexivity.
Qed.

Lemma queryContext_seeded (g : SQLiteGraph) (query : string)
  (seedNodeName : option string) (B : Z) (maxDepth maxNodes : nat)
  (seed : string) :
  _findSeedNode (db g) query seedNodeName = Some seed ->
  seed <> EmptyString ->
  let r := queryContext g query seedNodeName B maxDepth maxNodes in
  let sorted := scored_nodes g query (BFS_SQL (db g) seed maxDepth maxNodes) in
  let res := assemble (db g) B sorted [] [] 0%Z in
  node_ids r = snd (fst res)
  /\ token_estimate r = snd res
  /\ seed_node r = Some seed
  /\ retrieval_mode r = None.
Proof.
  intros H Hne. unfold queryContext. rewrite H.
  destruct seed as [|c s]; [congruence|].
  cbv zeta.
  destruct (assemble (db g) B
              (scored_nodes g query
                 (BFS_SQL (db g) (String c s) maxDepth maxNodes)) [] [] 0%Z)
    as [[chunks ids] used].
  repeat split.
Qed.

(** The candidates [queryContext] hands to the assembly loop: the scored
    and sorted traversal when a seed is found, nothing otherwise. *)
Lemma queryContext_prefix (g : SQLiteGraph) (query : string)
  (seedNodeName : option string) (B : Z) (maxDepth maxNodes : nat) :
  let r := queryContext g query seedNodeName B maxDepth maxNodes in
  let sorted :=
    match _findSeedNode (db g) query seedNodeName with
    | Some (String c s) =>
        scored_nodes g query (BFS_SQL (db g) (String c s) maxDepth maxNodes)
    | _ => []
    end in
  exists k : nat,
    (k <= List.length sorted)%nat
    /\ node_ids r = map scored_id (firstn k sorted)
    /\ token_estimate r = total_cost (db g) (firstn k sorted)
    /\ (forall j, (1 <= j <= k)%nat ->
          (total_cost (db g) (firstn j sorted) <= B)%Z)
    /\ ((k < List.length sorted)%nat ->
          (total_cost (db g) (firstn (S k) sorted) > B)%Z).
Proof.
  intros r sorted.
  destruct (_findSeedNode (db g) query seedNodeName) as [[|c s]|] eqn:E.
  - exists O. subst r sorted.
    rewrite (queryContext_no_seed g query seedNodeName B maxDepth maxNodes)
      by (right; exact E).
    simpl. repeat split; try lia.
  - destruct (queryContext_seeded g query seedNodeName B maxDepth maxNodes
                (String c s) E ltac:(discriminate)) as (Hi & Ht & _).
    destruct (assemble_prefix (db g) B sorted [] [] 0%Z)
      as (k & Hk & Heq & Hle & Hgt).
    exists k. subst r. fold sorted in Hi, Ht. rewrite Heq in Hi, Ht.
    simpl in Hi, Ht.
    split; [exact Hk|]. split; [exact Hi|]. split; [exact Ht|].
    split; [intros j Hj; specialize (Hle j Hj); lia|].
    intros Hlt. specialize (Hgt Hlt). lia.
  - exists O. subst r sorted.
    rewrite (queryContext_no_seed g query seedNodeName B maxDepth maxNodes)
      by (left; exact E).
    simpl. repeat split; try lia.
Qed.

Lemma total_cost_blocks (d : Db) (l : list Scored) :
  total_cost d l = blocks_cost d (map (fun s => fst (fst s)) l).
Proof.
  unfold total_cost, blocks_cost. rewrite map_map. reflexivity.
Qed.

(** C1.  Whatever the query, the seed name and the positive budget [B], the
    token estimate of the result of [queryContext] is at most [B]; that
    estimate is the sum of the estimated costs of the blocks of the
    accepted nodes, the nodes listed in [node_ids]. *)
Theorem queryContext_token_estimate_within_budget
  (g : SQLiteGraph) (query : string) (seedNodeName : option string)
  (B : Z) (maxDepth maxNodes : nat) :
  (0 < B)%Z ->
  let r := queryContext g query seedNodeName B maxDepth maxNodes in
  (token_estimate r <= B)%Z
  /\ exists accepted : list NodeRow,
       node_ids r = map node_id accepted
       /\ token_estimate r = blocks_cost (db g) accepted
       /\ (blocks_cost (db g) accepted <= B)%Z.
Proof.
  intros HB r.
  destruct (queryContext_prefix g query seedNodeName B maxDepth maxNodes)
    as (k & Hk & Hi & Ht & Hle & _).
  fold r in Hi, Ht.
  set (sorted := match _findSeedNode (db g) query seedNodeName with
                 | Some (String c s) =>
                     scored_nodes g query
                       (BFS_SQL (db g) (String c s) maxDepth maxNodes)
                 | _ => []
                 end) in *.
  assert (Hb : (total_cost (db g) (firstn k sorted) <= B)%Z).
  { destruct k as [|k].
    - simpl. unfold total_cost; simpl. lia.
    - apply Hle. lia. }
  split; [rewrite Ht; exact Hb|].
  exists (map (fun s => fst (fst s)) (firstn k sorted)).
  rewrite <- total_cost_blocks, map_map.
  split; [exact Hi|]. split; [exact Ht | exact Hb].
Qed.

Lemma queryContext_token_estimate_fixture :
  (token_estimate
     (queryContext fixture "export to sqlite" None 200 3 80) <= 200)%Z.
Proof.
  apply (queryContext_token_estimate_within_budget
           fixture "export to sqlite" None 200 3 80).
  reflexivity.
Defined.

(** ** Sorting by score *)

Lemma score_before_asym (a b : Scored) :
  score_before a b = true -> score_before b a = false.
Proof.
  unfold score_before.
  destruct (Rlt_dec (snd b) (snd a)) as [H|H]; [|discriminate].
  intros _. destruct (Rlt_dec (snd a) (snd b)) as [H'|H']; [|reflexivity].
  exfalso. exact (Rlt_asym _ _ H H').
Qed.

Lemma scored_nodes_descending (g : SQLiteGraph) (query : string)
  (l : list (NodeRow * nat)) :
  StronglySorted (fun a b : Scored => (snd b <= snd a)%R)
    (scored_nodes g query l).
Proof.
  apply Sorted_StronglySorted.
  - intros a b c Hab Hbc. eapply Rle_trans; eassumption.
  - unfold scored_nodes.
    eapply Sorted_ind with
      (P := fun l => Sorted (fun a b : Scored => (snd b <= snd a)%R) l);
      [constructor | | apply (stable_sort_sorted score_before),
                         score_before_asym].
    intros a l0 Hs IH Hh. constructor; [exact IH|].
    destruct Hh as [|b l1 Hb]; constructor.
    unfold score_before in Hb.
    destruct (Rlt_dec (snd a) (snd b)) as [H|H]; [discriminate|].
    apply Rnot_lt_le, H.
Qed.

Lemma scored_nodes_perm (g : SQLiteGraph) (query : string)
  (l : list (NodeRow * nat)) :
  Permutation (map fst (scored_nodes g query l)) l.
Proof.
  unfold scored_nodes.
  eapply perm_trans.
  - apply Permutation_map, stable_sort_perm.
  - rewrite map_map. simpl. rewrite map_id. apply Permutation_refl.
Qed.

(** C9.  The accepted nodes are a prefix of the candidates sorted by
    descending score: the loop takes candidates while the running cost
    stays within the budget and stops for good at the first one that does
    not fit, whatever the cost of those behind it. *)
Theorem accepted_nodes_form_prefix
  (g : SQLiteGraph) (query : string) (seedNodeName : option string)
  (B : Z) (maxDepth maxNodes : nat) :
  let r := queryContext g query seedNodeName B maxDepth maxNodes in
  let candidates :=
    match _findSeedNode (db g) query seedNodeName with
    | Some (String c s) => BFS_SQL (db g) (String c s) maxDepth maxNodes
    | _ => []
    end in
  let sorted := scored_nodes g query candidates in
  Permutation (map fst sorted) candidates
  /\ StronglySorted (fun a b : Scored => (snd b <= snd a)%R) sorted
  /\ exists k : nat,
       (k <= List.length sorted)%nat
       /\ node_ids r = map scored_id (firstn k sorted)
       /\ (forall j, (1 <= j <= k)%nat ->
             (total_cost (db g) (firstn j sorted) <= B)%Z)
       /\ List.length (node_ids r) = k
       /\ ((k < List.length sorted)%nat ->
             (total_cost (db g) (firstn (S k) sorted) > B)%Z).
Proof.
  intros r candidates sorted.
  split; [apply scored_nodes_perm|].
  split; [apply scored_nodes_descending|].
  destruct (queryContext_prefix g query seedNodeName B maxDepth maxNodes)
    as (k & Hk & Hi & _ & Hle & Hgt).
  fold r in Hi.
  assert (Hs : match _findSeedNode (db g) query seedNodeName with
               | Some (String c s) =>
                   scored_nodes g query
                     (BFS_SQL (db g) (String c s) maxDepth maxNodes)
               | _ => []
               end = sorted).
  { subst sorted candidates.
    destruct (_findSeedNode (db g) query seedNodeName) as [[|c s]|];
      reflexivity. }
  rewrite Hs in *.
  exists k. split; [exact Hk|]. split; [exact Hi|]. split; [exact Hle|].
  split; [|exact Hgt].
  rewrite Hi, length_map, length_firstn. lia.
Qed.

(** The loop on three candidates of costs 5, 18 and 5 with budget 12: the
    second does not fit, and the third is not taken although the first and
    the third together cost 10. *)
Example assemble_stops_at_first_rejection :
  let l : list Scored :=
    [ ((plain_node "n1" "first" None, 0%nat), 3%R);
      ((mkNodeRow "n2" "second" None None None
          (Some "function(x) { very_long_body(x) }")
          None None None None None None None, 1%nat), 2%R);
      ((plain_node "n3" "third" None, 1%nat), 1%R) ] in
  map (cost cycle_db) l = [5; 18; 5]%Z
  /\ snd (fst (assemble cycle_db 12 l [] [] 0%Z)) = ["n1"]
  /\ snd (assemble cycle_db 12 l [] [] 0%Z) = 5%Z.
Proof. cbv zeta. repeat split; reflexivity. Qed.

(** ** The order of SQLite on nullable numbers *)

Lemma Qltb_true (x y : Q) : Qltb x y = true <-> (x < y)%Q.
Proof.
  unfold Qltb. rewrite negb_true_iff. split; intros H.
  - apply Qnot_le_lt. intros Hle. apply Qle_bool_iff in Hle. congruence.
  - destruct (Qle_bool y x) eqn:E; [|reflexivity].
    apply Qle_bool_iff in E. exfalso. exact (Qlt_not_le _ _ H E).
Qed.

Lemma Qltb_false (x y : Q) : Qltb x y = false <-> (y <= x)%Q.
Proof.
  unfold Qltb. rewrite negb_false_iff. apply Qle_bool_iff.
Qed.

Lemma sql_gtb_asym (a b : option Q) :
  sql_gtb a b = true -> sql_gtb b a = false.
Proof.
  destruct a as [x|], b as [y|]; simpl; try discriminate; try reflexivity.
  intros H. apply Qltb_true in H. apply Qltb_false. apply Qlt_le_weak, H.
Qed.

Lemma sql_gtb_false (a b : option Q) :
  sql_gtb b a = false -> pagerank_ge a b.
Proof.
  destruct a as [x|], b as [y|]; simpl; try discriminate; try exact (fun _ => I).
  intros H. apply Qltb_false, H.
Qed.

Lemma pagerank_ge_trans (a b c : option Q) :
  pagerank_ge a b -> pagerank_ge b c -> pagerank_ge a c.
Proof.
  destruct a as [x|], b as [y|], c as [z|]; simpl; try tauto.
  intros H1 H2. eapply Qle_trans; eassumption.
Qed.

Lemma order_by_pagerank_desc_sorted (l : list NodeRow) :
  StronglySorted (fun a b => pagerank_ge (pagerank a) (pagerank b))
    (order_by_pagerank_desc l).
Proof.
  apply Sorted_StronglySorted.
  - intros a b c. apply pagerank_ge_trans.
  - unfold order_by_pagerank_desc.
    eapply Sorted_ind with
      (P := fun l => Sorted (fun a b => pagerank_ge (pagerank a) (pagerank b))
                       l);
      [constructor | | apply (stable_sort_sorted
                                (fun a b => sql_gtb (pagerank a) (pagerank b)));
                         intros a b; apply sql_gtb_asym].
    intros a l0 Hs IH Hh. constructor; [exact IH|].
    destruct Hh as [|b l1 Hb]; constructor. apply sql_gtb_false, Hb.
Qed.

(** ** Seed discovery *)

Lemma order_by_pagerank_desc_nil (l : list NodeRow) :
  order_by_pagerank_desc l = [] <-> l = [].
Proof.
  unfold order_by_pagerank_desc. split; intros H.
  - apply length_zero_iff_nil. rewrite <- (stable_sort_length
      (fun a b => sql_gtb (pagerank a) (pagerank b)) l), H. reflexivity.
  - subst l. reflexivity.
Qed.

Lemma fts_first_hit_empty (d : Db) (ftsQuery : string) :
  nodes d = [] -> fts_first_hit d ftsQuery = None.
Proof.
  intros Hn. unfold fts_first_hit. rewrite Hn.
  destruct (nodes_fts d ftsQuery) as [|rowids]; [reflexivity|].
  assert (E : flat_map (fun rid => match nth_error (@nil NodeRow) rid with
                                   | Some n => [n]
                                   | None => []
                                   end) rowids = []).
  { induction rowids as [|rid r IH]; [reflexivity|].
    simpl. destruct rid; simpl; exact IH. }
  rewrite E. reflexivity.
Qed.

Lemma truthy_Some (o : option string) :
  truthy o = true -> exists c s, o = Some (String c s).
Proof.
  destruct o as [[|c s]|]; simpl; try discriminate. intros _. eauto.
Qed.

Lemma firstn_In {A} (k : nat) (l : list A) (x : A) :
  In x (firstn k l) -> In x l.
Proof.
  intros H. rewrite <- (firstn_skipn k l). apply in_or_app. left. exact H.
Qed.

Lemma overlap_best_In (tokens : list string) (rows : list NodeRow) :
  forall (best : Q * option string) (id : string),
    snd (fold_left (overlap_step tokens) rows best) = Some id ->
    snd best = Some id \/ In id (map node_id rows).
Proof.
  induction rows as [|row r IH]; intros best id H; simpl in *; [left; exact H|].
  apply IH in H. destruct H as [H|H]; [|right; right; exact H].
  unfold overlap_step in H.
  destruct (Qltb (fst best) _) in H; [|left; exact H].
  simpl in H. injection H as H. right. left. exact H.
Qed.

Lemma findSeedNode_names_a_node (d : Db) (query : string)
  (seedNodeName : option string) (id : string) :
  _findSeedNode d query seedNodeName = Some id ->
  exists n, In n (nodes d) /\ node_id n = id.
Proof.
  unfold _findSeedNode.
  destruct (if truthy seedNodeName
            then match seedNodeName with
                 | Some s => find (fun n => String.eqb (name n) s) (nodes d)
                 | None => None
                 end
            else None) as [row|] eqn:Hn.
  { intros H. injection H as <-. exists row. split; [|reflexivity].
    destruct (truthy seedNodeName); [|discriminate].
    destruct seedNodeName as [s|]; [|discriminate].
    apply find_some in Hn. tauto. }
  destruct (if truthy (Some (join " OR " (firstn 10 (tokenize query))))
            then fts_first_hit d (join " OR " (firstn 10 (tokenize query)))
            else None) as [hit|] eqn:Hf.
  { intros H. injection H as <-.
    destruct (truthy (Some (join " OR " (firstn 10 (tokenize query)))));
      [|discriminate].
    unfold fts_first_hit in Hf.
    destruct (nodes_fts d _) as [|rowids]; [discriminate|].
    destruct (flat_map _ rowids) as [|n l] eqn:E; [discriminate|].
    injection Hf as <-. exists n. split; [|reflexivity].
    assert (Hin : In n (n :: l)) by (left; reflexivity).
    rewrite <- E in Hin. apply in_flat_map in Hin.
    destruct Hin as (rid & _ & Hin).
    destruct (nth_error (nodes d) rid) as [m|] eqn:Em; [|destruct Hin].
    destruct Hin as [<- | []]. eapply nth_error_In, Em. }
  assert (Hperm : forall n, In n (order_by_pagerank_desc (nodes d)) ->
                            In n (nodes d)).
  { intros n. apply Permutation_in, stable_sort_perm. }
  destruct (truthy (snd (fold_left (overlap_step (tokenize query))
                           (firstn 200 (order_by_pagerank_desc (nodes d)))
                           (0%Q, None)))) eqn:T.
  - intros H. apply overlap_best_In in H. destruct H as [H|H]; [discriminate|].
    apply in_map_iff in H. destruct H as (n & Hid & Hin).
    exists n. split; [|exact Hid]. apply Hperm. eapply firstn_In, Hin.
  - destruct (order_by_pagerank_desc (nodes d)) as [|top rest] eqn:E;
      [discriminate|].
    intros H. injection H as <-. exists top. split; [|reflexivity].
    apply Hperm. left. reflexivity.
Qed.

Lemma findSeedNode_none_iff (d : Db) (query : string)
  (seedNodeName : option string) :
  _findSeedNode d query seedNodeName = None <-> nodes d = [].
Proof.
  unfold _findSeedNode. split.
  - intros H.
    destruct (if truthy seedNodeName
              then match seedNodeName with
                   | Some s => find (fun n => String.eqb (name n) s) (nodes d)
                   | None => None
                   end
              else None); [discriminate|].
    destruct (if truthy (Some (join " OR " (firstn 10 (tokenize query))))
              then fts_first_hit d (join " OR " (firstn 10 (tokenize query)))
              else None); [discriminate|].
    destruct (truthy (snd (fold_left (overlap_step (tokenize query))
                             (firstn 200 (order_by_pagerank_desc (nodes d)))
                             (0%Q, None)))) eqn:T.
    + apply truthy_Some in T. destruct T as (c & s & T).
      rewrite T in H. discriminate.
    + destruct (order_by_pagerank_desc (nodes d)) eqn:E; [|discriminate].
      apply order_by_pagerank_desc_nil, E.
  - intros Hn. rewrite (fts_first_hit_empty d _ Hn), Hn.
    assert (E : (if truthy seedNodeName
                 then match seedNodeName with
                      | Some s =>
                          find (fun n => String.eqb (name n) s) (@nil NodeRow)
                      | None => None
                      end
                 else None) = None).
    { destruct seedNodeName as [s|]; simpl; [|reflexivity].
      destruct s; reflexivity. }
    rewrite E.
    destruct (truthy (Some (join " OR " (firstn 10 (tokenize query)))));
      reflexivity.
Qed.

(** The last tier: without a match by name, by full text or by overlap,
    the seed is the first row by descending centrality, and no stored node
    ranks above it. *)
Lemma findSeedNode_last_tier (d : Db) (query : string)
  (seedNodeName : option string) :
  (forall s, seedNodeName = Some s ->
             find (fun n => String.eqb (name n) s) (nodes d) = None) ->
  fts_first_hit d (join " OR " (firstn 10 (tokenize query))) = None ->
  snd (fold_left (overlap_step (tokenize query))
         (firstn 200 (order_by_pagerank_desc (nodes d))) (0%Q, None))
  = None ->
  nodes d <> [] ->
  exists top,
    _findSeedNode d query seedNodeName = Some (node_id top)
    /\ In top (nodes d)
    /\ forall n, In n (nodes d) -> pagerank_ge (pagerank top) (pagerank n).
Proof.
  intros Hname Hfts Hbest Hne.
  pose proof (order_by_pagerank_desc_sorted (nodes d)) as Hs.
  assert (Hperm : Permutation (order_by_pagerank_desc (nodes d)) (nodes d))
    by apply stable_sort_perm.
  destruct (order_by_pagerank_desc (nodes d)) as [|top rest] eqn:E.
  { exfalso. apply Hne, order_by_pagerank_desc_nil, E. }
  exists top. split; [|split].
  - unfold _findSeedNode.
    assert (X : (if truthy seedNodeName
                 then match seedNodeName with
                      | Some s =>
                          find (fun n => String.eqb (name n) s) (nodes d)
                      | None => None
                      end
                 else None) = None).
    { destruct seedNodeName as [s|]; [|reflexivity].
      rewrite (Hname s eq_refl). destruct (truthy (Some s)); reflexivity. }
    rewrite X, Hfts, E.
    destruct (truthy (Some (join " OR " (firstn 10 (tokenize query)))));
      rewrite Hbest; reflexivity.
  - apply (Permutation_in _ Hperm). left. reflexivity.
  - intros n Hn.
    apply (Permutation_in _ (Permutation_sym Hperm)) in Hn.
    destruct Hn as [<- | Hn].
    + destruct (pagerank top) as [x|]; simpl; [apply Qle_refl | exact I].
    + inversion Hs as [|? ? _ Hall]; subst.
      rewrite Forall_forall in Hall. apply Hall, Hn.
Qed.

(** C5.  Seed resolution is a total function: no query, empty or
    unmatched, and no seed name makes it fail (a failing full-text search
    is caught and the next tier is tried).  It answers with no seed exactly
    when the nodes table is empty; otherwise it answers with the identifier
    of a stored node, in the last resort the first row by descending
    centrality. *)
Theorem findSeedNode_null_iff_no_nodes
  (d : Db) (query : string) (seedNodeName : option string) :
  (_findSeedNode d query seedNodeName = None <-> nodes d = [])
  /\ (forall id, _findSeedNode d query seedNodeName = Some id ->
                 exists n, In n (nodes d) /\ node_id n = id)
  /\ (nodes d <> [] ->
      exists id n, _findSeedNode d query seedNodeName = Some id
                   /\ In n (nodes d) /\ node_id n = id).
Proof.
  split; [apply findSeedNode_none_iff|].
  split; [intros id; apply findSeedNode_names_a_node|].
  intros Hne.
  destruct (_findSeedNode d query seedNodeName) as [id|] eqn:E.
  - destruct (findSeedNode_names_a_node d query seedNodeName id E)
      as (n & Hn & Hid).
    exists id, n. auto.
  - exfalso. apply Hne, (findSeedNode_none_iff d query seedNodeName), E.
Qed.

(** When the table is not empty and nothing else matches, the answer is the
    node with the highest centrality. *)
Lemma findSeedNode_last_resort :
  _findSeedNode cycle_db "zzz" (Some "nonexistent_function_xyz") = Some "A"
  /\ _findSeedNode cycle_db EmptyString None = Some "A"
  /\ _findSeedNode fixture_db "do something" (Some "zzz_nonexistent_zzz")
     = Some "build_rrlm_graph".
Proof. repeat split; vm_compute; reflexivity. Qed.

(** ** The recursive table of the traversal *)

Lemma targets_spec (es : list EdgeRow) (u v : string) :
  In v (targets es u) <-> exists e, In e es /\ source_id e = u /\ target_id e = v.
Proof.
  unfold targets. rewrite in_map_iff. split.
  - intros (e & Ht & Hf). apply filter_In in Hf. destruct Hf as [Hin Hs].
    apply String.eqb_eq in Hs. eauto.
  - intros (e & Hin & Hs & Ht). exists e. split; [exact Ht|].
    apply filter_In. split; [exact Hin | apply String.eqb_eq, Hs].
Qed.

(** The rows of depth [d + j] are the ends of the walks of [j] edges that
    start in the frontier, for every [j] up to the remaining depth. *)
Lemma bfs_levels_spec (es : list EdgeRow) :
  forall (r : nat) (frontier : list string) (d : nat) (v : string) (k : nat),
    In (v, k) (bfs_levels es frontier d r)
    <-> exists j u, k = (d + j)%nat /\ (j <= r)%nat /\ In u frontier
                    /\ walk es u j v.
Proof.
  induction r as [|r IH]; intros frontier d v k.
  - simpl. rewrite app_nil_r, in_map_iff. split.
    + intros (u & Heq & Hin). inversion Heq; subst.
      exists O, v. repeat split; [lia | lia | exact Hin | constructor].
    + intros (j & u & Hk & Hj & Hin & Hw).
      assert (j = O) by lia. subst j. inversion Hw; subst.
      exists v. split; [f_equal; lia | exact Hin].
  - simpl. rewrite in_app_iff, in_map_iff, IH. split.
    + intros [(u & Heq & Hin) | (j & u' & Hk & Hj & Hin & Hw)].
      * inversion Heq; subst.
        exists O, v. repeat split; [lia | lia | exact Hin | constructor].
      * apply nodup_In, in_flat_map in Hin. destruct Hin as (u & Hu & Ht).
        apply targets_spec in Ht. destruct Ht as (e & He & Hs & Ht).
        exists (S j), u. repeat split; [lia | lia | exact Hu |].
        eapply walk_step; [exact He | exact Hs | rewrite Ht; exact Hw].
    + intros (j & u & Hk & Hj & Hin & Hw).
      inversion Hw as [? | ? e j' ? He Hs Hw']; subst.
      * left. exists v. split; [f_equal; lia | exact Hin].
      * right. exists j', (target_id e).
        repeat split; [lia | lia | | exact Hw'].
        apply nodup_In, in_flat_map. exists (source_id e).
        split; [exact Hin|]. apply targets_spec. eauto.
Qed.

Lemma bfs_cte_spec (es : list EdgeRow) (seed : string) (maxDepth : nat)
  (v : string) (k : nat) :
  In (v, k) (bfs_cte es seed maxDepth)
  <-> (k <= maxDepth)%nat /\ walk es seed k v.
Proof.
  unfold bfs_cte. rewrite bfs_levels_spec. split.
  - intros (j & u & Hk & Hj & [Hu | []] & Hw). subst. simpl. auto.
  - intros [Hk Hw]. exists k, seed. simpl. auto.
Qed.

(** ** SQLite's evaluation of the recursive table *)

Lemma walk_zero (es : list EdgeRow) (u v : string) : walk es u O v -> u = v.
Proof. intros H. inversion H. reflexivity. Qed.

Lemma row_eqb_eq (a b : Row) : row_eqb a b = true <-> a = b.
Proof.
  destruct a as [u j], b as [v k]. unfold row_eqb. simpl.
  rewrite andb_true_iff, String.eqb_eq, Nat.eqb_eq.
  split; [intros [-> ->]; reflexivity | intros H; inversion H; auto].
Qed.

Lemma existsb_row_eqb (p : Row) (l : list Row) :
  existsb (row_eqb p) l = true <-> In p l.
Proof.
  rewrite existsb_exists. split.
  - intros (x & Hx & He). apply row_eqb_eq in He. subst x. exact Hx.
  - intros H. exists p. split; [exact H | apply row_eqb_eq; reflexivity].
Qed.

Lemma fresh_rows_spec (produced : list Row) :
  forall seen,
    NoDup (fresh_rows produced seen)
    /\ forall x, In x (fresh_rows produced seen)
                 <-> In x produced /\ ~ In x seen.
Proof.
  induction produced as [|p ps IH]; intros seen; simpl.
  - split; [constructor | intros x; tauto].
  - destruct (existsb (row_eqb p) seen) eqn:E.
    + apply existsb_row_eqb in E. destruct (IH seen) as [Hnd Hin].
      split; [exact Hnd|]. intros x. rewrite Hin. split.
      * tauto.
      * intros [[<- | Hx] Hn]; [contradiction | tauto].
    + assert (Hp : ~ In p seen).
      { intros H. apply existsb_row_eqb in H. congruence. }
      destruct (IH (p :: seen)) as [Hnd Hin]. split.
      * constructor; [|exact Hnd]. rewrite Hin. simpl. tauto.
      * intros x. simpl. rewrite Hin. simpl. split.
        -- intros [<- | [Hx Hn]]; [tauto | tauto].
        -- intros [[<- | Hx] Hn]; [tauto|].
           destruct (row_eqb p x) eqn:Ex.
           ++ apply row_eqb_eq in Ex. tauto.
           ++ right. split; [exact Hx|]. intros [H | H]; [|tauto].
              subst x. rewrite (proj2 (row_eqb_eq p p) eq_refl) in Ex.
              discriminate.
Qed.

Lemma walk_snoc (es : list EdgeRow) (u w : string) (k : nat) (e : EdgeRow) :
  walk es u k w -> In e es -> source_id e = w ->
  walk es u (S k) (target_id e).
Proof.
  intros Hw He Hs. induction Hw as [u | u e0 k v He0 Hs0 Hw IH].
  - eapply walk_step; [exact He | exact Hs | constructor].
  - eapply walk_step; [exact He0 | exact Hs0 | apply IH, Hs].
Qed.

Lemma walk_last (es : list EdgeRow) (k : nat) :
  forall u v, walk es u (S k) v ->
  exists w e, walk es u k w /\ In e es /\ source_id e = w /\ target_id e = v.
Proof.
  induction k as [|k IH]; intros u v H;
    inversion H as [| ? e0 ? ? He0 Hs0 Hw]; subst.
  - inversion Hw; subst. exists (source_id e0), e0.
    repeat split; [constructor | exact He0].
  - destruct (IH _ _ Hw) as (w & e & Hw' & He & Hs & Ht).
    exists w, e. repeat split; try assumption.
    eapply walk_step; [exact He0 | reflexivity | exact Hw'].
Qed.

Lemma recursive_select_In (es : list EdgeRow) (maxDepth : nat) (r x : Row) :
  In x (recursive_select es maxDepth r)
  <-> (snd r < maxDepth)%nat /\ snd x = S (snd r)
      /\ exists e, In e es /\ source_id e = fst r /\ target_id e = fst x.
Proof.
  unfold recursive_select.
  destruct (Nat.ltb_spec (snd r) maxDepth) as [L|L].
  - rewrite in_map_iff. split.
    + intros (t & <- & Ht). apply targets_spec in Ht. simpl. auto.
    + intros (_ & Hk & e & He & Hs & Ht). exists (fst x). split.
      * destruct x as [v k]. simpl in *. congruence.
      * apply targets_spec. eauto.
  - split; [intros [] | intros [H _]; lia].
Qed.

Lemma cte_universe_In (es : list EdgeRow) (seed : string) (maxDepth : nat)
  (v : string) (k : nat) :
  (k <= maxDepth)%nat -> walk es seed k v ->
  In (v, k) (cte_universe es seed maxDepth).
Proof.
  intros Hk Hw. unfold cte_universe. destruct k as [|k].
  - left. f_equal. eapply walk_zero, Hw.
  - right. apply walk_last in Hw. destruct Hw as (w & e & _ & He & _ & Ht).
    apply in_flat_map. exists e. split; [exact He|].
    apply in_map_iff. exists (S k). split; [congruence|].
    apply in_seq. lia.
Qed.

Section QueueEvaluation.
Variables (es : list EdgeRow) (seed : string) (maxDepth : nat).

Lemma cte_inv_closed (seen out : list Row) :
  cte_inv es seed maxDepth [] seen out ->
  forall k v, (k <= maxDepth)%nat -> walk es seed k v -> In (v, k) out.
Proof.
  intros (Hs & _ & _ & Hc & H0).
  assert (Hso : forall x, In x seen -> In x out).
  { intros x Hx. apply Hs in Hx. destruct Hx as [Hx | []]. exact Hx. }
  induction k as [|k IH]; intros v Hk Hw.
  - apply walk_zero in Hw. subst v. apply Hso, H0.
  - apply walk_last in Hw. destruct Hw as (w & e & Hw & He & Hsw & Ht).
    apply Hso. apply (Hc (w, k)); [apply IH; [lia | exact Hw]|].
    apply recursive_select_In. simpl.
    split; [lia|]. split; [reflexivity|]. eauto.
Qed.

Lemma cte_inv_step (r : Row) (q seen out : list Row) :
  cte_inv es seed maxDepth (r :: q) seen out ->
  cte_inv es seed maxDepth (q ++ fresh_rows (recursive_select es maxDepth r) seen)
    (fresh_rows (recursive_select es maxDepth r) seen ++ seen) (r :: out).
Proof.
  intros (Hs & Hnd & Hv & Hc & H0).
  destruct (fresh_rows_spec (recursive_select es maxDepth r) seen)
    as [Hfnd Hf].
  set (fresh := fresh_rows (recursive_select es maxDepth r) seen) in *.
  assert (Hr : In r seen) by (apply Hs; right; left; reflexivity).
  repeat split.
  - intros Hx. apply in_app_iff in Hx. destruct Hx as [Hx | Hx].
    + right. apply in_app_iff. right. exact Hx.
    + apply Hs in Hx. destruct Hx as [Hx | [<- | Hx]].
      * left. right. exact Hx.
      * left. left. reflexivity.
      * right. apply in_app_iff. left. exact Hx.
  - intros [[<- | Hx] | Hx]; apply in_app_iff.
    + right. exact Hr.
    + right. apply Hs. left. exact Hx.
    + apply in_app_iff in Hx. destruct Hx as [Hx | Hx].
      * right. apply Hs. right. right. exact Hx.
      * left. exact Hx.
  - rewrite app_assoc. apply NoDup_app.
    + eapply Permutation_NoDup; [|exact Hnd].
      apply Permutation_sym.
      change ((r :: out) ++ q) with (r :: out ++ q).
      apply Permutation_middle.
    + exact Hfnd.
    + intros x Hx Hfx. apply Hf in Hfx. destruct Hfx as [_ Hn]. apply Hn.
      apply Hs. simpl in Hx. rewrite in_app_iff in Hx. simpl.
      destruct Hx as [<- | [Hx | Hx]]; auto.
  - apply in_app_iff in H. destruct H as [H | H]; [|apply Hv, H].
    apply Hf in H. destruct H as [H _].
    apply recursive_select_In in H. destruct H as (L & Hk & _). lia.
  - apply in_app_iff in H. destruct H as [H | H]; [|apply Hv, H].
    apply Hf in H. destruct H as [H _].
    apply recursive_select_In in H.
    destruct H as (L & Hk & e & He & Hse & Ht).
    rewrite Hk, <- Ht. eapply walk_snoc; [apply Hv, Hr | exact He | exact Hse].
  - intros r0 x [<- | Hr0] Hx; apply in_app_iff.
    + destruct (existsb (row_eqb x) seen) eqn:E.
      * right. apply existsb_row_eqb, E.
      * left. apply Hf. split; [exact Hx|].
        intros H. apply existsb_row_eqb in H. congruence.
    + right. eapply Hc; eassumption.
  - apply in_app_iff. right. exact H0.
Qed.

Lemma cte_inv_bound (queue seen out : list Row) :
  cte_inv es seed maxDepth queue seen out ->
  (List.length out + List.length queue
   <= List.length (cte_universe es seed maxDepth))%nat.
Proof.
  intros (Hs & Hnd & Hv & _ & _). rewrite <- length_app.
  apply NoDup_incl_length; [exact Hnd|].
  intros [v k] Hx. apply cte_universe_In.
  - apply (Hv (v, k)), Hs, in_app_iff, Hx.
  - apply (Hv (v, k)), Hs, in_app_iff, Hx.
Qed.

Lemma cte_run_terminates (fuel : nat) :
  forall queue seen out,
    cte_inv es seed maxDepth queue seen out ->
    (List.length (cte_universe es seed maxDepth)
     < fuel + List.length out)%nat ->
    exists rows,
      cte_run fuel es maxDepth queue seen out = Some rows
      /\ forall v k, In (v, k) rows
                     <-> (k <= maxDepth)%nat /\ walk es seed k v.
Proof.
  induction fuel as [|f IH]; intros queue seen out Hinv Hfuel.
  - pose proof (cte_inv_bound _ _ _ Hinv) as Hb.
    destruct queue as [|r q]; [|simpl in Hb, Hfuel; lia].
    exists (rev out). split; [reflexivity|].
    intros v k. rewrite <- in_rev. split.
    + intros Hx. destruct Hinv as (Hs & _ & Hv & _).
      apply (Hv (v, k)), Hs. left. exact Hx.
    + intros [Hk Hw]. eapply cte_inv_closed; eassumption.
  - destruct queue as [|r q].
    + exists (rev out). split; [reflexivity|].
      intros v k. rewrite <- in_rev. split.
      * intros Hx. destruct Hinv as (Hs & _ & Hv & _).
        apply (Hv (v, k)), Hs. left. exact Hx.
      * intros [Hk Hw]. eapply cte_inv_closed; eassumption.
    + simpl. apply IH; [apply cte_inv_step, Hinv | simpl in *; lia].
Qed.

(** The queue evaluation ends within one step per possible row, and its
    table holds the rows of [bfs_cte]. *)
Lemma cte_eval_terminates :
  exists rows,
    cte_eval (S (List.length (cte_universe es seed maxDepth))) es seed
      maxDepth = Some rows
    /\ forall v k, In (v, k) rows <-> In (v, k) (bfs_cte es seed maxDepth).
Proof.
  destruct (cte_run_terminates
              (S (List.length (cte_universe es seed maxDepth)))
              [(seed, O)] [(seed, O)] []) as (rows & Hrun & Hrows).
  - split.
    { intros x. split; [intros [<- | []]; right; left; reflexivity|].
      intros [[] | H]; exact H. }
    split; [repeat constructor; intros []|].
    split; [intros x [<- | []]; simpl; split; [lia | constructor]|].
    split; [intros r x []|]. left. reflexivity.
  - simpl. lia.
  - exists rows. split; [exact Hrun|].
    intros v k. rewrite Hrows, bfs_cte_spec. reflexivity.
Qed.
End QueueEvaluation.

(** ** Grouping by node with the minimum depth *)

Lemma fold_min_spec (ds : list nat) (d : nat) :
  In (fold_left Nat.min ds d) (d :: ds)
  /\ forall x, In x (d :: ds) -> (fold_left Nat.min ds d <= x)%nat.
Proof.
  revert d. induction ds as [|y r IH]; intros d; simpl.
  - split; [auto|]. intros x [<- | []]. lia.
  - destruct (IH (Nat.min d y)) as [Hin Hle]. split.
    + destruct Hin as [Hm | Hin]; [|auto].
      rewrite <- Hm. destruct (Nat.min_dec d y) as [E|E]; rewrite E; auto.
    + intros x Hx.
      assert (Hm : (fold_left Nat.min r (Nat.min d y) <= Nat.min d y)%nat)
        by (apply Hle; left; reflexivity).
      destruct Hx as [<- | [<- | Hx]]; [lia | lia |].
      apply Hle. right. exact Hx.
Qed.

Lemma min_depth_of_Some (rows : list (string * nat)) (id : string) (d : nat) :
  min_depth_of rows id = Some d
  <-> In (id, d) rows /\ forall d', In (id, d') rows -> (d <= d')%nat.
Proof.
  unfold min_depth_of.
  assert (Hin : forall x,
             In x (map snd (filter (fun r => String.eqb (fst r) id) rows))
             <-> In (id, x) rows).
  { intros x. rewrite in_map_iff. split.
    - intros ([v k] & Hk & Hf). apply filter_In in Hf. simpl in *.
      destruct Hf as [Hf Hv]. apply String.eqb_eq in Hv. subst. exact Hf.
    - intros H. exists (id, x). split; [reflexivity|].
      apply filter_In. split; [exact H | apply String.eqb_refl]. }
  destruct (map snd (filter (fun r => String.eqb (fst r) id) rows))
    as [|d0 ds] eqn:E.
  - split; [discriminate|]. intros [H _]. apply Hin in H. destruct H.
  - destruct (fold_min_spec ds d0) as [Hm Hle]. split.
    + intros H. inversion H; subst. split.
      * apply Hin, Hm.
      * intros d' Hd'. apply Hle, Hin, Hd'.
    + intros [H1 H2]. f_equal. apply Nat.le_antisymm.
      * apply Hle, Hin, H1.
      * apply H2, Hin, Hm.
Qed.

Lemma bfs_grouped_In (ns : list NodeRow) (rows : list (string * nat))
  (n : NodeRow) (d : nat) :
  In (n, d) (bfs_grouped ns rows)
  <-> In n ns /\ min_depth_of rows (node_id n) = Some d.
Proof.
  unfold bfs_grouped. rewrite in_flat_map. split.
  - intros (m & Hm & Hin).
    destruct (min_depth_of rows (node_id m)) as [k|] eqn:E; [|destruct Hin].
    destruct Hin as [Heq | []]. inversion Heq; subst. auto.
  - intros [Hn Hd]. exists n. split; [exact Hn|]. rewrite Hd. left. reflexivity.
Qed.

Lemma bfs_grouped_ids (ns : list NodeRow) (rows : list (string * nat)) :
  forall id, In id (map (fun x => node_id (fst x)) (bfs_grouped ns rows)) ->
             In id (map node_id ns).
Proof.
  intros id H. apply in_map_iff in H. destruct H as ([n d] & Hid & Hin).
  apply bfs_grouped_In in Hin. simpl in Hid. subst id.
  apply in_map. tauto.
Qed.

Lemma bfs_grouped_NoDup (ns : list NodeRow) (rows : list (string * nat)) :
  NoDup (map node_id ns) ->
  NoDup (map (fun x => node_id (fst x)) (bfs_grouped ns rows)).
Proof.
  induction ns as [|n r IH]; simpl; intros Hnd; [constructor|].
  inversion Hnd as [|? ? Hnot Hr]; subst.
  unfold bfs_grouped. simpl. fold (bfs_grouped r rows).
  destruct (min_depth_of rows (node_id n)); simpl; [|apply IH, Hr].
  constructor; [|apply IH, Hr].
  intros Hin. apply Hnot. eapply bfs_grouped_ids, Hin.
Qed.

(** ** The order of the traversal *)

Lemma bfs_before_asym (a b : NodeRow * nat) :
  bfs_before a b = true -> bfs_before b a = false.
Proof.
  unfold bfs_before. intros H.
  apply orb_true_iff in H. apply orb_false_iff.
  destruct H as [H | H].
  - apply Nat.ltb_lt in H. split.
    + apply Nat.ltb_ge. lia.
    + apply andb_false_iff. left. apply Nat.eqb_neq. lia.
  - apply andb_true_iff in H. destruct H as [He Hg].
    apply Nat.eqb_eq in He. split.
    + apply Nat.ltb_ge. lia.
    + apply andb_false_iff. right. apply sql_gtb_asym, Hg.
Qed.

Lemma bfs_before_false (a b : NodeRow * nat) :
  bfs_before b a = false -> bfs_rank_le a b.
Proof.
  unfold bfs_before, bfs_rank_le. intros H.
  apply orb_false_iff in H. destruct H as [Hlt Hand].
  apply Nat.ltb_ge in Hlt.
  destruct (Nat.eq_dec (snd a) (snd b)) as [E|E]; [|left; lia].
  right. split; [exact E|].
  apply andb_false_iff in Hand. destruct Hand as [Hne | Hg].
  - apply Nat.eqb_neq in Hne. congruence.
  - apply sql_gtb_false, Hg.
Qed.

Lemma bfs_rank_le_trans (a b c : NodeRow * nat) :
  bfs_rank_le a b -> bfs_rank_le b c -> bfs_rank_le a c.
Proof.
  unfold bfs_rank_le. intros [H1 | [E1 P1]] [H2 | [E2 P2]].
  - left; lia.
  - left; lia.
  - left; lia.
  - right. split; [congruence|]. eapply pagerank_ge_trans; eassumption.
Qed.

Lemma bfs_ordered_perm (d : Db) (seed : string) (maxDepth : nat) :
  Permutation (bfs_ordered d seed maxDepth)
    (bfs_grouped (nodes d) (bfs_cte (edges d) seed maxDepth)).
Proof. apply stable_sort_perm. Qed.

Lemma bfs_ordered_sorted (d : Db) (seed : string) (maxDepth : nat) :
  StronglySorted bfs_rank_le (bfs_ordered d seed maxDepth).
Proof.
  apply Sorted_StronglySorted.
  - intros a b c. apply bfs_rank_le_trans.
  - unfold bfs_ordered.
    eapply Sorted_ind with (P := fun l => Sorted bfs_rank_le l);
      [constructor | | apply (stable_sort_sorted bfs_before),
                         bfs_before_asym].
    intros a l Hs IH Hh. constructor; [exact IH|].
    destruct Hh as [|b l' Hb]; constructor. apply bfs_before_false, Hb.
Qed.

Lemma bfs_ordered_In (d : Db) (seed : string) (maxDepth : nat)
  (n : NodeRow) (k : nat) :
  In (n, k) (bfs_ordered d seed maxDepth)
  <-> In n (nodes d) /\ (k <= maxDepth)%nat
      /\ walk (edges d) seed k (node_id n)
      /\ forall k', walk (edges d) seed k' (node_id n) -> (k <= k')%nat.
Proof.
  split.
  - intros H.
    apply (Permutation_in _ (bfs_ordered_perm d seed maxDepth)) in H.
    apply bfs_grouped_In in H. destruct H as [Hn Hm].
    apply min_depth_of_Some in Hm. destruct Hm as [Hrow Hmin].
    apply bfs_cte_spec in Hrow. destruct Hrow as [Hk Hw].
    repeat split; try assumption.
    intros k' Hw'. destruct (Nat.le_gt_cases k' maxDepth) as [Hle|Hgt].
    + apply Hmin, bfs_cte_spec. auto.
    + lia.
  - intros (Hn & Hk & Hw & Hmin).
    apply (Permutation_in _ (Permutation_sym
                               (bfs_ordered_perm d seed maxDepth))).
    apply bfs_grouped_In. split; [exact Hn|].
    apply min_depth_of_Some. split.
    + apply bfs_cte_spec. auto.
    + intros d' Hd'. apply bfs_cte_spec in Hd'. apply Hmin. tauto.
Qed.

Lemma bfs_ordered_NoDup (d : Db) (seed : string) (maxDepth : nat) :
  NoDup (map node_id (nodes d)) ->
  NoDup (map (fun x => node_id (fst x)) (bfs_ordered d seed maxDepth)).
Proof.
  intros H.
  eapply Permutation_NoDup.
  - apply Permutation_map, Permutation_sym, bfs_ordered_perm.
  - apply bfs_grouped_NoDup, H.
Qed.

Lemma NoDup_firstn {A} (k : nat) (l : list A) : NoDup l -> NoDup (firstn k l).
Proof.
  revert k. induction l as [|x r IH]; intros k H.
  - rewrite firstn_nil. constructor.
  - destruct k as [|k]; [constructor|]. simpl.
    inversion H as [|? ? Hnot Hr]; subst. constructor.
    + intros Hin. apply Hnot. revert Hin. clear.
      revert k. induction r as [|y r IH]; intros k; destruct k; simpl; try tauto.
      intros [H|H]; [auto | right; eapply IH, H].
    + apply IH, Hr.
Qed.

(** C4.  The traversal returns every node of the table that a directed
    walk of at most [maxDepth] edges reaches from the seed, once, with the
    length of its shortest walk (the seed itself at 0), sorted by depth and
    then by descending centrality, and cut to [maxNodes] rows.  The queue
    evaluation of the recursive table ends, cycles or not, within one step
    per possible row.  On the cycle A -> B -> C -> A from A with depth
    bound 5 the traversal yields A at 0, B at 1 and C at 2. *)
Theorem bfs_traversal_correct
  (d : Db) (seed : string) (maxDepth maxNodes : nat) :
  NoDup (map node_id (nodes d)) ->
  let full := bfs_ordered d seed maxDepth in
  BFS_SQL d seed maxDepth maxNodes = firstn maxNodes full
  /\ (List.length (BFS_SQL d seed maxDepth maxNodes) <= maxNodes)%nat
  /\ NoDup (map (fun x => node_id (fst x)) full)
  /\ NoDup (map (fun x => node_id (fst x)) (BFS_SQL d seed maxDepth maxNodes))
  /\ (forall n k,
        In (n, k) full
        <-> In n (nodes d) /\ (k <= maxDepth)%nat
            /\ walk (edges d) seed k (node_id n)
            /\ forall k', walk (edges d) seed k' (node_id n) -> (k <= k')%nat)
  /\ (forall n, In n (nodes d) -> node_id n = seed -> In (n, O) full)
  /\ StronglySorted bfs_rank_le full
  /\ (exists rows,
        cte_eval (S (List.length (cte_universe (edges d) seed maxDepth)))
          (edges d) seed maxDepth = Some rows
        /\ forall v k, In (v, k) rows
                       <-> In (v, k) (bfs_cte (edges d) seed maxDepth))
  /\ map (fun x => (node_id (fst x), snd x)) (BFS_SQL cycle_db "A" 5 80)
     = [("A", 0%nat); ("B", 1%nat); ("C", 2%nat)].
Proof.
  intros Hnd full.
  split; [reflexivity|].
  split; [unfold BFS_SQL; rewrite length_firstn; lia|].
  split; [apply bfs_ordered_NoDup, Hnd|].
  split.
  { unfold BFS_SQL. rewrite <- firstn_map.
    apply NoDup_firstn, bfs_ordered_NoDup, Hnd. }
  split; [intros n k; apply bfs_ordered_In|].
  split.
  { intros n Hn Hid. apply bfs_ordered_In.
    split; [exact Hn|]. split; [lia|]. split; [|intros; lia].
    rewrite Hid. constructor. }
  split; [apply bfs_ordered_sorted|].
  split; [apply cte_eval_terminates|].
  vm_compute. reflexivity.
Qed.

(** The recursive table on the cycle: six rows, A again at depth 3 but
    never twice at one depth; the grouping keeps depth 0 for A. *)
Example recursive_table_on_cycle :
  cte_eval 7 (edges cycle_db) "A" 5
  = Some [("A", 0%nat); ("B", 1%nat); ("C", 2%nat);
          ("A", 3%nat); ("B", 4%nat); ("C", 5%nat)]
  /\ bfs_cte (edges cycle_db) "A" 5
     = [("A", 0%nat); ("B", 1%nat); ("C", 2%nat);
        ("A", 3%nat); ("B", 4%nat); ("C", 5%nat)]
  /\ min_depth_of (bfs_cte (edges cycle_db) "A" 5) "A" = Some 0%nat.
Proof. repeat split; reflexivity. Qed.

Lemma bfs_traversal_on_cycle :
  map (fun x => (node_id (fst x), snd x)) (BFS_SQL cycle_db "A" 5 80)
  = [("A", 0%nat); ("B", 1%nat); ("C", 2%nat)].
Proof.
  apply (bfs_traversal_correct cycle_db "A" 5 80).
  simpl. repeat constructor; simpl; intuition discriminate.
Defined.

(** ** The seed among the candidates *)

(** The first row of the traversal is the seed, so a limit of one row or
    more keeps it. *)
Lemma seed_in_BFS_SQL (d : Db) (seed : string) (maxDepth maxNodes : nat)
  (n : NodeRow) :
  In n (nodes d) -> node_id n = seed -> (1 <= maxNodes)%nat ->
  In seed (map (fun x => node_id (fst x)) (BFS_SQL d seed maxDepth maxNodes)).
Proof.
  intros Hn Hid Hmax.
  assert (H0 : In (n, O) (bfs_ordered d seed maxDepth)).
  { apply bfs_ordered_In. split; [exact Hn|]. split; [lia|].
    split; [rewrite Hid; constructor | intros; lia]. }
  pose proof (bfs_ordered_sorted d seed maxDepth) as Hs.
  assert (HIn : forall x, In x (bfs_ordered d seed maxDepth) ->
                          snd x = O -> node_id (fst x) = seed).
  { intros [m k] Hx Hk. simpl in *. subst k.
    apply bfs_ordered_In in Hx. destruct Hx as (_ & _ & Hw & _).
    symmetry. eapply walk_zero, Hw. }
  unfold BFS_SQL.
  destruct (bfs_ordered d seed maxDepth) as [|h t]; [destruct H0|].
  destruct maxNodes as [|mn]; [lia|]. simpl. left.
  apply HIn; [left; reflexivity|].
  destruct H0 as [H0 | H0]; [subst h; reflexivity|].
  inversion Hs as [|? ? _ Hall]; subst.
  rewrite Forall_forall in Hall. specialize (Hall _ H0).
  unfold bfs_rank_le in Hall. simpl in Hall. lia.
Qed.

Lemma blocks_cost_perm (d : Db) (l l' : list NodeRow) :
  Permutation l l' -> blocks_cost d l = blocks_cost d l'.
Proof.
  unfold blocks_cost. induction 1; simpl; lia.
Qed.

Lemma total_cost_firstn_le (d : Db) (l : list Scored) (k : nat) :
  (total_cost d (firstn k l) <= total_cost d l)%Z.
Proof.
  revert k. induction l as [|x r IH]; intros k.
  - rewrite firstn_nil. lia.
  - destruct k as [|k].
    + change (total_cost d (firstn 0 (x :: r))) with 0%Z.
      rewrite total_cost_cons.
      assert (0 <= total_cost d r)%Z.
      { specialize (IH O). change (total_cost d (firstn 0 r)) with 0%Z in IH.
        exact IH. }
      pose proof (estimateTokens_nonneg (chunk_of d x)). unfold cost. lia.
    + rewrite firstn_cons, !total_cost_cons. specialize (IH k). lia.
Qed.

Lemma findSeedNode_by_name (d : Db) (query seedName : string) (n : NodeRow) :
  seedName <> EmptyString ->
  find (fun m => String.eqb (name m) seedName) (nodes d) = Some n ->
  _findSeedNode d query (Some seedName) = Some (node_id n).
Proof.
  intros Hne Hf. unfold _findSeedNode.
  destruct seedName as [|c s]; [congruence|]. simpl truthy. cbv iota.
  rewrite Hf. reflexivity.
Qed.

Lemma assemble_reject_first (d : Db) (B : Z) (x : Scored) (l : list Scored)
  (chunks ids : list string) (used : Z) :
  (used + cost d x > B)%Z ->
  assemble d B (x :: l) chunks ids used = (chunks, ids, used).
Proof.
  intros H. destruct x as [nd sc]. cbn [assemble].
  rewrite <- (cost_pair d nd sc).
  destruct (Z.gtb_spec (used + cost d (nd, sc)) B); [reflexivity | lia].
Qed.

(** C3, as stated, fails: with a node named [helper] whose identifier is
    [R/utils.R::helper] and a budget of 3 tokens, [seed_node] is the
    identifier, not the name, and [node_ids] is empty, the block of the seed
    costing 5 tokens. *)
Lemma explicit_seed_counterexample :
  let r :=
    queryContext (open_graph qualified_db) "use helper" (Some "helper")
      3 3 80 in
  (exists n, In n (nodes qualified_db) /\ name n = "helper"
             /\ node_id n = "R/utils.R::helper")
  /\ seed_node r <> Some "helper"
  /\ ~ In "R/utils.R::helper" (node_ids r).
Proof.
  cbv zeta.
  destruct (queryContext_seeded (open_graph qualified_db) "use helper"
              (Some "helper") 3 3 80 "R/utils.R::helper")
    as (Hi & _ & Hs & _); [reflexivity | discriminate |].
  split.
  { eexists. split; [left; reflexivity|]. split; reflexivity. }
  split; [rewrite Hs; discriminate|].
  rewrite Hi.
  assert (HB : BFS_SQL (db (open_graph qualified_db)) "R/utils.R::helper"
                 3 80
               = [(plain_node "R/utils.R::helper" "helper" (Some 0.5%Q),
                   O)]) by reflexivity.
  rewrite HB. unfold scored_nodes.
  cbn [map stable_sort fold_right insert_sorted].
  rewrite assemble_reject_first; [simpl; tauto|].
  rewrite cost_pair. reflexivity.
Qed.

Lemma first_occurrence (id : string) (l : list Scored) :
  In id (map scored_id l) ->
  exists pre s post,
    l = pre ++ s :: post /\ scored_id s = id
    /\ forall x, In x pre -> scored_id x <> id.
Proof.
  induction l as [|y l IH]; intros H; [destruct H|].
  destruct (string_dec (scored_id y) id) as [E|E].
  - exists [], y, l. split; [reflexivity|]. split; [exact E|].
    intros x [].
  - destruct H as [H|H]; [contradiction|].
    destruct (IH H) as (pre & s & post & -> & Hs & Hpre).
    exists (y :: pre), s, post. split; [reflexivity|]. split; [exact Hs|].
    intros x [<- | Hx]; [exact E | apply Hpre, Hx].
Qed.

Lemma firstn_upto (pre post : list Scored) (s : Scored) :
  firstn (S (List.length pre)) (pre ++ s :: post) = pre ++ [s].
Proof.
  induction pre as [|y pre IH]; [reflexivity|].
  cbn [List.length app]. rewrite firstn_cons, IH. reflexivity.
Qed.

(** Whether the loop reaches a candidate: it does exactly when the budget
    covers the candidates ranked up to it, itself included. *)
Lemma assemble_reaches (d : Db) (B : Z) (pre post : list Scored)
  (s : Scored) :
  (forall x, In x pre -> scored_id x <> scored_id s) ->
  In (scored_id s)
    (snd (fst (assemble d B (pre ++ s :: post) [] [] 0%Z)))
  <-> (total_cost d (pre ++ [s]) <= B)%Z.
Proof.
  intros Hpre.
  destruct (assemble_prefix d B (pre ++ s :: post) [] [] 0%Z)
    as (k & Hk & Heq & Hle & Hgt).
  rewrite Heq. cbn [fst snd app]. rewrite Z.add_0_l in *.
  split.
  - intros Hin.
    assert (Hlt : (List.length pre < k)%nat).
    { destruct (Nat.lt_ge_cases (List.length pre) k) as [H|H]; [exact H|].
      exfalso. rewrite firstn_app in Hin.
      replace (k - List.length pre)%nat with O in Hin by lia.
      rewrite firstn_O, app_nil_r in Hin.
      apply in_map_iff in Hin. destruct Hin as (x & Ex & Hx).
      apply firstn_In in Hx. exact (Hpre x Hx Ex). }
    specialize (Hle (S (List.length pre)) ltac:(lia)).
    rewrite ?Z.add_0_l, firstn_upto in Hle. exact Hle.
  - intros Hcost.
    assert (Hlt : (List.length pre < k)%nat).
    { destruct (Nat.lt_ge_cases (List.length pre) k) as [H|H]; [exact H|].
      exfalso.
      assert (Hk' : (k < List.length (pre ++ s :: post))%nat).
      { rewrite length_app. cbn [List.length]. lia. }
      specialize (Hgt Hk'). rewrite ?Z.add_0_l in Hgt.
      assert (E : firstn (S k) (pre ++ s :: post)
                  = firstn (S k) (pre ++ [s])).
      { rewrite <- (firstn_upto pre post s), firstn_firstn.
        f_equal. lia. }
      rewrite E in Hgt.
      pose proof (total_cost_firstn_le d (pre ++ [s]) (S k)). lia. }
    apply in_map_iff. exists s. split; [reflexivity|].
    rewrite firstn_app. apply in_or_app. right.
    destruct (k - List.length pre)%nat as [|j] eqn:Ej; [lia|].
    left. reflexivity.
Qed.

(** C3, amended.  A non-empty seed name that is the display name of a
    stored node resolves to the identifier of the first such node; when
    that identifier is not empty it is the [seed_node] of the result.  It
    is listed in [node_ids] exactly when the traversal keeps one row or
    more and the budget covers the blocks of the candidates ranked, by
    descending score, up to the seed, the seed included. *)
Theorem explicit_seed_is_resolved
  (g : SQLiteGraph) (query seedName : string) (B : Z)
  (maxDepth maxNodes : nat) :
  seedName <> EmptyString ->
  (exists m, In m (nodes (db g)) /\ name m = seedName) ->
  exists n,
    find (fun m => String.eqb (name m) seedName) (nodes (db g)) = Some n
    /\ In n (nodes (db g)) /\ name n = seedName
    /\ _findSeedNode (db g) query (Some seedName) = Some (node_id n)
    /\ (node_id n <> EmptyString ->
        let r := queryContext g query (Some seedName) B maxDepth maxNodes in
        let sorted :=
          scored_nodes g query
            (BFS_SQL (db g) (node_id n) maxDepth maxNodes) in
        seed_node r = Some (node_id n)
        /\ (node_id n = seedName -> seed_node r = Some seedName)
        /\ (maxNodes = O -> node_ids r = [])
        /\ ((1 <= maxNodes)%nat ->
            exists pre s post,
              sorted = pre ++ s :: post
              /\ scored_id s = node_id n
              /\ (forall x, In x pre -> scored_id x <> node_id n)
              /\ (In (node_id n) (node_ids r)
                  <-> (total_cost (db g) (pre ++ [s]) <= B)%Z))).
Proof.
  intros Hne (m & Hm & Hname).
  destruct (find (fun m => String.eqb (name m) seedName) (nodes (db g)))
    as [n|] eqn:Hf.
  2:{ exfalso. apply (find_none _ _ Hf) in Hm.
      rewrite Hname, String.eqb_refl in Hm. discriminate. }
  exists n. split; [reflexivity|].
  destruct (find_some _ _ Hf) as [Hn Hnn]. apply String.eqb_eq in Hnn.
  split; [exact Hn|]. split; [exact Hnn|].
  pose proof (findSeedNode_by_name (db g) query seedName n Hne Hf) as Hseed.
  split; [exact Hseed|].
  intros Hid r sorted.
  destruct (queryContext_seeded g query (Some seedName) B maxDepth maxNodes
              (node_id n) Hseed Hid) as (Hi & _ & Hs & _).
  fold r in Hi, Hs. fold sorted in Hi.
  split; [exact Hs|]. split; [intros E; rewrite Hs, E; reflexivity|].
  split.
  - intros ->. rewrite Hi. subst sorted. reflexivity.
  - intros Hmax.
    assert (Hin : In (node_id n) (map scored_id sorted)).
    { apply (Permutation_in
               (l := map (fun x => node_id (fst x))
                       (BFS_SQL (db g) (node_id n) maxDepth maxNodes))).
      - replace (map scored_id sorted)
          with (map (fun x : NodeRow * nat => node_id (fst x))
                  (map fst sorted))
          by (rewrite map_map; reflexivity).
        apply Permutation_map, Permutation_sym, scored_nodes_perm.
      - apply (seed_in_BFS_SQL (db g) (node_id n) maxDepth maxNodes n Hn
                 eq_refl Hmax). }
    destruct (first_occurrence _ _ Hin) as (pre & s & post & E & Es & Hpre).
    exists pre, s, post. split; [exact E|]. split; [exact Es|].
    split; [exact Hpre|].
    rewrite Hi, E, <- Es. apply assemble_reaches.
    intros x Hx. rewrite Es. apply Hpre, Hx.
Qed.

(** The fixture of the repository's unit tests, seed [query_context], with
    a budget of 200 tokens: the three candidates cost 285 tokens together,
    the seed ranks first and costs 94, and it is listed. *)
Lemma explicit_seed_on_fixture :
  let r :=
    queryContext fixture "split the data" (Some "query_context")
      200 3 80 in
  seed_node r = Some "query_context"
  /\ In "query_context" (node_ids r)
  /\ (200 < blocks_cost (db fixture)
              (map fst (BFS_SQL (db fixture) "query_context" 3 80)))%Z.
Proof.
  destruct (explicit_seed_is_resolved fixture "split the data"
              "query_context" 200 3 80)
    as (n & Hf & _ & _ & _ & H).
  - discriminate.
  - eexists. split; [right; left; reflexivity | reflexivity].
  - vm_compute in Hf. injection Hf as <-.
    destruct H as (Hs & _ & _ & Hin); [discriminate|].
    destruct (Hin ltac:(lia)) as (pre & s & post & E & Es & Hpre & Hiff).
    clear Hin.
    split; [exact Hs|]. split; [|vm_compute; reflexivity].
    apply Hiff. clear Hiff Hs.
    cbn [node_id] in E, Es, Hpre.
    pose proof (scored_nodes_descending fixture "split the data"
                  (BFS_SQL (db fixture) "query_context" 3 80)) as Hd.
    assert (Hall : forall x,
               In x (scored_nodes fixture "split the data"
                       (BFS_SQL (db fixture) "query_context" 3 80)) ->
               In x (map (fun nd => (nd, score_node None nd))
                       (BFS_SQL (db fixture) "query_context" 3 80))).
    { intros x Hx. unfold scored_nodes in Hx.
      apply (Permutation_in _ (stable_sort_perm score_before _)) in Hx.
      exact Hx. }
    rewrite E in Hd, Hall.
    assert (HB : BFS_SQL (db fixture) "query_context" 3 80
                 = [(nth 1 fixture_nodes (plain_node "" "" None), 0%nat);
                    (nth 0 fixture_nodes (plain_node "" "" None), 1%nat);
                    (nth 2 fixture_nodes (plain_node "" "" None), 2%nat)])
      by (vm_compute; reflexivity).
    rewrite HB in Hall. cbn [map nth fixture_nodes] in Hall.
    assert (Hs : In s (pre ++ s :: post))
      by (apply in_or_app; right; left; reflexivity).
    apply Hall in Hs.
    destruct Hs as [<- | [<- | [<- | []]]];
      [| exfalso; revert Es; vm_compute; discriminate
       | exfalso; revert Es; vm_compute; discriminate].
    destruct pre as [|x pre].
    + cbn [app]. rewrite total_cost_cons, cost_pair.
      vm_compute. discriminate.
    + exfalso.
      assert (Hx : In x ((x :: pre) ++ (nth 1 fixture_nodes
                                           (plain_node "" "" None), 0%nat,
                                         score_node None
                                           (nth 1 fixture_nodes
                                              (plain_node "" "" None),
                                            0%nat)) :: post))
        by (left; reflexivity).
      cbn [nth fixture_nodes] in Hx.
      pose proof (Hpre x (or_introl eq_refl)) as Hne.
      cbn [app] in Hd. apply StronglySorted_inv in Hd.
      destruct Hd as [_ Hd]. rewrite Forall_forall in Hd.
      match type of Hd with
      | forall y, In y (?l1 ++ ?z :: ?l2) -> _ =>
          assert (Hz : In z (l1 ++ z :: l2))
            by (apply in_or_app; right; left; reflexivity);
          specialize (Hd z Hz); clear Hz
      end.
      apply Hall in Hx.
      destruct Hx as [<- | [<- | [<- | []]]].
      * apply Hne. reflexivity.
      * revert Hd. unfold score_node, semScore_of, Q2R.
        cbn [fst snd pagerank task_weight INR Qnum Qden]. intros Hd. lra.
      * revert Hd. unfold score_node, semScore_of, Q2R.
        cbn [fst snd pagerank task_weight INR Qnum Qden]. intros Hd. lra.
Defined.

(** ** No null seed on a snapshot with nodes *)

Lemma queryContext_seed_not_null
  (g : SQLiteGraph) (query : string) (seedNodeName : option string)
  (B : Z) (maxDepth maxNodes : nat) :
  nodes (db g) <> [] ->
  (forall n, In n (nodes (db g)) -> node_id n <> EmptyString) ->
  exists id n,
    seed_node (queryContext g query seedNodeName B maxDepth maxNodes)
    = Some id
    /\ In n (nodes (db g)) /\ node_id n = id.
Proof.
  intros Hne Hids.
  destruct (_findSeedNode (db g) query seedNodeName) as [id|] eqn:E.
  - destruct (findSeedNode_names_a_node _ _ _ _ E) as (n & Hn & Hid).
    exists id, n. split; [|auto].
    apply (queryContext_seeded g query seedNodeName B maxDepth maxNodes
             id E).
    rewrite <- Hid. apply Hids, Hn.
  - exfalso. apply Hne, (findSeedNode_none_iff (db g) query seedNodeName), E.
Qed.

(** ** The retrieval-mode tag *)

Lemma queryContext_sets_no_retrieval_mode
  (g : SQLiteGraph) (query : string) (seedNodeName : option string)
  (B : Z) (maxDepth maxNodes : nat) :
  retrieval_mode (queryContext g query seedNodeName B maxDepth maxNodes)
  = None.
Proof.
  destruct (_findSeedNode (db g) query seedNodeName) as [[|c s]|] eqn:E.
  - rewrite queryContext_no_seed by (right; exact E). reflexivity.
  - apply (queryContext_seeded g query seedNodeName B maxDepth maxNodes
             (String c s) E). discriminate.
  - rewrite queryContext_no_seed by (left; exact E). reflexivity.
Qed.

(** C2.  The interface [ContextResult] and the integration test ask for a
    [retrieval_mode] among [tfidf_cosine], [fts5_fallback] and
    [pagerank_only]; the object [queryContext] builds has no such property.
    Here on the fixture, whose vocabulary is populated, where the test
    expects [tfidf_cosine]. *)
Lemma queryContext_fixture_retrieval_mode :
  retrieval_mode
    (queryContext fixture "split the data" (Some "query_context") 2000 3 80)
  = None
  /\ retrieval_mode
       (queryContext (open_graph (mkDb [] [] [] 0 None (fun _ => FtsThrows)))
          "split the data" None 2000 3 80)
     = None.
Proof. split; apply queryContext_sets_no_retrieval_mode. Qed.

(** ** Task traces *)

Lemma fold_max_ge (l : list Z) (a : Z) :
  (a <= fold_left Z.max l a)%Z
  /\ forall x, In x l -> (x <= fold_left Z.max l a)%Z.
Proof.
  revert a. induction l as [|y r IH]; intros a; simpl.
  - split; [lia | intros x []].
  - destruct (IH (Z.max a y)) as [H1 H2]. split; [lia|].
    intros x [<- | Hx]; [lia | apply H2, Hx].
Qed.

(** C8.  [addTaskTrace] throws exactly when the polarity is below -1 or
    above 1, and then leaves the store as it was.  Otherwise it appends one
    trace that holds the polarity as given, the time of the call and a
    fresh identifier, and returns that identifier. *)
Theorem addTaskTrace_validates_polarity
  (g : SQLiteGraph) (now q : string) (trace_nodes : list string)
  (p : Q) (sessionId : option string) :
  let out := addTaskTrace g now q trace_nodes p sessionId in
  ((exists e, fst out = inl e) <-> (p < -1)%Q \/ (1 < p)%Q)
  /\ (forall e, fst out = inl e -> snd out = g /\ e = RangeError p)
  /\ (forall id, fst out = inr id ->
        exists row,
          task_traces (db (snd out)) = task_traces (db g) ++ [row]
          /\ trace_id row = id
          /\ polarity row = p
          /\ created_at row = Some now
          /\ query row = Some q
          /\ nodes_json row = Some (JSON_stringify trace_nodes)
          /\ session_id row = sessionId
          /\ ~ In id (map trace_id (task_traces (db g)))
          /\ nodes (db (snd out)) = nodes (db g)
          /\ edges (db (snd out)) = edges (db g)).
Proof.
  intros out. subst out. unfold addTaskTrace.
  destruct (Qltb p (-1) || Qltb 1 p) eqn:E.
  - apply orb_true_iff in E. rewrite !Qltb_true in E.
    split; [split; [intros _; exact E | intros _; eexists; reflexivity]|].
    split.
    + intros e H. simpl in H. inversion H. auto.
    + intros id H. discriminate.
  - apply orb_false_iff in E. rewrite !Qltb_false in E. destruct E as [E1 E2].
    split.
    { split.
      - intros [e H]. discriminate.
      - intros [H | H]; exfalso.
        + exact (Qlt_not_le _ _ H E1).
        + exact (Qlt_not_le _ _ H E2). }
    split; [intros e H; discriminate|].
    intros id H. simpl in H. inversion H as [Hid]. simpl.
    eexists. split; [reflexivity|]. simpl.
    repeat split.
    intros Hin. unfold next_trace_id in *.
    destruct (fold_max_ge (map trace_id (task_traces (db g)))
                (task_traces_seq (db g))) as [_ Hmax].
    apply Hmax in Hin. lia.
Qed.

Example addTaskTrace_on_fixture :
  fst (addTaskTrace fixture "2026-02-22T10:00:00.000Z" "bad" [] 2 None)
  = inl (RangeError 2)
  /\ fst (addTaskTrace fixture "2026-02-22T10:00:00.000Z" "bad" [] (-1.5)
            None)
     = inl (RangeError (-1.5))
  /\ fst (addTaskTrace fixture "2026-02-22T10:00:00.000Z" "test task"
            ["build_rrlm_graph"] 0.8 (Some "test-session"))
     = inr 1%Z
  /\ map polarity
       (task_traces
          (db (snd (addTaskTrace fixture "2026-02-22T10:00:00.000Z"
                      "test task" ["build_rrlm_graph"] 0.8
                      (Some "test-session")))))
     = [0.8%Q]
  /\ fst (addTaskTrace fixture "2026-02-22T10:00:00.000Z" "edge" [] 1 None)
     = inr 1%Z
  /\ fst (addTaskTrace fixture "2026-02-22T10:00:00.000Z" "edge" [] (-1) None)
     = inr 1%Z.
Proof. repeat split; reflexivity. Qed.

(** ** getFileNodes *)

Lemma decode_uri_plain (s : list ascii) :
  (forall c, In c s -> c <> "%"%char) ->
  decode_uri s 0 0%N 0%N [] = Some s.
Proof.
  induction s as [|c r IH]; intros H; [reflexivity|].
  simpl. destruct (Ascii.eqb_spec c "%"%char) as [E|E].
  - exfalso. apply (H c); [left; reflexivity | exact E].
  - rewrite IH; [reflexivity|]. intros x Hx. apply H. right. exact Hx.
Qed.

Lemma decodeURIComponent_plain (s : string) :
  (forall c, In c (list_ascii_of_string s) -> c <> "%"%char) ->
  decodeURIComponent s = Some s.
Proof.
  intros H. unfold decodeURIComponent.
  rewrite (decode_uri_plain _ H). simpl.
  rewrite string_of_list_ascii_of_string. reflexivity.
Qed.

(** C10.  Every entry [getFileNodes] returns has empty [callers],
    [callees] and [tests], whatever edges the store holds; the call returns
    for every path free of percent signs.  On a store where [fit_model] is
    called, calls and is tested, [getNodeInfo] reports the three relations
    and [getFileNodes] none. *)
Theorem getFileNodes_relationships_empty (g : SQLiteGraph) (filePath : string) :
  match getFileNodes g filePath with
  | inr l =>
      Forall (fun i => callers i = [] /\ callees i = [] /\ tests i = []) l
  | inl e =>
      e = URIError
      /\ exists c, In c (list_ascii_of_string filePath) /\ c = "%"%char
  end
  /\ option_map (fun i => (callers i, callees i, tests i))
       (getNodeInfo (open_graph relations_db) "fit_model" false)
     = Some (["run_all"], ["clean"], ["test_fit_model"])
  /\ match getFileNodes (open_graph relations_db) "R/model.R" with
     | inr l =>
         map (fun i => (info_name i, callers i, callees i, tests i)) l
         = [("fit_model", [], [], [])]
     | inl _ => False
     end.
Proof.
  split; [|split; reflexivity].
  unfold getFileNodes.
  destruct (decodeURIComponent filePath) as [decoded|] eqn:E.
  - apply Forall_forall. intros i Hi. apply in_map_iff in Hi.
    destruct Hi as (r & <- & _). simpl. auto.
  - split; [reflexivity|].
    destruct (existsb (Ascii.eqb "%"%char) (list_ascii_of_string filePath))
      eqn:X.
    + apply existsb_exists in X. destruct X as (c & Hc & Hx).
      apply Ascii.eqb_eq in Hx. eauto.
    + exfalso. rewrite decodeURIComponent_plain in E; [discriminate|].
      intros c Hc Heq. subst c.
      assert (existsb (Ascii.eqb "%"%char) (list_ascii_of_string filePath)
              = true) by (apply existsb_exists; exists "%"%char;
                          split; [exact Hc | apply Ascii.eqb_refl]).
      congruence.
Qed.

Example getFileNodes_on_fixture :
  match getFileNodes fixture "R/graph_build.R" with
  | inr l => map info_name l = ["build_rrlm_graph"]
  | inl _ => False
  end
  /\ getFileNodes fixture "R/nonexistent.R" = inr []
  /\ match getFileNodes fixture "R%2Fgraph_build.R" with
     | inr l => map info_name l = ["build_rrlm_graph"]
     | inl _ => False
     end
  /\ getFileNodes fixture "R/%zz" = inl URIError.
Proof. repeat split; reflexivity. Qed.

(** ** JavaScript maps *)

Lemma map_get_set_same {V} (k : string) (v : V) (m : JsMap V) :
  map_get k (map_set k v m) = Some v.
Proof.
  induction m as [|[k' v'] r IH]; simpl.
  - rewrite String.eqb_refl. reflexivity.
  - destruct (String.eqb k k') eqn:E; simpl; rewrite E; [reflexivity | exact IH].
Qed.

Lemma map_get_set_other {V} (k k0 : string) (v : V) (m : JsMap V) :
  k0 <> k -> map_get k0 (map_set k v m) = map_get k0 m.
Proof.
  intros Hne. induction m as [|[k' v'] r IH]; simpl.
  - destruct (String.eqb_spec k0 k); [congruence | reflexivity].
  - destruct (String.eqb_spec k k') as [E|E]; simpl.
    + subst k'. destruct (String.eqb_spec k0 k); [congruence | reflexivity].
    + destruct (String.eqb k0 k'); [reflexivity | exact IH].
Qed.

Lemma map_get_None {V} (k : string) (m : JsMap V) :
  map_get k m = None <-> ~ In k (map fst m).
Proof.
  induction m as [|[k' v'] r IH]; simpl; [tauto|].
  destruct (String.eqb_spec k k') as [E|E].
  - split; [discriminate | intros H; exfalso; apply H; left; congruence].
  - rewrite IH. split; [intros H [H'|H']; [congruence | tauto] | tauto].
Qed.

Lemma map_set_new {V} (k : string) (v : V) (m : JsMap V) :
  ~ In k (map fst m) -> map_set k v m = m ++ [(k, v)].
Proof.
  induction m as [|[k' v'] r IH]; simpl; intros H; [reflexivity|].
  destruct (String.eqb_spec k k') as [E|E]; [exfalso; apply H; left; congruence|].
  rewrite IH; [reflexivity | tauto].
Qed.

Lemma map_set_keys {V} (k : string) (v : V) (m : JsMap V) :
  map fst (map_set k v m)
  = if in_dec string_dec k (map fst m) then map fst m else map fst m ++ [k].
Proof.
  induction m as [|[k' v'] r IH]; simpl; [reflexivity|].
  destruct (String.eqb_spec k k') as [E|E]; simpl.
  - destruct (string_dec k' k); [reflexivity | congruence].
  - rewrite IH. destruct (string_dec k' k); [congruence|].
    destruct (in_dec string_dec k (map fst r)); reflexivity.
Qed.

Lemma map_set_NoDup {V} (k : string) (v : V) (m : JsMap V) :
  NoDup (map fst m) -> NoDup (map fst (map_set k v m)).
Proof.
  intros H. rewrite map_set_keys.
  destruct (in_dec string_dec k (map fst m)) as [Hin|Hin]; [exact H|].
  apply NoDup_app; [exact H | repeat constructor; intros [] |].
  intros x Hx [<- | []]. exact (Hin Hx).
Qed.

Lemma map_get_In {V} (k : string) (v : V) (m : JsMap V) :
  NoDup (map fst m) -> (In (k, v) m <-> map_get k m = Some v).
Proof.
  induction m as [|[k' v'] r IH]; simpl; intros Hnd.
  - split; [tauto | discriminate].
  - inversion Hnd as [|? ? Hnot Hr]; subst.
    destruct (String.eqb_spec k k') as [E|E].
    + subst k'. split.
      * intros [H|H]; [congruence|].
        exfalso. apply Hnot. apply (in_map fst) in H. exact H.
      * intros H. left. congruence.
    + rewrite <- (IH Hr). split; [intros [H|H]; [congruence | exact H] | tauto].
Qed.

(** ** Counting the tokens of a query *)

Lemma count_tokens_fold (tokens : list string) :
  forall m : JsMap nat,
    NoDup (map fst m) ->
    let m' :=
      fold_left
        (fun tf t =>
           map_set t
             (match map_get t tf with Some c => c | None => O end + 1)%nat tf)
        tokens m in
    NoDup (map fst m')
    /\ forall t,
         (map_get t m' = None <-> map_get t m = None /\ ~ In t tokens)
         /\ match map_get t m' with Some c => c | None => O end
            = (match map_get t m with Some c => c | None => O end
               + count_occ string_dec tokens t)%nat.
Proof.
  induction tokens as [|x r IH]; intros m Hnd; simpl.
  - split; [exact Hnd|]. intros t. split; [tauto | lia].
  - set (m1 := map_set x
                 (match map_get x m with Some c => c | None => O end + 1)%nat
                 m).
    destruct (IH m1 (map_set_NoDup _ _ _ Hnd)) as [Hnd' Ht].
    split; [exact Hnd'|]. intros t. destruct (Ht t) as [Hn Hc]. split.
    + rewrite Hn. unfold m1. destruct (string_dec x t) as [E|E].
      * subst t. rewrite map_get_set_same.
        split; [intros [H _]; discriminate | intros [_ H]; tauto].
      * rewrite map_get_set_other by congruence.
        split; [intros [H1 H2]; split; [exact H1 | intros [H|H]; tauto]
               | intros [H1 H2]; split; [exact H1 | tauto]].
    + rewrite Hc. unfold m1. destruct (string_dec x t) as [E|E].
      * subst t. rewrite map_get_set_same. lia.
      * rewrite map_get_set_other by congruence. reflexivity.
Qed.

Lemma count_tokens_NoDup (tokens : list string) :
  NoDup (map fst (count_tokens tokens)).
Proof. apply (count_tokens_fold tokens []). constructor. Qed.

Lemma count_tokens_spec (tokens : list string) (t : string) (c : nat) :
  In (t, c) (count_tokens tokens)
  <-> In t tokens /\ c = count_occ string_dec tokens t.
Proof.
  rewrite (map_get_In _ _ _ (count_tokens_NoDup tokens)).
  pose proof (count_tokens_fold tokens [] (NoDup_nil _)) as H.
  cbv zeta in H. destruct H as [_ H]. specialize (H t).
  fold (count_tokens tokens) in H. simpl in H. destruct H as [Hn Hc].
  destruct (map_get t (count_tokens tokens)) as [c'|] eqn:E.
  - split.
    + intros Heq. injection Heq as Heq. split; [|rewrite <- Heq; exact Hc].
      destruct (in_dec string_dec t tokens) as [Hin|Hin]; [exact Hin|].
      destruct Hn as [_ Hn]. discriminate Hn. split; [reflexivity | exact Hin].
    + intros [_ Heq]. f_equal. lia.
  - split; [discriminate|]. intros [Hin _].
    destruct Hn as [Hn _]. destruct (Hn eq_refl) as [_ Hnot]. tauto.
Qed.

(** ** The query vector *)

Lemma query_vector_fold (vocab : JsMap TfidfVocabRow) (total : nat)
  (tf : JsMap nat) :
  forall acc : JsMap R,
    NoDup (map fst tf) ->
    (forall k, In k (map fst tf) -> ~ In k (map fst acc)) ->
    fold_left
      (fun (result : JsMap R) (tc : string * nat) =>
         match map_get (fst tc) vocab with
         | Some row =>
             map_set (fst tc)
               (ln (1 + INR (snd tc)) / ln (1 + INR total)
                * Q2R (idf row))%R result
         | None => result
         end) tf acc
    = acc ++ flat_map
               (fun tc : string * nat =>
                  match map_get (fst tc) vocab with
                  | Some row => [(fst tc, tf_weight (snd tc) total (idf row))]
                  | None => []
                  end) tf.
Proof.
  induction tf as [|[t c] r IH]; intros acc Hnd Hfresh; simpl.
  - rewrite app_nil_r. reflexivity.
  - simpl in Hnd. inversion Hnd as [|? ? Hnot Hr]; subst.
    destruct (map_get t vocab) as [row|].
    + rewrite map_set_new by (apply Hfresh; left; reflexivity).
      rewrite IH; [rewrite <- app_assoc; reflexivity | exact Hr |].
      intros k Hk. rewrite map_app, in_app_iff. simpl.
      intros [H | [H | []]].
      * apply (Hfresh k); [right; exact Hk | exact H].
      * subst k. exact (Hnot Hk).
    + apply IH; [exact Hr|]. intros k Hk. apply Hfresh. right. exact Hk.
Qed.

(** The vector lists the query's distinct tokens that the vocabulary
    knows, in the order of their first occurrence in the query. *)
Lemma buildQueryVector_entries (query : string)
  (vocab : JsMap TfidfVocabRow) :
  buildQueryVector query vocab
  = flat_map
      (fun tc : string * nat =>
         match map_get (fst tc) vocab with
         | Some row =>
             [(fst tc,
               tf_weight (snd tc) (List.length (tokenize query)) (idf row))]
         | None => []
         end) (count_tokens (tokenize query)).
Proof.
  unfold buildQueryVector.
  rewrite (query_vector_fold vocab (List.length (tokenize query))
             (count_tokens (tokenize query)) []).
  - reflexivity.
  - apply count_tokens_NoDup.
  - intros k _ [].
Qed.

Lemma flat_map_keys_NoDup {V} (f : string * nat -> option V)
  (l : list (string * nat)) :
  NoDup (map fst l) ->
  NoDup (map fst (flat_map (fun tc => match f tc with
                                      | Some v => [(fst tc, v)]
                                      | None => []
                                      end) l)).
Proof.
  induction l as [|tc r IH]; simpl; intros H; [constructor|].
  inversion H as [|? ? Hnot Hr]; subst.
  destruct (f tc) as [v|]; simpl; [|apply IH, Hr].
  constructor; [|apply IH, Hr].
  intros Hin. apply Hnot. clear - Hin.
  induction r as [|tc' r IH]; simpl in *; [exact Hin|].
  destruct (f tc'); simpl in *; [destruct Hin; [left; assumption | right; auto]
                                | right; auto].
Qed.

Lemma ln_ratio_3_4 : (ln 3 / ln 4 <> 2 / 3)%R.
Proof.
  assert (H4 : (0 < ln 4)%R).
  { rewrite <- ln_1. apply ln_increasing; lra. }
  intros H.
  assert (E : (3 * ln 3 = 2 * ln 4)%R).
  { apply (f_equal (fun x => (x * (3 * ln 4))%R)) in H.
    field_simplify in H; lra. }
  assert (E27 : (ln 27 = 3 * ln 3)%R).
  { replace 27%R with (3 * (3 * 3))%R by lra.
    rewrite !ln_mult by lra. lra. }
  assert (E16 : (ln 16 = 2 * ln 4)%R).
  { replace 16%R with (4 * 4)%R by lra. rewrite ln_mult by lra. lra. }
  assert (X : (27 = 16)%R).
  { apply ln_inv; [lra | lra | rewrite E27, E16; exact E]. }
  lra.
Qed.

(** C6.  The query vector holds one entry for each distinct token of the
    query that the vocabulary knows, weighted
    [log(1 + count) / log(1 + total) * idf]; a token the vocabulary does
    not know has no entry; the empty query gives the empty vector.  The
    query "query context query" against the vocabulary {query: 0.8} gives
    the single weight [log 3 / log 4 * 0.8], which is not [2/3 * 0.8]. *)
Theorem buildQueryVector_weights (query : string)
  (vocab : JsMap TfidfVocabRow) :
  let tokens := tokenize query in
  let vec := buildQueryVector query vocab in
  (forall t w,
      In (t, w) vec
      <-> In t tokens
          /\ exists row,
               map_get t vocab = Some row
               /\ w = (ln (1 + INR (count_occ string_dec tokens t))
                       / ln (1 + INR (List.length tokens))
                       * Q2R (idf row))%R)
  /\ NoDup (map_keys vec)
  /\ (forall t, map_get t vocab = None ->
                map_get t vec = None /\ ~ In t (map_keys vec))
  /\ buildQueryVector EmptyString vocab = []
  /\ exists w,
       buildQueryVector "query context query"
         [("query", mkTfidfVocabRow "query" 0.8 1 1)] = [("query", w)]
       /\ w = (ln 3 / ln 4 * 0.8)%R
       /\ w <> (2 / 3 * 0.8)%R.
Proof.
  intros tokens vec.
  assert (Hspec : forall t w,
             In (t, w) vec
             <-> In t tokens
                 /\ exists row,
                      map_get t vocab = Some row
                      /\ w = (ln (1 + INR (count_occ string_dec tokens t))
                              / ln (1 + INR (List.length tokens))
                              * Q2R (idf row))%R).
  { intros t w. subst vec. rewrite buildQueryVector_entries.
    fold tokens. rewrite in_flat_map. split.
    - intros ([t' c] & Htc & Hin). simpl in Hin.
      apply count_tokens_spec in Htc. destruct Htc as [Ht Hc].
      destruct (map_get t' vocab) as [row|] eqn:E; [|destruct Hin].
      destruct Hin as [Heq | []]. inversion Heq; subst.
      split; [exact Ht|]. exists row. split; [exact E | reflexivity].
    - intros (Ht & row & E & Hw).
      exists (t, count_occ string_dec tokens t). split.
      + apply count_tokens_spec. auto.
      + simpl. rewrite E. left. subst w. reflexivity. }
  split; [exact Hspec|].
  assert (Hnd : NoDup (map_keys vec)).
  { subst vec. rewrite buildQueryVector_entries. unfold map_keys.
    pose proof (flat_map_keys_NoDup
                  (fun tc => match map_get (fst tc) vocab with
                             | Some row =>
                                 Some (tf_weight (snd tc)
                                         (List.length (tokenize query))
                                         (idf row))
                             | None => None
                             end)
                  (count_tokens (tokenize query))
                  (count_tokens_NoDup _)) as H.
    erewrite flat_map_ext; [exact H|].
    intros tc. simpl. destruct (map_get (fst tc) vocab); reflexivity. }
  split; [exact Hnd|].
  split.
  { intros t Hnone.
    assert (Hnot : ~ In t (map_keys vec)).
    { unfold map_keys. intros Hin. apply in_map_iff in Hin.
      destruct Hin as ([t' w] & Ht & Hin). simpl in Ht. subst t'.
      apply Hspec in Hin. destruct Hin as (_ & row & E & _). congruence. }
    split; [apply map_get_None; exact Hnot | exact Hnot]. }
  split; [reflexivity|].
  exists (tf_weight 2 3 0.8).
  assert (Hw : tf_weight 2 3 0.8 = (ln 3 / ln 4 * 0.8)%R).
  { unfold tf_weight.
    replace (1 + INR 2)%R with 3%R by (simpl; lra).
    replace (1 + INR 3)%R with 4%R by (simpl; lra).
    replace (Q2R 0.8) with 0.8%R by (unfold Q2R; simpl; lra).
    reflexivity. }
  split; [rewrite buildQueryVector_entries; reflexivity|].
  split; [exact Hw|].
  rewrite Hw. intros H. apply ln_ratio_3_4. lra.
Qed.

(** The other two values of the unit tests. *)
Example buildQueryVector_unit_tests :
  (exists w, buildQueryVector "graph" [("graph", mkTfidfVocabRow "graph" 0.5 1 1)]
             = [("graph", w)] /\ w = 0.5%R)
  /\ (exists w, buildQueryVector "build graph"
                  [("build", mkTfidfVocabRow "build" 1.0 1 1)]
                = [("build", w)] /\ w = (ln 2 / ln 3)%R)
  /\ map_keys (buildQueryVector "known unknown"
                 [("known", mkTfidfVocabRow "known" 1.0 1 1)]) = ["known"].
Proof.
  assert (H2 : (0 < ln 2)%R) by (rewrite <- ln_1; apply ln_increasing; lra).
  split; [|split].
  - exists (tf_weight 1 1 0.5). split.
    + rewrite buildQueryVector_entries. reflexivity.
    + unfold tf_weight. replace (1 + INR 1)%R with 2%R by (simpl; lra).
      replace (Q2R 0.5) with 0.5%R by (unfold Q2R; simpl; lra).
      field. lra.
  - exists (tf_weight 1 2 1.0). split.
    + rewrite buildQueryVector_entries. reflexivity.
    + unfold tf_weight. replace (1 + INR 1)%R with 2%R by (simpl; lra).
      replace (1 + INR 2)%R with 3%R by (simpl; lra).
      replace (Q2R 1.0) with 1%R by (unfold Q2R; simpl; lra).
      lra.
  - rewrite buildQueryVector_entries. reflexivity.
Qed.

(** ** Cosine similarity *)

Local Open Scope R_scope.

Lemma cosine_loop (a b : list R) :
  List.length a = List.length b ->
  forall (pa pb : list R) (acc : R * R * R),
    List.length pa = List.length pb ->
    fold_left (cosine_step (pa ++ a) (pb ++ b))
      (seq (List.length pa) (List.length a)) acc
    = (fst (fst acc) + dot a b,
       snd (fst acc) + sum_squares a,
       snd acc + sum_squares b).
Proof.
  revert b. induction a as [|x a IH]; intros b Hlen pa pb acc Hp.
  - destruct b; [|discriminate]. destruct acc as [[u v] w]. simpl.
    rewrite !Rplus_0_r. reflexivity.
  - destruct b as [|y b]; [discriminate|]. simpl in Hlen.
    injection Hlen as Hlen. destruct acc as [[u v] w].
    cbn [List.length seq fold_left].
    assert (Hx : nth (List.length pa) (pa ++ x :: a) 0 = x)
      by apply nth_middle.
    assert (Hy : nth (List.length pa) (pb ++ y :: b) 0 = y)
      by (rewrite Hp; apply nth_middle).
    unfold cosine_step at 2. rewrite !Hx, !Hy.
    replace (pa ++ x :: a) with ((pa ++ [x]) ++ a)
      by (rewrite <- app_assoc; reflexivity).
    replace (pb ++ y :: b) with ((pb ++ [y]) ++ b)
      by (rewrite <- app_assoc; reflexivity).
    replace (S (List.length pa)) with (List.length (pa ++ [x]))
      by (rewrite length_app; simpl; lia).
    rewrite IH; [| exact Hlen | rewrite !length_app; simpl; lia].
    unfold dot, sum_squares. cbn [combine map fold_right fst snd].
    f_equal; [f_equal|]; lra.
Qed.

Lemma sum_squares_nonneg (a : list R) : 0 <= sum_squares a.
Proof.
  unfold sum_squares. induction a as [|x r IH]; simpl; [lra|].
  pose proof (Rle_0_sqr x) as H. unfold Rsqr in H. lra.
Qed.

(** The loop of [cosineSimilarity] computes the cosine. *)
Lemma cosineSimilarity_spec (a b : list R) :
  cosineSimilarity a b
  = if (List.length a =? 0)%nat || negb (List.length b =? List.length a)%nat
    then 0
    else if Req_dec_T (sum_squares a) 0 then 0
    else if Req_dec_T (sum_squares b) 0 then 0
    else dot a b / (sqrt (sum_squares a) * sqrt (sum_squares b)).
Proof.
  unfold cosineSimilarity.
  destruct (Nat.eqb_spec (List.length a) (List.length b)) as [E|E].
  2:{ simpl. destruct (Nat.eqb_spec (List.length b) (List.length a));
        [congruence|]. rewrite orb_true_r. reflexivity. }
  rewrite <- E, Nat.eqb_refl. simpl negb. rewrite orb_false_r, orb_false_l.
  destruct (Nat.eqb_spec (List.length a) 0) as [Z|Z]; [reflexivity|].
  pose proof (cosine_loop a b E [] [] (0, 0, 0) eq_refl) as H.
  simpl in H. rewrite H. rewrite !Rplus_0_l.
  pose proof (sum_squares_nonneg a) as Ha.
  pose proof (sum_squares_nonneg b) as Hb.
  destruct (Req_dec_T (sum_squares a) 0) as [Za|Za].
  { rewrite Za, sqrt_0, Rmult_0_l.
    destruct (Req_dec_T 0 0); [reflexivity | congruence]. }
  destruct (Req_dec_T (sum_squares b) 0) as [Zb|Zb].
  { rewrite Zb, sqrt_0, Rmult_0_r.
    destruct (Req_dec_T 0 0); [reflexivity | congruence]. }
  destruct (Req_dec_T (sqrt (sum_squares a) * sqrt (sum_squares b)) 0)
    as [Zd|Zd]; [|reflexivity].
  exfalso. apply Rmult_integral in Zd. destruct Zd as [Zd|Zd].
  - apply Za, sqrt_eq_0; assumption.
  - apply Zb, sqrt_eq_0; assumption.
Qed.

(** The score of the code is the blend, with the similarity taken on the
    values of the query vector in their own insertion order. *)
Lemma semScore_of_spec (qVec : JsMap R) (node : NodeRow) :
  semScore_of (qVecArr_of qVec) node
  = semantic_similarity (map_values qVec) (node_embedding node).
Proof.
  unfold semScore_of, node_embedding, semantic_similarity, qVecArr_of.
  destruct qVec as [|kv qv].
  - destruct (truthy (embedding node)); [|reflexivity].
    destruct (embedding node) as [e|]; [|reflexivity].
    destruct (JSON_parse_floats e); reflexivity.
  - destruct (truthy (embedding node)); [|reflexivity].
    destruct (embedding node) as [e|]; [|reflexivity].
    destruct (JSON_parse_floats e) as [emb|]; [|reflexivity].
    cbn [option_map]. rewrite cosineSimilarity_spec. reflexivity.
Qed.

(** The score of the code is the blend, with the similarity taken on the
    values of the query vector in their own insertion order. *)
Lemma score_node_blend (qVec : JsMap R) (node : NodeRow) (depth : nat) :
  score_node (qVecArr_of qVec) (node, depth)
  = blended_score
      (semantic_similarity (map_values qVec) (node_embedding node))
      node depth.
Proof.
  unfold score_node, blended_score. cbn [fst snd].
  rewrite semScore_of_spec.
  generalize (semantic_similarity (map_values qVec) (node_embedding node)).
  generalize (1 / (1 + INR depth * 0.5)).
  generalize (match pagerank node with Some p => Q2R p | None => 0 end).
  generalize (match task_weight node with Some t => Q2R t | None => 0.5 end).
  intros tw pr dp s. lra.
Qed.

Lemma semantic_similarity_cosine (a e : list R) :
  a <> [] -> (List.length a <= List.length e)%nat ->
  sum_squares a <> 0 -> sum_squares (firstn (List.length a) e) <> 0 ->
  semantic_similarity a (Some e)
  = dot a (firstn (List.length a) e)
    / (sqrt (sum_squares a) * sqrt (sum_squares (firstn (List.length a) e))).
Proof.
  intros Ha Hlen Hsa Hsb. unfold semantic_similarity.
  rewrite length_firstn, Nat.min_l by exact Hlen.
  rewrite Nat.eqb_refl. simpl negb. rewrite orb_false_r.
  destruct (Nat.eqb_spec (List.length a) 0) as [Z|Z].
  { apply length_zero_iff_nil in Z. contradiction. }
  destruct (Req_dec_T (sum_squares a) 0); [contradiction|].
  destruct (Req_dec_T (sum_squares (firstn (List.length a) e)) 0);
    [contradiction | reflexivity].
Qed.

Lemma scored_nodes_In (g : SQLiteGraph) (query : string)
  (cands : list (NodeRow * nat)) (x : Scored) :
  In x (scored_nodes g query cands) ->
  In (fst x) cands
  /\ snd x
     = score_node (qVecArr_of (buildQueryVector query (tfidfVocab g))) (fst x).
Proof.
  unfold scored_nodes. intros H.
  apply (Permutation_in _ (stable_sort_perm score_before _)) in H.
  apply in_map_iff in H. destruct H as (nd & <- & Hin). auto.
Qed.

(** C7, amended.  The score of a candidate is
    [0.40 * s + 0.25 * centrality + 0.25 * task_weight
     + 0.10 * (1 / (1 + depth * 0.5))], centrality defaulting to 0 and
    task_weight to 0.5; [s] is the cosine of the values of the query vector,
    read in the order in which the query vector received them (the first
    occurrence of each token in the query), and the leading components of
    the embedding; [s] is 0 without embedding, for an empty query vector,
    when the lengths of the two vectors differ (the embedding is shorter
    than the query vector) and for a zero norm. *)
Theorem blended_score_formula (g : SQLiteGraph) (query : string)
  (cands : list (NodeRow * nat)) :
  let qVec := buildQueryVector query (tfidfVocab g) in
  let a := map_values qVec in
  (forall x, In x (scored_nodes g query cands) ->
     In (fst x) cands
     /\ snd x = blended_score (semScore_of (qVecArr_of qVec) (fst (fst x)))
                  (fst (fst x)) (snd (fst x)))
  /\ a = flat_map
           (fun tc : string * nat =>
              match map_get (fst tc) (tfidfVocab g) with
              | Some row =>
                  [tf_weight (snd tc) (List.length (tokenize query))
                     (idf row)]
              | None => []
              end) (count_tokens (tokenize query))
  /\ (forall node,
        semScore_of (qVecArr_of qVec) node
        = semantic_similarity a (node_embedding node))
  /\ (forall node, embedding node = None ->
                   semScore_of (qVecArr_of qVec) node = 0)
  /\ (forall node, a = [] -> semScore_of (qVecArr_of qVec) node = 0)
  /\ (forall node e, node_embedding node = Some e ->
        List.length (firstn (List.length a) e) <> List.length a ->
        semScore_of (qVecArr_of qVec) node = 0)
  /\ (forall e : list R,
        List.length (firstn (List.length a) e) <> List.length a
        <-> (List.length e < List.length a)%nat)
  /\ (forall node e, node_embedding node = Some e ->
        sum_squares a = 0 \/ sum_squares (firstn (List.length a) e) = 0 ->
        semScore_of (qVecArr_of qVec) node = 0)
  /\ (forall node e, node_embedding node = Some e ->
        a <> [] -> (List.length a <= List.length e)%nat ->
        sum_squares a <> 0 -> sum_squares (firstn (List.length a) e) <> 0 ->
        semScore_of (qVecArr_of qVec) node
        = dot a (firstn (List.length a) e)
          / (sqrt (sum_squares a)
             * sqrt (sum_squares (firstn (List.length a) e)))).
Proof.
  intros qVec a.
  split.
  { intros [[node depth] sc] Hx. apply scored_nodes_In in Hx.
    destruct Hx as [Hin Hsc]. split; [exact Hin|].
    cbn [fst snd] in *. rewrite Hsc. fold qVec.
    rewrite score_node_blend, semScore_of_spec. reflexivity. }
  split.
  { subst a qVec. rewrite buildQueryVector_entries.
    unfold map_values. rewrite flat_map_concat_map, concat_map, map_map.
    rewrite flat_map_concat_map. f_equal. apply map_ext.
    intros tc. destruct (map_get (fst tc) (tfidfVocab g)); reflexivity. }
  split; [intros node; apply semScore_of_spec|].
  split.
  { intros node He. rewrite semScore_of_spec.
    unfold node_embedding. rewrite He. reflexivity. }
  split.
  { intros node Ha. rewrite semScore_of_spec. fold a. rewrite Ha.
    unfold semantic_similarity.
    destruct (node_embedding node); reflexivity. }
  split.
  { intros node e He Hlt. rewrite semScore_of_spec. fold a. rewrite He.
    unfold semantic_similarity.
    destruct (Nat.eqb_spec (List.length (firstn (List.length a) e))
                (List.length a)) as [E|E]; [contradiction|].
    simpl negb. rewrite orb_true_r. reflexivity. }
  split; [intros e; rewrite length_firstn; lia|].
  split.
  { intros node e He Hz. rewrite semScore_of_spec. fold a. rewrite He.
    unfold semantic_similarity.
    destruct ((List.length a =? 0)%nat
              || negb (List.length (firstn (List.length a) e)
                       =? List.length a)%nat); [reflexivity|].
    destruct (Req_dec_T (sum_squares a) 0); [reflexivity|].
    destruct (Req_dec_T (sum_squares (firstn (List.length a) e)) 0);
      [reflexivity|]. tauto. }
  intros node e He Ha Hlen Hsa Hsb. rewrite semScore_of_spec. fold a.
  rewrite He. apply semantic_similarity_cosine; assumption.
Qed.

(** C7, as stated, fails: the vocabulary lists [alpha] (idf 1) before
    [beta] (idf 2); the query "beta alpha" gives the vector
    [beta -> 2c, alpha -> c] with [c = log 2 / log 3]; against the embedding
    [[1, 0]] the code takes the cosine of [[2c, c]], whose numerator is
    [2c], where the values in vocabulary order, [[c, 2c]], give numerator
    [c] over the same norms. *)
Lemma similarity_not_in_vocab_order :
  let g := open_graph order_db in
  let node :=
    mkNodeRow "n" "n" None None None None None None None None
      (Some "[1,0]") None None in
  let qVec := buildQueryVector "beta alpha" (tfidfVocab g) in
  In node (nodes (db g))
  /\ map_keys (tfidfVocab g) = ["alpha"; "beta"]
  /\ map_keys qVec = ["beta"; "alpha"]
  /\ score_node (qVecArr_of qVec) (node, O)
     <> blended_score
          (semantic_similarity
             (values_in_vocab_order qVec (tfidfVocab g))
             (node_embedding node))
          node O.
Proof.
  intros g node qVec.
  assert (Hq : qVec = [("beta", tf_weight 1 2 2); ("alpha", tf_weight 1 2 1)]).
  { subst qVec. rewrite buildQueryVector_entries. reflexivity. }
  split; [left; reflexivity|]. split; [reflexivity|].
  split; [rewrite Hq; reflexivity|].
  rewrite score_node_blend.
  assert (Hv : values_in_vocab_order qVec (tfidfVocab g)
               = [tf_weight 1 2 1; tf_weight 1 2 2]).
  { rewrite Hq. reflexivity. }
  assert (He : node_embedding node = Some [Q2R 1; Q2R 0]) by reflexivity.
  rewrite Hv, He, Hq. unfold map_values. cbn [map snd].
  assert (Hc : 0 < ln 2 / ln 3).
  { apply Rdiv_lt_0_compat; rewrite <- ln_1; apply ln_increasing; lra. }
  assert (Ha : tf_weight 1 2 1 = ln 2 / ln 3).
  { unfold tf_weight. replace (1 + INR 1) with 2 by (simpl; lra).
    replace (1 + INR 2) with 3 by (simpl; lra).
    replace (Q2R 1) with 1 by (unfold Q2R; simpl; lra). lra. }
  assert (Hb : tf_weight 1 2 2 = 2 * (ln 2 / ln 3)).
  { unfold tf_weight. replace (1 + INR 1) with 2 by (simpl; lra).
    replace (1 + INR 2) with 3 by (simpl; lra).
    replace (Q2R 2) with 2 by (unfold Q2R; simpl; lra). lra. }
  rewrite Ha, Hb. set (c := ln 2 / ln 3) in *.
  replace (Q2R 1) with 1 by (unfold Q2R; simpl; lra).
  replace (Q2R 0) with 0 by (unfold Q2R; simpl; lra).
  assert (Hn1 : sum_squares [2 * c; c] = 5 * (c * c))
    by (unfold sum_squares; simpl; lra).
  assert (Hn2 : sum_squares [c; 2 * c] = 5 * (c * c))
    by (unfold sum_squares; simpl; lra).
  assert (Hn3 : sum_squares [1; 0] = 1) by (unfold sum_squares; simpl; lra).
  assert (Hpos : 0 < 5 * (c * c)) by nra.
  rewrite !semantic_similarity_cosine;
    cbn [List.length firstn]; rewrite ?Hn1, ?Hn2, ?Hn3;
    try lra; try discriminate; try (simpl; lia).
  assert (HD : 0 < sqrt (5 * (c * c)) * sqrt 1).
  { apply Rmult_lt_0_compat; apply sqrt_lt_R0; lra. }
  set (D := sqrt (5 * (c * c)) * sqrt 1) in *.
  replace (dot [2 * c; c] [1; 0]) with (2 * c) by (unfold dot; simpl; lra).
  replace (dot [c; 2 * c] [1; 0]) with c by (unfold dot; simpl; lra).
  unfold blended_score. cbn [pagerank task_weight].
  intros H.
  assert (E : 2 * c / D = c / D) by lra.
  apply (f_equal (fun x => x * D)) in E.
  unfold Rdiv in E. rewrite !Rmult_assoc, Rinv_l in E by lra. lra.
Qed.

Local Close Scope R_scope.

(** * Further properties *)

(** ** The tokenizer *)

Lemma is_token_char_lower (c : ascii) :
  is_token_char c = true -> lower_ascii c = c.
Proof.
  unfold is_token_char, lower_ascii. intros H.
  destruct ((65 <=? nat_of_ascii c)%nat && (nat_of_ascii c <=? 90)%nat)
    eqn:E; [|reflexivity].
  exfalso. apply andb_true_iff in E. destruct E as [E1 E2].
  apply Nat.leb_le in E1, E2.
  repeat (apply orb_true_iff in H; destruct H as [H | H]).
  - apply andb_true_iff in H. destruct H as [H _]. apply Nat.leb_le in H. lia.
  - apply andb_true_iff in H. destruct H as [_ H]. apply Nat.leb_le in H. lia.
  - apply Nat.eqb_eq in H. lia.
  - apply Nat.eqb_eq in H. lia.
Qed.

Lemma is_token_char_not_blank (c : ascii) :
  is_token_char c = true -> c <> " "%char.
Proof. intros H E. subst c. discriminate H. Qed.

Lemma blank_non_token_spec (c : ascii) :
  blank_non_token c = " "%char \/ is_token_char (blank_non_token c) = true.
Proof.
  unfold blank_non_token. destruct (is_token_char c) eqn:E; auto.
Qed.

(** Every character of every piece comes from the piece under
    construction or is a character of the text other than the blank. *)
Lemma split_blank_runs_chars (s : list ascii) :
  forall (cur : list ascii) (in_run : bool) (p : string) (c : ascii),
    In p (split_blank_runs cur in_run s) ->
    In c (list_ascii_of_string p) ->
    In c cur \/ (In c s /\ c <> " "%char).
Proof.
  induction s as [|c0 r IH]; intros cur in_run p c Hp Hc; simpl in Hp.
  - destruct Hp as [<- | []].
    rewrite list_ascii_of_string_of_list_ascii in Hc.
    left. apply in_rev. exact Hc.
  - destruct (Ascii.eqb_spec c0 " "%char) as [E|E].
    + destruct in_run.
      * destruct (IH _ _ _ _ Hp Hc) as [H | [H1 H2]]; [auto|].
        right. split; [right; exact H1 | exact H2].
      * destruct Hp as [<- | Hp].
        -- rewrite list_ascii_of_string_of_list_ascii in Hc.
           left. apply in_rev. exact Hc.
        -- destruct (IH _ _ _ _ Hp Hc) as [[] | [H1 H2]].
           right. split; [right; exact H1 | exact H2].
    + destruct (IH _ _ _ _ Hp Hc) as [[<- | H] | [H1 H2]].
      * right. split; [left; reflexivity | exact E].
      * left. exact H.
      * right. split; [right; exact H1 | exact H2].
Qed.

Lemma tokenize_In (text t : string) :
  In t (tokenize text) ->
  (2 <= String.length t)%nat
  /\ Forall (fun c => is_token_char c = true) (list_ascii_of_string t).
Proof.
  unfold tokenize. intros H. apply filter_In in H. destruct H as [Hp Hl].
  apply Nat.ltb_lt in Hl. split; [lia|].
  apply Forall_forall. intros c Hc.
  destruct (split_blank_runs_chars _ _ _ _ _ Hp Hc) as [[] | [Hin Hb]].
  apply in_map_iff in Hin. destruct Hin as (x & <- & _).
  destruct (blank_non_token_spec x) as [E | E]; [contradiction | exact E].
Qed.

(** A text without blanks is one piece. *)
Lemma split_blank_runs_no_blank (s : list ascii) :
  forall cur,
    Forall (fun c => c <> " "%char) s ->
    split_blank_runs cur false s = [string_of_list_ascii (rev cur ++ s)].
Proof.
  induction s as [|c r IH]; intros cur H; simpl.
  - rewrite app_nil_r. reflexivity.
  - inversion H as [|? ? Hc Hr]; subst.
    destruct (Ascii.eqb_spec c " "%char) as [E|E]; [contradiction|].
    rewrite IH by exact Hr. simpl. rewrite <- app_assoc. reflexivity.
Qed.

Lemma list_ascii_of_string_app (a b : string) :
  list_ascii_of_string (a ++ b)
  = list_ascii_of_string a ++ list_ascii_of_string b.
Proof.
  induction a as [|c a IH]; simpl; [reflexivity | rewrite IH; reflexivity].
Qed.

Lemma length_list_ascii (s : string) :
  List.length (list_ascii_of_string s) = String.length s.
Proof.
  induction s as [|c s IH]; simpl; [reflexivity | rewrite IH; reflexivity].
Qed.

(** Pieces without blanks, joined by single blanks, split back. *)
Lemma split_blank_runs_tokens (ts : list string) :
  Forall (fun t => t <> EmptyString
                   /\ Forall (fun c => c <> " "%char)
                        (list_ascii_of_string t)) ts ->
  forall (t : string) (cur : list ascii),
    Forall (fun c => c <> " "%char) (list_ascii_of_string t) ->
    split_blank_runs cur false (list_ascii_of_string (join " " (t :: ts)))
    = string_of_list_ascii (rev cur ++ list_ascii_of_string t) :: ts.
Proof.
  induction ts as [|t' r IH]; intros Hts t cur Ht.
  - simpl join. apply split_blank_runs_no_blank, Ht.
  - inversion Hts as [|? ? [Hne Hb] Hr]; subst.
    change (join " " (t :: t' :: r))
      with (t ++ " " ++ join " " (t' :: r))%string.
    rewrite list_ascii_of_string_app.
    revert cur. induction (list_ascii_of_string t) as [|c l IHl]; intros cur.
    + cbn [app]. rewrite app_nil_r.
      change (list_ascii_of_string (" " ++ join " " (t' :: r)))
        with (" "%char :: list_ascii_of_string (join " " (t' :: r))).
      cbn [split_blank_runs]. cbn [Ascii.eqb Bool.eqb]. f_equal.
      assert (Hj : exists c0 l0,
                 list_ascii_of_string (join " " (t' :: r)) = c0 :: l0
                 /\ c0 <> " "%char).
      { destruct t' as [|c0 t0]; [congruence|].
        inversion Hb as [|? ? Hc0 _]; subst.
        destruct r as [|t'' r']; simpl; eauto. }
      destruct Hj as (c0 & l0 & Hj & Hc0).
      pose proof (IH Hr t' [] Hb) as X. rewrite Hj in X |- *.
      cbn [split_blank_runs] in X |- *.
      destruct (Ascii.eqb_spec c0 " "%char) as [E|E]; [contradiction|].
      rewrite X. simpl. rewrite string_of_list_ascii_of_string. reflexivity.
    + inversion Ht as [|? ? Hc Hl]; subst. cbn [app split_blank_runs].
      destruct (Ascii.eqb_spec c " "%char) as [E|E]; [contradiction|].
      rewrite IHl by exact Hl. cbn [rev]. rewrite <- app_assoc. reflexivity.
Qed.

Lemma join_chars_Forall (P : ascii -> Prop) (sep : string) (ts : list string) :
  Forall P (list_ascii_of_string sep) ->
  Forall (fun t => Forall P (list_ascii_of_string t)) ts ->
  Forall P (list_ascii_of_string (join sep ts)).
Proof.
  intros Hs. induction ts as [|t r IH]; intros H; [constructor|].
  inversion H as [|? ? Ht Hr]; subst.
  destruct r as [|t' r']; [exact Ht|].
  change (join sep (t :: t' :: r'))
    with (t ++ sep ++ join sep (t' :: r'))%string.
  rewrite !list_ascii_of_string_app.
  apply Forall_app. split; [exact Ht|].
  apply Forall_app. split; [exact Hs | apply IH, Hr].
Qed.

Lemma map_id_Forall {A} (f : A -> A) (l : list A) :
  Forall (fun x => f x = x) l -> map f l = l.
Proof.
  induction 1 as [|x l Hx _ IH]; simpl; [reflexivity|].
  rewrite Hx, IH. reflexivity.
Qed.

(** Tokens joined by blanks tokenize back to themselves. *)
Lemma tokenize_join (ts : list string) :
  Forall (fun t => (2 <= String.length t)%nat
                   /\ Forall (fun c => is_token_char c = true)
                        (list_ascii_of_string t)) ts ->
  tokenize (join " " ts) = ts.
Proof.
  intros H. unfold tokenize.
  assert (Hc : Forall (fun c => c = " "%char \/ is_token_char c = true)
                 (list_ascii_of_string (join " " ts))).
  { apply join_chars_Forall.
    - repeat constructor.
    - eapply Forall_impl; [|exact H]. intros t [_ Ht].
      eapply Forall_impl; [|exact Ht]. auto. }
  rewrite (map_id_Forall lower_ascii).
  2:{ eapply Forall_impl; [|exact Hc].
      intros c [-> | Hc']; [reflexivity | apply is_token_char_lower, Hc']. }
  rewrite (map_id_Forall blank_non_token).
  2:{ eapply Forall_impl; [|exact Hc].
      intros c [-> | Hc']; [reflexivity|].
      unfold blank_non_token. rewrite Hc'. reflexivity. }
  destruct ts as [|t r]; [reflexivity|].
  inversion H as [|? ? [Hl Ht] Hr]; subst.
  assert (Hnb : forall t0,
             Forall (fun c => is_token_char c = true)
               (list_ascii_of_string t0) ->
             Forall (fun c => c <> " "%char) (list_ascii_of_string t0)).
  { intros t0 H0. eapply Forall_impl; [|exact H0].
    intros c. apply is_token_char_not_blank. }
  rewrite split_blank_runs_tokens.
  - cbn [rev app]. rewrite string_of_list_ascii_of_string.
    apply forallb_filter_id. apply forallb_forall.
    intros t0 Ht0.
    assert (Hin : In t0 (t :: r)) by exact Ht0.
    rewrite Forall_forall in H. destruct (H t0 Hin) as [Hl0 _].
    apply Nat.ltb_lt. lia.
  - eapply Forall_impl; [|exact Hr]. intros t0 [Hl0 Ht0].
    split; [|apply Hnb, Ht0].
    intros E. subst t0. simpl in Hl0. lia.
  - apply Hnb, Ht.
Qed.

(** X1.  Every token [tokenize] returns has two characters or more, all
    of them lower-case letters, digits, underscores or dots, and is a
    fixed point: tokenizing it gives the token alone. *)
Theorem tokenize_tokens_well_formed (text : string) :
  Forall (fun t => (2 <= String.length t)%nat
                   /\ Forall (fun c => is_token_char c = true)
                        (list_ascii_of_string t)
                   /\ tokenize t = [t]) (tokenize text).
Proof.
  apply Forall_forall. intros t Ht.
  destruct (tokenize_In text t Ht) as [Hl Hc].
  split; [exact Hl|]. split; [exact Hc|].
  apply (tokenize_join [t]). constructor; [auto | constructor].
Qed.

(** X2.  Tokenizing is idempotent: the tokens of a text, joined by blanks,
    tokenize to the same tokens in the same order. *)
Theorem tokenize_idempotent (text : string) :
  tokenize (join " " (tokenize text)) = tokenize text.
Proof.
  apply tokenize_join, Forall_forall. intros t Ht.
  apply (tokenize_In text t Ht).
Qed.

(** ** The token estimate, in integers *)

Lemma estimateTokens_closed (text : string) :
  estimateTokens text = ((2 * Z.of_nat (String.length text) + 6) / 7)%Z.
Proof.
  unfold estimateTokens, Qceiling, Qfloor, Qdiv, Qmult, Qinv, Qopp, inject_Z.
  cbn [Qnum Qden]. set (n := Z.of_nat (String.length text)).
  change (Z.pos (1 * 7)) with 7%Z.
  apply Z.div_unique with (r := (6 - (- (n * 2)) mod 7)%Z).
  - left. pose proof (Z.mod_pos_bound (- (n * 2)) 7 ltac:(lia)). lia.
  - pose proof (Z.div_mod (- (n * 2)) 7 ltac:(lia)). lia.
Qed.

(** X3.  The estimate is the least integer with seven tokens for every two
    characters: [2 * length <= 7 * estimate <= 2 * length + 6]; it is 0
    for the empty text only, and it never decreases when the text grows. *)
Theorem estimateTokens_bounds (text : string) :
  let n := Z.of_nat (String.length text) in
  (2 * n <= 7 * estimateTokens text <= 2 * n + 6)%Z
  /\ (estimateTokens text = 0%Z <-> text = EmptyString)
  /\ forall text',
       (String.length text <= String.length text')%nat ->
       (estimateTokens text <= estimateTokens text')%Z.
Proof.
  intros n. rewrite estimateTokens_closed. fold n.
  assert (Hn : (0 <= n)%Z) by (unfold n; lia).
  pose proof (Z.div_mod (2 * n + 6) 7 ltac:(lia)) as Hd.
  pose proof (Z.mod_pos_bound (2 * n + 6) 7 ltac:(lia)) as Hm.
  split; [lia|]. split.
  - split.
    + intros H. destruct text; [reflexivity|].
      unfold n in *. simpl String.length in *. lia.
    + intros ->. reflexivity.
  - intros text' Hl. rewrite estimateTokens_closed.
    apply Z.div_le_mono; lia.
Qed.




(** ** Bounds of the cosine and of the score *)

Local Open Scope R_scope.










Local Close Scope R_scope.

(** ** Bounds of the query weights *)

Local Open Scope R_scope.

Lemma log_tf_range (c n : nat) :
  (1 <= c <= n)%nat -> 0 < ln (1 + INR c) / ln (1 + INR n) <= 1.
Proof.
  intros [Hc Hn].
  assert (H1 : 1 <= INR c) by (apply (le_INR 1); exact Hc).
  assert (H2 : INR c <= INR n) by (apply le_INR; exact Hn).
  assert (Lc : 0 < ln (1 + INR c)).
  { rewrite <- ln_1. apply ln_increasing; lra. }
  assert (Ln : ln (1 + INR c) <= ln (1 + INR n)).
  { destruct (Req_dec (INR c) (INR n)) as [E|E].
    - rewrite E. lra.
    - apply Rlt_le, ln_increasing; lra. }
  split.
  - apply Rdiv_lt_0_compat; lra.
  - apply Rmult_le_reg_r with (ln (1 + INR n)); [lra|].
    unfold Rdiv. rewrite Rmult_assoc, Rinv_l by lra. lra.
Qed.

(** X7.  Every weight of the query vector is the inverse document
    frequency of its term scaled by a factor in (0, 1]: it lies between 0
    and the idf when the idf is not negative.  The vector has at most as
    many entries as the query has tokens. *)
Theorem buildQueryVector_weight_bounds (query : string)
  (vocab : JsMap TfidfVocabRow) :
  Forall (fun tw : string * R =>
            exists row tfv,
              map_get (fst tw) vocab = Some row
              /\ 0 < tfv <= 1
              /\ snd tw = tfv * Q2R (idf row)
              /\ ((0 <= idf row)%Q -> 0 <= snd tw <= Q2R (idf row)))
    (buildQueryVector query vocab)
  /\ (List.length (buildQueryVector query vocab)
      <= List.length (tokenize query))%nat.
Proof.
  rewrite buildQueryVector_entries. split.
  - apply Forall_forall. intros [t w] Hin.
    apply in_flat_map in Hin. destruct Hin as ([t' c] & Htc & Hin).
    cbn [fst snd] in Hin.
    destruct (map_get t' vocab) as [row|] eqn:E; [|destruct Hin].
    destruct Hin as [Heq | []]. inversion Heq; subst t' w. clear Heq.
    apply count_tokens_spec in Htc. destruct Htc as [Ht Hc].
    assert (Hr : (1 <= c <= List.length (tokenize query))%nat).
    { subst c. split.
      - apply (count_occ_In string_dec) in Ht. lia.
      - apply count_occ_bound. }
    pose proof (log_tf_range c _ Hr) as Htf.
    exists row, (ln (1 + INR c) / ln (1 + INR (List.length (tokenize query)))).
    cbn [fst snd]. split; [exact E|]. split; [exact Htf|].
    split; [reflexivity|].
    intros Hidf. apply Qle_Rle in Hidf. rewrite RMicromega.Q2R_0 in Hidf.
    unfold tf_weight. nra.
  - assert (Hl : forall l : list (string * nat),
               (List.length
                  (flat_map
                     (fun tc : string * nat =>
                        match map_get (fst tc) vocab with
                        | Some row =>
                            [(fst tc,
                              tf_weight (snd tc)
                                (List.length (tokenize query)) (idf row))]
                        | None => []
                        end) l) <= List.length l)%nat).
    { induction l as [|tc l IH]; simpl; [lia|].
      destruct (map_get (fst tc) vocab); simpl; lia. }
    eapply Nat.le_trans; [apply Hl|].
    pose proof (count_tokens_NoDup (tokenize query)) as Hnd.
    rewrite <- (length_map fst).
    apply NoDup_incl_length; [exact Hnd|].
    intros t Ht. apply in_map_iff in Ht. destruct Ht as ([t' c] & <- & Hin).
    apply count_tokens_spec in Hin. tauto.
Qed.

Local Close Scope R_scope.

(** ** What [queryContext] lists *)

(** The identifiers [queryContext] lists, whatever the seed: a prefix of
    the candidates in score order. *)
Lemma queryContext_ids_prefix
  (g : SQLiteGraph) (query : string) (seedNodeName : option string)
  (B : Z) (maxDepth maxNodes : nat) (seed : string) :
  _findSeedNode (db g) query seedNodeName = Some seed ->
  seed <> EmptyString ->
  let r := queryContext g query seedNodeName B maxDepth maxNodes in
  let sorted := scored_nodes g query (BFS_SQL (db g) seed maxDepth maxNodes) in
  exists k : nat,
    (k <= List.length sorted)%nat
    /\ node_ids r = map scored_id (firstn k sorted)
    /\ token_estimate r = total_cost (db g) (firstn k sorted)
    /\ seed_node r = Some seed
    /\ (forall j, (1 <= j <= k)%nat ->
          (total_cost (db g) (firstn j sorted) <= B)%Z)
    /\ ((k < List.length sorted)%nat ->
          (total_cost (db g) (firstn (S k) sorted) > B)%Z).
Proof.
  intros Hs Hne r sorted.
  destruct (queryContext_seeded g query seedNodeName B maxDepth maxNodes
              seed Hs Hne) as (Hi & Ht & Hsn & _).
  fold r in Hi, Ht, Hsn. fold sorted in Hi, Ht.
  destruct (assemble_prefix (db g) B sorted [] [] 0%Z)
    as (k & Hk & Heq & Hle & Hgt).
  rewrite Heq in Hi, Ht. simpl in Hi, Ht.
  exists k. split; [exact Hk|]. split; [exact Hi|]. split; [exact Ht|].
  split; [exact Hsn|].
  split; [intros j Hj; specialize (Hle j Hj); lia|].
  intros Hlt. specialize (Hgt Hlt). lia.
Qed.

Lemma scored_nodes_ids (g : SQLiteGraph) (query : string)
  (cands : list (NodeRow * nat)) :
  Permutation (map scored_id (scored_nodes g query cands))
    (map (fun x => node_id (fst x)) cands).
Proof.
  replace (map scored_id (scored_nodes g query cands))
    with (map (fun x : NodeRow * nat => node_id (fst x))
            (map fst (scored_nodes g query cands)))
    by (rewrite map_map; reflexivity).
  apply Permutation_map, scored_nodes_perm.
Qed.

Lemma scored_nodes_length (g : SQLiteGraph) (query : string)
  (cands : list (NodeRow * nat)) :
  List.length (scored_nodes g query cands) = List.length cands.
Proof.
  rewrite <- (Permutation_length (scored_nodes_perm g query cands)).
  rewrite length_map. reflexivity.
Qed.

(** X8.  On a nodes table with unique identifiers, the identifiers
    [queryContext] lists are distinct, at most [maxNodes] many, and each is
    a stored node that a directed walk of at most [maxDepth] edges reaches
    from the seed the result names. *)
Theorem queryContext_lists_reachable_nodes
  (g : SQLiteGraph) (query : string) (seedNodeName : option string)
  (B : Z) (maxDepth maxNodes : nat) :
  NoDup (map node_id (nodes (db g))) ->
  let r := queryContext g query seedNodeName B maxDepth maxNodes in
  NoDup (node_ids r)
  /\ (List.length (node_ids r) <= maxNodes)%nat
  /\ forall id, In id (node_ids r) ->
       exists seed n k,
         seed_node r = Some seed
         /\ In n (nodes (db g)) /\ node_id n = id
         /\ (k <= maxDepth)%nat /\ walk (edges (db g)) seed k id.
Proof.
  intros Hnd r.
  destruct (_findSeedNode (db g) query seedNodeName) as [[|c s]|] eqn:E.
  - subst r. rewrite queryContext_no_seed by (right; exact E). simpl.
    split; [constructor|]. split; [lia | intros id []].
  - destruct (queryContext_ids_prefix g query seedNodeName B maxDepth
                maxNodes (String c s) E ltac:(discriminate))
      as (k & Hk & Hi & _ & Hsn & _).
    fold r in Hi, Hsn.
    set (seed := String c s) in *.
    set (cands := BFS_SQL (db g) seed maxDepth maxNodes) in *.
    set (sorted := scored_nodes g query cands) in *.
    assert (Hcn : NoDup (map (fun x => node_id (fst x)) cands)).
    { unfold cands, BFS_SQL. rewrite <- firstn_map.
      apply NoDup_firstn, bfs_ordered_NoDup, Hnd. }
    assert (Hsn' : NoDup (map scored_id sorted)).
    { eapply Permutation_NoDup; [|exact Hcn].
      apply Permutation_sym, scored_nodes_ids. }
    split; [rewrite Hi, <- firstn_map; apply NoDup_firstn, Hsn'|].
    split.
    + rewrite Hi, length_map, length_firstn.
      assert (Hl : (List.length sorted <= maxNodes)%nat).
      { unfold sorted. rewrite scored_nodes_length.
        unfold cands, BFS_SQL. rewrite length_firstn. apply Nat.le_min_l. }
      apply Nat.le_trans with (List.length sorted);
        [apply Nat.le_min_r | exact Hl].
    + intros id Hin. rewrite Hi in Hin. apply in_map_iff in Hin.
      destruct Hin as (x & Hid & Hx). apply firstn_In in Hx.
      apply scored_nodes_In in Hx. destruct Hx as [Hx _].
      unfold cands, BFS_SQL in Hx. apply firstn_In in Hx.
      destruct x as [[n k0] sc]. cbn [fst] in Hx.
      apply bfs_ordered_In in Hx. destruct Hx as (Hn & Hk0 & Hw & _).
      exists seed, n, k0. unfold scored_id in Hid. cbn [fst] in Hid.
      subst id. repeat split; assumption.
  - subst r. rewrite queryContext_no_seed by (left; exact E). simpl.
    split; [constructor|]. split; [lia | intros id []].
Qed.

Lemma queryContext_lists_reachable_fixture :
  NoDup
    (node_ids (queryContext fixture "export to sqlite" None 200 3 80)).
Proof.
  apply (queryContext_lists_reachable_nodes
           fixture "export to sqlite" None 200 3 80).
  simpl. repeat constructor; simpl; intuition discriminate.
Defined.

(** X9.  A larger budget only extends the list: for [B <= B'] the nodes
    listed under [B] are a prefix of those listed under [B'], with the same
    seed and no larger estimate. *)
Theorem queryContext_budget_monotone
  (g : SQLiteGraph) (query : string) (seedNodeName : option string)
  (B B' : Z) (maxDepth maxNodes : nat) :
  (B <= B')%Z ->
  let r := queryContext g query seedNodeName B maxDepth maxNodes in
  let r' := queryContext g query seedNodeName B' maxDepth maxNodes in
  seed_node r = seed_node r'
  /\ (token_estimate r <= token_estimate r')%Z
  /\ exists k, node_ids r = firstn k (node_ids r').
Proof.
  intros HB r r'.
  destruct (_findSeedNode (db g) query seedNodeName) as [[|c s]|] eqn:E.
  - subst r r'. rewrite !queryContext_no_seed by (right; exact E). simpl.
    split; [reflexivity|]. split; [lia | exists O; reflexivity].
  - destruct (queryContext_ids_prefix g query seedNodeName B maxDepth
                maxNodes (String c s) E ltac:(discriminate))
      as (k & Hk & Hi & Ht & Hsn & Hle & Hgt).
    destruct (queryContext_ids_prefix g query seedNodeName B' maxDepth
                maxNodes (String c s) E ltac:(discriminate))
      as (k' & Hk' & Hi' & Ht' & Hsn' & Hle' & Hgt').
    fold r in Hi, Ht, Hsn. fold r' in Hi', Ht', Hsn'.
    set (sorted := scored_nodes g query
                     (BFS_SQL (db g) (String c s) maxDepth maxNodes)) in *.
    assert (Hkk : (k <= k')%nat).
    { destruct (Nat.le_gt_cases k k') as [H|H]; [exact H|].
      specialize (Hgt' ltac:(lia)).
      specialize (Hle (S k') ltac:(lia)). lia. }
    split; [congruence|]. split.
    + rewrite Ht, Ht'.
      replace (firstn k sorted) with (firstn k (firstn k' sorted))
        by (rewrite firstn_firstn, Nat.min_l by exact Hkk; reflexivity).
      apply total_cost_firstn_le.
    + exists k. rewrite Hi, Hi', <- firstn_map.
      rewrite <- (firstn_map scored_id k' sorted).
      rewrite firstn_firstn, Nat.min_l by exact Hkk. reflexivity.
  - subst r r'. rewrite !queryContext_no_seed by (left; exact E). simpl.
    split; [reflexivity|]. split; [lia | exists O; reflexivity].
Qed.

Lemma queryContext_budget_monotone_fixture :
  exists k,
    node_ids (queryContext fixture "export to sqlite" None 200 3 80)
    = firstn k
        (node_ids (queryContext fixture "export to sqlite" None 6000 3 80)).
Proof.
  apply (queryContext_budget_monotone
           fixture "export to sqlite" None 200 6000 3 80).
  discriminate.
Defined.

(** X10.  When the budget covers the blocks of all the rows of the
    traversal, [queryContext] lists every one of them, in score order, and
    its estimate is their total cost. *)
Theorem queryContext_sufficient_budget
  (g : SQLiteGraph) (query : string) (seedNodeName : option string)
  (B : Z) (maxDepth maxNodes : nat) (seed : string) :
  _findSeedNode (db g) query seedNodeName = Some seed ->
  seed <> EmptyString ->
  (blocks_cost (db g) (map fst (BFS_SQL (db g) seed maxDepth maxNodes))
   <= B)%Z ->
  let r := queryContext g query seedNodeName B maxDepth maxNodes in
  let cands := BFS_SQL (db g) seed maxDepth maxNodes in
  node_ids r = map scored_id (scored_nodes g query cands)
  /\ Permutation (node_ids r) (map (fun x => node_id (fst x)) cands)
  /\ token_estimate r = blocks_cost (db g) (map fst cands).
Proof.
  intros Hs Hne Hbud r cands.
  destruct (queryContext_ids_prefix g query seedNodeName B maxDepth maxNodes
              seed Hs Hne) as (k & Hk & Hi & Ht & _ & _ & Hgt).
  fold r in Hi, Ht. fold cands in Hk, Hi, Ht, Hgt.
  set (sorted := scored_nodes g query cands) in *.
  assert (Hall : total_cost (db g) sorted = blocks_cost (db g) (map fst cands)).
  { rewrite total_cost_blocks. apply blocks_cost_perm.
    rewrite <- map_map. apply Permutation_map, scored_nodes_perm. }
  assert (Hkl : k = List.length sorted).
  { destruct (Nat.eq_dec k (List.length sorted)) as [E|E]; [exact E|].
    specialize (Hgt ltac:(lia)).
    pose proof (total_cost_firstn_le (db g) sorted (S k)).
    fold cands in Hbud. lia. }
  rewrite Hkl, firstn_all in Hi, Ht.
  split; [exact Hi|]. split.
  - rewrite Hi. apply scored_nodes_ids.
  - rewrite Ht. exact Hall.
Qed.

Lemma queryContext_sufficient_budget_fixture :
  Permutation
    (node_ids
       (queryContext fixture "traverse the graph" (Some "query_context")
          6000 3 80))
    (map (fun x => node_id (fst x))
       (BFS_SQL (db fixture) "query_context" 3 80)).
Proof.
  apply (queryContext_sufficient_budget fixture "traverse the graph"
           (Some "query_context") 6000 3 80 "query_context").
  - reflexivity.
  - discriminate.
  - vm_compute. discriminate.
Defined.

(** X11.  On a snapshot without nodes, [queryContext] answers every
    query, seed name and budget with the fixed no-data result: no seed, no
    node, estimate 0. *)
Theorem queryContext_empty_snapshot
  (g : SQLiteGraph) (query : string) (seedNodeName : option string)
  (B : Z) (maxDepth maxNodes : nat) :
  nodes (db g) = [] ->
  queryContext g query seedNodeName B maxDepth maxNodes
  = mkContextResult ("# No graph data available." ++ newline)%string
      [] 0%Z None None.
Proof.
  intros Hn. apply queryContext_no_seed. left.
  apply findSeedNode_none_iff, Hn.
Qed.

Lemma queryContext_empty_snapshot_example :
  node_ids
    (queryContext (open_graph (mkDb [] [] [] 0 None (fun _ => FtsThrows)))
       "do something" (Some "zzz_nonexistent_zzz") 6000 3 80)
  = [].
Proof.
  rewrite (queryContext_empty_snapshot
             (open_graph (mkDb [] [] [] 0 None (fun _ => FtsThrows)))
             "do something" (Some "zzz_nonexistent_zzz") 6000 3 80 eq_refl).
  reflexivity.
Defined.

(** ** The term-overlap tier of the seed resolver *)

Lemma overlap_step_score (tokens : list string) (best : Q * option string)
  (row : NodeRow) :
  overlap_step tokens best row
  = if Qltb (fst best) (overlap_score tokens row)
    then (overlap_score tokens row, Some (node_id row))
    else best.
Proof. reflexivity. Qed.

(** The loop keeps the first row of strictly largest score above the
    starting score, if there is one. *)
Lemma overlap_fold_spec (tokens : list string) (rows : list NodeRow) :
  forall (b : Q) (o : option string),
    (fold_left (overlap_step tokens) rows (b, o) = (b, o)
     /\ Forall (fun r => (overlap_score tokens r <= b)%Q) rows)
    \/ exists pre row post,
         rows = pre ++ row :: post
         /\ fold_left (overlap_step tokens) rows (b, o)
            = (overlap_score tokens row, Some (node_id row))
         /\ (b < overlap_score tokens row)%Q
         /\ Forall (fun r => (overlap_score tokens r
                              < overlap_score tokens row)%Q) pre
         /\ Forall (fun r => (overlap_score tokens r
                              <= overlap_score tokens row)%Q) post.
Proof.
  induction rows as [|r0 rest IH]; intros b o.
  - left. split; [reflexivity | constructor].
  - cbn [fold_left]. rewrite overlap_step_score. cbn [fst].
    destruct (Qltb b (overlap_score tokens r0)) eqn:E.
    + apply Qltb_true in E.
      destruct (IH (overlap_score tokens r0) (Some (node_id r0)))
        as [[Heq Hall] | (pre & row & post & Hrows & Heq & Hlt & Hpre & Hpost)].
      * right. exists [], r0, rest.
        split; [reflexivity|]. split; [exact Heq|]. split; [exact E|].
        split; [constructor | exact Hall].
      * right. exists (r0 :: pre), row, post.
        split; [rewrite Hrows; reflexivity|]. split; [exact Heq|].
        split; [eapply Qlt_trans; eassumption|].
        split; [constructor; assumption | exact Hpost].
    + apply Qltb_false in E.
      destruct (IH b o)
        as [[Heq Hall] | (pre & row & post & Hrows & Heq & Hlt & Hpre & Hpost)].
      * left. split; [exact Heq | constructor; assumption].
      * right. exists (r0 :: pre), row, post.
        split; [rewrite Hrows; reflexivity|]. split; [exact Heq|].
        split; [exact Hlt|].
        split; [constructor; [eapply Qle_lt_trans; eassumption | exact Hpre]
               | exact Hpost].
Qed.

(** X12.  Without a match by name and without a full-text hit, the seed
    is decided among the 200 rows of highest centrality: if one of them has
    a positive overlap score, the seed is the first row of the largest
    score (when its identifier is not empty); if none has, the seed is the
    first row by descending centrality. *)
Theorem findSeedNode_overlap_tier (d : Db) (query : string)
  (seedNodeName : option string) :
  (forall s, seedNodeName = Some s ->
             find (fun n => String.eqb (name n) s) (nodes d) = None) ->
  fts_first_hit d (join " OR " (firstn 10 (tokenize query))) = None ->
  let rows := firstn 200 (order_by_pagerank_desc (nodes d)) in
  let score := overlap_score (tokenize query) in
  (exists pre row post,
     rows = pre ++ row :: post
     /\ (0 < score row)%Q
     /\ Forall (fun r => (score r < score row)%Q) pre
     /\ Forall (fun r => (score r <= score row)%Q) post
     /\ (node_id row <> EmptyString ->
         _findSeedNode d query seedNodeName = Some (node_id row)))
  \/ (Forall (fun r => (score r <= 0)%Q) rows
      /\ _findSeedNode d query seedNodeName
         = option_map node_id (hd_error (order_by_pagerank_desc (nodes d)))).
Proof.
  intros Hname Hfts rows score.
  assert (X : (if truthy seedNodeName
               then match seedNodeName with
                    | Some s =>
                        find (fun n => String.eqb (name n) s) (nodes d)
                    | None => None
                    end
               else None) = None).
  { destruct seedNodeName as [s|]; [|reflexivity].
    rewrite (Hname s eq_refl). destruct (truthy (Some s)); reflexivity. }
  assert (Y : (if truthy (Some (join " OR " (firstn 10 (tokenize query))))
               then fts_first_hit d (join " OR " (firstn 10 (tokenize query)))
               else None) = None).
  { destruct (truthy (Some (join " OR " (firstn 10 (tokenize query)))));
    [exact Hfts | reflexivity]. }
  destruct (overlap_fold_spec (tokenize query) rows 0%Q None)
    as [[Heq Hall] | (pre & row & post & Hrows & Heq & Hlt & Hpre & Hpost)].
  - right. split; [exact Hall|].
    unfold _findSeedNode. rewrite X, Y. fold rows. rewrite Heq. simpl.
    destruct (order_by_pagerank_desc (nodes d)); reflexivity.
  - left. exists pre, row, post.
    split; [exact Hrows|]. split; [exact Hlt|].
    split; [exact Hpre|]. split; [exact Hpost|].
    intros Hid. unfold _findSeedNode. rewrite X, Y. fold rows. rewrite Heq.
    cbn [snd]. destruct (node_id row); [congruence | reflexivity].
Qed.

Lemma findSeedNode_overlap_tier_fixture :
  fts_first_hit fixture_db
    (join " OR " (firstn 10 (tokenize "export to sqlite"))) = None
  /\ let rows := firstn 200 (order_by_pagerank_desc (nodes fixture_db)) in
     let score := overlap_score (tokenize "export to sqlite") in
     (exists pre row post,
        rows = pre ++ row :: post
        /\ (0 < score row)%Q
        /\ Forall (fun r => (score r < score row)%Q) pre
        /\ Forall (fun r => (score r <= score row)%Q) post
        /\ (node_id row <> EmptyString ->
            _findSeedNode fixture_db "export to sqlite" None
            = Some (node_id row)))
     \/ (Forall (fun r => (score r <= 0)%Q) rows
         /\ _findSeedNode fixture_db "export to sqlite" None
            = option_map node_id
                (hd_error (order_by_pagerank_desc (nodes fixture_db)))).
Proof.
  split; [reflexivity|].
  apply (findSeedNode_overlap_tier fixture_db "export to sqlite" None).
  - intros s Hs. discriminate Hs.
  - reflexivity.
Defined.

(** ** Task traces: writing and reading back *)

Lemma parse_string_body_escape (c : ascii) (rest : list ascii) :
  parse_string_body (json_escape c ++ rest)
  = cons_unit (N_of_ascii c) (parse_string_body rest).
Proof.
  destruct c as [b0 b1 b2 b3 b4 b5 b6 b7].
  destruct b0, b1, b2, b3, b4, b5, b6, b7; reflexivity.
Qed.

Lemma parse_string_body_json (cs rest : list ascii) :
  parse_string_body (flat_map json_escape cs ++ "034"%char :: rest)
  = Some (map N_of_ascii cs, rest).
Proof.
  induction cs as [|c cs IH].
  - reflexivity.
  - cbn [flat_map map]. rewrite <- app_assoc, parse_string_body_escape, IH.
    reflexivity.
Qed.

Lemma json_string_chars (s : string) :
  list_ascii_of_string (json_string s)
  = "034"%char
    :: flat_map json_escape (list_ascii_of_string s) ++ ["034"%char].
Proof.
  unfold json_string. rewrite list_ascii_of_string_of_list_ascii.
  reflexivity.
Qed.

Lemma parse_value_json_string (f : nat) (s : string) (rest : list ascii) :
  (1 <= f)%nat ->
  parse_value f (list_ascii_of_string (json_string s) ++ rest)
  = Some (JString (code_units s), rest).
Proof.
  intros Hf. destruct f as [|f]; [lia|].
  rewrite json_string_chars. cbn [parse_value app skip_ws is_ws].
  change (is_ws "034"%char) with false. cbv iota.
  change (Ascii.eqb "034"%char "034"%char) with true. cbv iota.
  rewrite <- app_assoc. cbn [app].
  rewrite parse_string_body_json. reflexivity.
Qed.

Lemma parse_array_elements_strings (l : list string) :
  forall (s : string) (f : nat) (rest : list ascii),
    (List.length l + 2 <= f)%nat ->
    parse_array_elements f
      (list_ascii_of_string (join "," (map json_string (s :: l)))
       ++ "]"%char :: rest)
    = Some (map (fun x => JString (code_units x)) (s :: l), rest).
Proof.
  induction l as [|t l IH]; intros s f rest Hf.
  - destruct f as [|f]; [simpl in Hf; lia|].
    cbn [map join parse_array_elements].
    rewrite parse_value_json_string by (simpl in Hf; lia). reflexivity.
  - destruct f as [|f]; [simpl in Hf; lia|].
    change (join "," (map json_string (s :: t :: l)))
      with (json_string s ++ "," ++ join "," (map json_string (t :: l)))%string.
    rewrite !list_ascii_of_string_app. rewrite <- !app_assoc.
    cbn [parse_array_elements].
    rewrite parse_value_json_string by (simpl in Hf; lia).
    change (list_ascii_of_string ",") with [","%char]. cbn [app skip_ws].
    change (is_ws ","%char) with false. cbv iota.
    change (Ascii.eqb ","%char ","%char) with true. cbv iota.
    rewrite IH by (simpl in Hf |- *; lia).
    reflexivity.
Qed.

Lemma join_json_string_length (l : list string) :
  (2 * List.length l
   <= List.length (list_ascii_of_string (join "," (map json_string l))))%nat.
Proof.
  induction l as [|s l IH]; [simpl; lia|].
  destruct l as [|t l].
  - cbn [map join]. rewrite json_string_chars.
    cbn [List.length]. rewrite length_app. cbn [List.length]. lia.
  - change (join "," (map json_string (s :: t :: l)))
      with (json_string s ++ "," ++ join "," (map json_string (t :: l)))%string.
    rewrite !list_ascii_of_string_app, !length_app, json_string_chars.
    cbn [List.length] in IH |- *. rewrite length_app. cbn [List.length].
    lia.
Qed.

(** [JSON.parse] undoes [JSON.stringify] on an array of strings. *)
Lemma JSON_parse_stringify (l : list string) :
  JSON_parse (JSON_stringify l) = Some (json_of_strings l).
Proof.
  destruct l as [|s l]; [reflexivity|].
  unfold JSON_parse, JSON_stringify, json_of_strings.
  rewrite !list_ascii_of_string_app.
  change (list_ascii_of_string "[") with ["["%char].
  change (list_ascii_of_string "]") with ["]"%char].
  pose proof (join_json_string_length (s :: l)) as Hlen.
  set (body := list_ascii_of_string (join "," (map json_string (s :: l))))
    in *.
  assert (Hb : exists r, body = "034"%char :: r).
  { subst body. destruct l as [|t l].
    - cbn [map join]. rewrite json_string_chars. eexists. reflexivity.
    - change (join "," (map json_string (s :: t :: l)))
        with (json_string s ++ ","
              ++ join "," (map json_string (t :: l)))%string.
      rewrite list_ascii_of_string_app, json_string_chars.
      eexists. reflexivity. }
  destruct Hb as [r Hr].
  cbn [app List.length].
  replace (2 * S (List.length (body ++ ["]"%char])) + 1)%nat
    with (S (2 * S (List.length (body ++ ["]"%char])))) by lia.
  cbn [parse_value skip_ws]. change (is_ws "["%char) with false. cbv iota.
  change (Ascii.eqb "["%char "034"%char) with false. cbv iota.
  change (Ascii.eqb "["%char "["%char) with true. cbv iota.
  assert (Hs : skip_ws (body ++ ["]"%char]) = "034"%char :: r ++ ["]"%char]).
  { rewrite Hr. reflexivity. }
  rewrite Hs. change (Ascii.eqb "034"%char "]"%char) with false. cbv iota.
  rewrite (parse_array_elements_strings l s _ []).
  - reflexivity.
  - fold body. rewrite length_app. simpl in Hlen |- *. lia.
Qed.

Lemma order_by_trace_id_desc_newest (rows : list TaskTraceRow)
  (row : TaskTraceRow) :
  (forall r, In r rows -> (trace_id r < trace_id row)%Z) ->
  order_by_trace_id_desc (rows ++ [row])
  = row :: order_by_trace_id_desc rows.
Proof.
  unfold order_by_trace_id_desc, stable_sort.
  induction rows as [|x rows IH]; intros H.
  - reflexivity.
  - cbn [app fold_right]. rewrite IH by (intros r Hr; apply H; right; exact Hr).
    cbn [insert_sorted].
    assert (E : (trace_id x <? trace_id row)%Z = true).
    { apply Z.ltb_lt, H. left. reflexivity. }
    rewrite E. reflexivity.
Qed.

Lemma next_trace_id_above (d : Db) :
  (task_traces_seq d < next_trace_id d)%Z
  /\ forall r, In r (task_traces d) -> (trace_id r < next_trace_id d)%Z.
Proof.
  unfold next_trace_id.
  destruct (fold_max_ge (map trace_id (task_traces d)) (task_traces_seq d))
    as [H1 H2].
  split; [lia|]. intros r Hr.
  specialize (H2 (trace_id r) (in_map trace_id _ _ Hr)). lia.
Qed.

(** X13.  A trace written by [addTaskTrace] is the first entry of the
    history read afterwards, with the query, the node list, the polarity,
    the session and the time as given; the earlier history follows it. *)
Theorem addTaskTrace_then_getTaskHistory (g g' : SQLiteGraph)
  (now q : string) (trace_nodes : list string) (p : Q)
  (sessionId : option string) (id : Z) (n : Z) :
  addTaskTrace g now q trace_nodes p sessionId = (inr id, g') ->
  (0 < n)%Z ->
  getTaskHistory g' n
  = mkTaskTrace id (Some q) (json_of_strings trace_nodes) p sessionId
      (Some now)
    :: getTaskHistory g (n - 1).
Proof.
  unfold addTaskTrace. intros H Hn.
  destruct (Qltb p (-1) || Qltb 1 p); [discriminate H|].
  injection H as Hid Hg. subst g'. unfold getTaskHistory. cbn [db task_traces].
  rewrite order_by_trace_id_desc_newest.
  2:{ intros r Hr. cbn [trace_id]. apply next_trace_id_above, Hr. }
  unfold sql_limit.
  destruct (n <? 0)%Z eqn:E1; [apply Z.ltb_lt in E1; lia|].
  destruct (n - 1 <? 0)%Z eqn:E2; [apply Z.ltb_lt in E2; lia|].
  replace (Z.to_nat n) with (S (Z.to_nat (n - 1))) by lia.
  cbn [firstn map trace_id query nodes_json polarity session_id created_at].
  unfold parse_nodes_json at 1. rewrite JSON_parse_stringify, Hid.
  reflexivity.
Qed.

Lemma addTaskTrace_then_getTaskHistory_fixture :
  getTaskHistory
    (snd (addTaskTrace fixture "2024-01-01T00:00:00.000Z" "fix the parser"
            ["parse_file"; "a\b"] (1 # 2) None)) 1
  = [mkTaskTrace 1 (Some "fix the parser")
       (json_of_strings ["parse_file"; "a\b"]) (1 # 2) None
       (Some "2024-01-01T00:00:00.000Z")].
Proof.
  exact (addTaskTrace_then_getTaskHistory fixture _
           "2024-01-01T00:00:00.000Z" "fix the parser"
           ["parse_file"; "a\b"] (1 # 2) None 1 1 eq_refl eq_refl).
Defined.

Lemma StronglySorted_app_cross {A} (R : A -> A -> Prop) (l1 l2 : list A) :
  StronglySorted R (l1 ++ l2) ->
  forall a b, In a l1 -> In b l2 -> R a b.
Proof.
  induction l1 as [|x l1 IH]; intros H a b Ha Hb; [destruct Ha|].
  cbn [app] in H. apply StronglySorted_inv in H. destruct H as [Hs Hall].
  destruct Ha as [<- | Ha].
  - rewrite Forall_forall in Hall. apply Hall, in_or_app. right. exact Hb.
  - exact (IH Hs a b Ha Hb).
Qed.

Lemma StronglySorted_firstn {A} (R : A -> A -> Prop) (k : nat) (l : list A) :
  StronglySorted R l -> StronglySorted R (firstn k l).
Proof.
  revert k. induction l as [|x l IH]; intros k H.
  - rewrite firstn_nil. constructor.
  - destruct k as [|k]; [constructor|].
    apply StronglySorted_inv in H. destruct H as [Hs Hall].
    cbn [firstn]. constructor; [apply IH, Hs|].
    rewrite Forall_forall in *. intros y Hy. apply Hall.
    rewrite <- (firstn_skipn k l). apply in_or_app. left. exact Hy.
Qed.

Lemma StronglySorted_map {A B} (f : A -> B) (R : B -> B -> Prop)
  (l : list A) :
  StronglySorted (fun a b => R (f a) (f b)) l -> StronglySorted R (map f l).
Proof.
  induction 1 as [|x l Hs IH Hall]; cbn [map]; constructor; [exact IH|].
  rewrite Forall_forall in *. intros y Hy.
  apply in_map_iff in Hy. destruct Hy as (z & <- & Hz). apply Hall, Hz.
Qed.

(** With distinct identifiers the rows come out strictly descending. *)
Lemma order_by_trace_id_desc_sorted (rows : list TaskTraceRow) :
  NoDup (map trace_id rows) ->
  StronglySorted (fun a b => (trace_id b < trace_id a)%Z)
    (order_by_trace_id_desc rows).
Proof.
  intros Hnd.
  assert (Hp : Permutation (order_by_trace_id_desc rows) rows)
    by apply stable_sort_perm.
  assert (Hnd' : NoDup (map trace_id (order_by_trace_id_desc rows))).
  { eapply Permutation_NoDup; [|exact Hnd].
    apply Permutation_map, Permutation_sym, Hp. }
  assert (Hs : StronglySorted (fun a b => (trace_id b <= trace_id a)%Z)
                 (order_by_trace_id_desc rows)).
  { apply Sorted_StronglySorted; [intros a b c; lia|].
    unfold order_by_trace_id_desc.
    eapply Sorted_ind with
      (P := fun l => Sorted (fun a b => (trace_id b <= trace_id a)%Z) l);
      [constructor | | apply stable_sort_sorted].
    - intros a l _ IH Hhd. constructor; [exact IH|].
      destruct Hhd as [|b l Hb]; constructor.
      apply Z.ltb_ge in Hb. exact Hb.
    - intros a b Hab. apply Z.ltb_lt in Hab. apply Z.ltb_ge. lia. }
  clear Hp Hnd. induction Hs as [|x l Hs IH Hall]; [constructor|].
  cbn [map] in Hnd'. apply NoDup_cons_iff in Hnd'. destruct Hnd' as [Hx Hl].
  constructor; [apply IH, Hl|].
  rewrite Forall_forall in *. intros y Hy.
  specialize (Hall y Hy).
  assert (trace_id y <> trace_id x).
  { intros E. apply Hx. rewrite <- E. apply in_map, Hy. }
  lia.
Qed.

Lemma sql_limit_split {A} (n : Z) (l : list A) :
  exists rest, l = sql_limit n l ++ rest.
Proof.
  unfold sql_limit. destruct (n <? 0)%Z.
  - exists []. rewrite app_nil_r. reflexivity.
  - exists (skipn (Z.to_nat n) l). rewrite firstn_skipn. reflexivity.
Qed.

(** X14.  The history lists the stored traces of largest identifier,
    newest first: with distinct identifiers, the entries are strictly
    descending, as many as the limit allows (a negative limit allows all),
    each one a stored row, and a stored row that is left out is older than
    every entry. *)
Theorem getTaskHistory_newest_first (g : SQLiteGraph) (n : Z) :
  NoDup (map trace_id (task_traces (db g))) ->
  let h := getTaskHistory g n in
  List.length h = List.length (sql_limit n (task_traces (db g)))
  /\ StronglySorted (fun a b => (tt_trace_id b < tt_trace_id a)%Z) h
  /\ (forall t, In t h ->
        exists r, In r (task_traces (db g))
                  /\ t = mkTaskTrace (trace_id r) (query r)
                           (parse_nodes_json (nodes_json r)) (polarity r)
                           (session_id r) (created_at r))
  /\ (forall r, In r (task_traces (db g)) ->
        ~ In (trace_id r) (map tt_trace_id h) ->
        forall t, In t h -> (trace_id r < tt_trace_id t)%Z).
Proof.
  intros Hnd h. subst h. unfold getTaskHistory.
  set (conv := fun r => mkTaskTrace (trace_id r) (query r)
                          (parse_nodes_json (nodes_json r)) (polarity r)
                          (session_id r) (created_at r)).
  set (sorted := order_by_trace_id_desc (task_traces (db g))).
  assert (Hp : Permutation sorted (task_traces (db g)))
    by apply stable_sort_perm.
  assert (Hs : StronglySorted (fun a b => (trace_id b < trace_id a)%Z) sorted)
    by (apply order_by_trace_id_desc_sorted, Hnd).
  destruct (sql_limit_split n sorted) as [rest Hsplit].
  split; [|split; [|split]].
  - rewrite length_map. unfold sql_limit. destruct (n <? 0)%Z.
    + apply Permutation_length, Hp.
    + rewrite !length_firstn, (Permutation_length Hp). reflexivity.
  - apply StronglySorted_map with (f := conv)
      (R := fun a b => (tt_trace_id b < tt_trace_id a)%Z).
    unfold sql_limit. destruct (n <? 0)%Z; [exact Hs|].
    apply StronglySorted_firstn, Hs.
  - intros t Ht. apply in_map_iff in Ht. destruct Ht as (r & <- & Hr).
    exists r. split; [|reflexivity].
    apply (Permutation_in _ Hp). rewrite Hsplit. apply in_or_app. left.
    exact Hr.
  - intros r Hr Hout t Ht.
    apply in_map_iff in Ht. destruct Ht as (r' & <- & Hr').
    cbn [tt_trace_id conv].
    apply (Permutation_in _ (Permutation_sym Hp)) in Hr.
    rewrite Hsplit in Hr. apply in_app_or in Hr. destruct Hr as [Hr | Hr].
    + exfalso. apply Hout. rewrite map_map. cbn [tt_trace_id conv].
      apply in_map_iff. exists r. split; [reflexivity | exact Hr].
    + rewrite Hsplit in Hs.
      exact (StronglySorted_app_cross _ _ _ Hs r' r Hr' Hr).
Qed.

Lemma getTaskHistory_newest_first_example :
  let g :=
    mkSQLiteGraph
      (mkDb [] []
         [mkTaskTraceRow 1 (Some "first") (Some "[]") 0 None None;
          mkTaskTraceRow 2 (Some "second") None 1 None None;
          mkTaskTraceRow 3 (Some "third") (Some "[oops") (-1) None None]
         3 None (fun _ => FtsThrows)) [] in
  map tt_trace_id (getTaskHistory g 2) = [3%Z; 2%Z]
  /\ StronglySorted (fun a b => (tt_trace_id b < tt_trace_id a)%Z)
       (getTaskHistory g 2).
Proof.
  intros g. split; [reflexivity|].
  apply (getTaskHistory_newest_first g 2).
  cbn. repeat constructor; cbn; intuition discriminate.
Defined.

(** X15.  Trace identifiers only grow: the identifier returned by
    [addTaskTrace] is above every stored one and above the counter, the
    stored identifiers stay distinct, and the next accepted trace gets the
    following integer. *)
Theorem addTaskTrace_ids_increase (g g' : SQLiteGraph)
  (now q : string) (trace_nodes : list string) (p : Q)
  (sessionId : option string) (id : Z)
  (now2 q2 : string) (trace_nodes2 : list string) (p2 : Q)
  (sessionId2 : option string) :
  addTaskTrace g now q trace_nodes p sessionId = (inr id, g') ->
  (forall r, In r (task_traces (db g)) -> (trace_id r < id)%Z)
  /\ (task_traces_seq (db g) < id)%Z
  /\ (NoDup (map trace_id (task_traces (db g))) ->
      NoDup (map trace_id (task_traces (db g'))))
  /\ ((-1 <= p2)%Q /\ (p2 <= 1)%Q ->
      fst (addTaskTrace g' now2 q2 trace_nodes2 p2 sessionId2)
      = inr (id + 1)%Z).
Proof.
  unfold addTaskTrace at 1. intros H.
  destruct (Qltb p (-1) || Qltb 1 p); [discriminate H|].
  injection H as Hid Hg. rewrite Hid in Hg.
  destruct (next_trace_id_above (db g)) as [Hseq Hrows].
  rewrite Hid in Hseq, Hrows.
  split; [exact Hrows|]. split; [exact Hseq|]. split.
  - intros Hnd. subst g'. cbn [db task_traces].
    rewrite map_app. cbn [map trace_id].
    apply NoDup_app; [exact Hnd | repeat constructor; intros [] |].
    intros x Hx [Hx' | []]. rewrite <- Hx' in Hx.
    apply in_map_iff in Hx. destruct Hx as (r & Er & Hr).
    specialize (Hrows r Hr). lia.
  - intros [Hlo Hhi]. unfold addTaskTrace.
    assert (E : Qltb p2 (-1) || Qltb 1 p2 = false).
    { apply orb_false_iff. rewrite !Qltb_false. split; assumption. }
    rewrite E. cbn [fst]. f_equal. subst g'. unfold next_trace_id.
    cbn [db task_traces task_traces_seq].
    rewrite map_app, fold_left_app. cbn [map fold_left trace_id].
    destruct (fold_max_ge (map trace_id (task_traces (db g))) id) as [H1 H2].
    assert (Hle : (fold_left Z.max (map trace_id (task_traces (db g))) id
                   <= id)%Z).
    { clear H1 H2. revert Hrows.
      generalize (task_traces (db g)). intros l Hl.
      assert (G : forall a, (a <= id)%Z ->
                  (fold_left Z.max (map trace_id l) a <= id)%Z).
      { induction l as [|x l IH]; intros a Ha; [exact Ha|].
        cbn [map fold_left]. apply IH.
        - intros r Hr. apply Hl. right. exact Hr.
        - specialize (Hl x (or_introl eq_refl)). lia. }
      apply G. lia. }
    lia.
Qed.

Lemma addTaskTrace_ids_increase_fixture :
  fst (addTaskTrace
         (snd (addTaskTrace fixture "t1" "first" [] 0 None))
         "t2" "second" ["parse_file"] 1 (Some "s"))
  = inr 2%Z.
Proof.
  destruct (addTaskTrace_ids_increase fixture _ "t1" "first" [] 0 None 1
              "t2" "second" ["parse_file"] 1 (Some "s") eq_refl)
    as (_ & _ & _ & H).
  apply H. split; discriminate.
Defined.

(** *** The fuel of the JSON parser is enough *)

Lemma skip_ws_length (s : list ascii) :
  (List.length (skip_ws s) <= List.length s)%nat.
Proof.
  induction s as [|c s IH]; [apply Nat.le_refl|].
  cbn [skip_ws]. destruct (is_ws c); cbn [List.length]; lia.
Qed.

Lemma cons_unit_Some (u : N) (x : option (list N * list ascii))
  (l : list N) (r : list ascii) :
  cons_unit u x = Some (l, r) -> exists l', x = Some (l', r).
Proof.
  destruct x as [[l' r']|]; cbn; [|discriminate].
  intros H. injection H as _ <-. exists l'. reflexivity.
Qed.

Lemma parse_string_body_rest (n : nat) :
  forall s u r, (List.length s <= n)%nat ->
    parse_string_body s = Some (u, r) ->
    (List.length r < List.length s)%nat.
Proof.
  induction n as [|n IH]; intros s u r Hn H.
  - destruct s; [discriminate H | cbn in Hn; lia].
  - destruct s as [|c s]; [discriminate H|].
    cbn [parse_string_body] in H. cbn [List.length] in Hn |- *.
    assert (K : forall (t : list ascii) v l',
              (List.length t <= List.length s)%nat ->
              cons_unit v (parse_string_body t) = Some (l', r) ->
              (List.length r < S (List.length s))%nat).
    { intros t v l' Ht Hc. apply cons_unit_Some in Hc.
      destruct Hc as [l'' Hc]. apply IH in Hc; lia. }
    destruct (nat_of_ascii c =? 34)%nat.
    { injection H as _ <-. lia. }
    destruct (nat_of_ascii c =? 92)%nat.
    2:{ destruct (nat_of_ascii c <? 32)%nat; [discriminate H|].
        eapply K; [|exact H]. lia. }
    destruct s as [|e r1]; [discriminate H|]. cbn [List.length] in K.
    repeat match type of H with
           | (if ?b then cons_unit _ (parse_string_body r1) else _) = _ =>
               destruct b; [eapply K; [|exact H]; lia|]
           end.
    destruct (nat_of_ascii e =? 117)%nat; [|discriminate H].
    destruct r1 as [|h1 [|h2 [|h3 [|h4 r2]]]]; try discriminate H.
    destruct (hex_val h1), (hex_val h2), (hex_val h3), (hex_val h4);
      try discriminate H.
    eapply K; [|exact H]. cbn [List.length]. lia.
Qed.

Lemma strip_prefix_rest (p : list ascii) :
  forall s r, strip_prefix p s = Some r ->
    (List.length r + List.length p = List.length s)%nat.
Proof.
  induction p as [|a p IH]; intros s r H.
  - cbn in H. injection H as <-. cbn. lia.
  - destruct s as [|b s]; [discriminate H|]. cbn [strip_prefix] in H.
    destruct (Ascii.eqb a b); [|discriminate H].
    apply IH in H. cbn [List.length]. lia.
Qed.

Lemma read_digits_rest (s : list ascii) :
  forall acc cnt v k r, read_digits s acc cnt = (v, k, r) ->
    (List.length r + k = List.length s + cnt)%nat.
Proof.
  induction s as [|c s IH]; intros acc cnt v k r H.
  - cbn in H. injection H as _ <- <-. reflexivity.
  - cbn [read_digits] in H. destruct (digit_of c).
    + apply IH in H. cbn [List.length]. lia.
    + injection H as _ <- <-. reflexivity.
Qed.

Lemma parse_fraction_rest (s : list ascii) (f : Z) (k : nat)
  (r : list ascii) :
  parse_fraction s = Some (f, k, r) ->
  (List.length r <= List.length s)%nat.
Proof.
  unfold parse_fraction. destruct s as [|c s].
  - intros H. injection H as _ _ <-. apply Nat.le_refl.
  - destruct (Ascii.eqb c "."%char).
    + destruct (read_digits s 0 0) as [[v k'] r'] eqn:E.
      destruct (k' =? 0)%nat; [discriminate|].
      intros H. injection H as _ _ <-.
      apply read_digits_rest in E. cbn [List.length]. lia.
    + intros H. injection H as _ _ <-. apply Nat.le_refl.
Qed.

Lemma parse_exponent_rest (s : list ascii) (e : Z) (r : list ascii) :
  parse_exponent s = Some (e, r) ->
  (List.length r <= List.length s)%nat.
Proof.
  unfold parse_exponent. destruct s as [|c s].
  - intros H. injection H as _ <-. apply Nat.le_refl.
  - destruct (Ascii.eqb c "e"%char || Ascii.eqb c "E"%char).
    + assert (G : forall neg r1, (List.length r1 <= List.length s)%nat ->
                (let '(e0, k, r2) := read_digits r1 0 0 in
                 if (k =? 0)%nat then None
                 else Some (if neg : bool then (- e0)%Z else e0, r2))
                = Some (e, r) ->
                (List.length r <= List.length (c :: s))%nat).
      { intros neg r1 Hr1.
        destruct (read_digits r1 0 0) as [[v k'] r'] eqn:E.
        destruct (k' =? 0)%nat; [discriminate|].
        intros H. injection H as _ <-.
        apply read_digits_rest in E. cbn [List.length]. lia. }
      destruct s as [|d s'].
      * apply (G false []). apply Nat.le_refl.
      * destruct (Ascii.eqb d "-"%char);
          [apply (G true s'); cbn [List.length]; lia|].
        destruct (Ascii.eqb d "+"%char);
          [apply (G false s'); cbn [List.length]; lia|].
        apply (G false (d :: s')). apply Nat.le_refl.
    + intros H. injection H as _ <-. apply Nat.le_refl.
Qed.

Lemma parse_number_rest (s : list ascii) (q : Q) (r : list ascii) :
  parse_number s = Some (q, r) ->
  (List.length r < List.length s)%nat.
Proof.
  unfold parse_number.
  assert (G : forall neg s1, (List.length s1 <= List.length s)%nat ->
            (let '(ip, n, s2) := read_digits s1 0 0 in
             if (n =? 0)%nat || (1 <? n)%nat && starts_with_zero s1
             then None
             else
               match parse_fraction s2 with
               | Some (fp, k, s3) =>
                   match parse_exponent s3 with
                   | Some (e, s4) =>
                       Some
                         ((Qmake
                             (if neg : bool
                              then (- (ip * 10 ^ Z.of_nat k + fp))%Z
                              else (ip * 10 ^ Z.of_nat k + fp)%Z)
                             (Z.to_pos (10 ^ Z.of_nat k))
                           * Qpower (10 # 1) e)%Q, s4)
                   | None => None
                   end
               | None => None
               end) = Some (q, r) ->
            (List.length r < List.length s)%nat).
  { intros neg s1 Hs1.
    destruct (read_digits s1 0 0) as [[ip n] s2] eqn:E.
    destruct (n =? 0)%nat eqn:En; [discriminate|].
    destruct ((1 <? n)%nat && starts_with_zero s1); [discriminate|].
    cbn [orb].
    destruct (parse_fraction s2) as [[[fp k] s3]|] eqn:Ef; [|discriminate].
    destruct (parse_exponent s3) as [[e s4]|] eqn:Ee; [|discriminate].
    intros H. injection H as _ <-.
    apply read_digits_rest in E. apply parse_fraction_rest in Ef.
    apply parse_exponent_rest in Ee. apply Nat.eqb_neq in En. lia. }
  destruct s as [|c s'].
  - apply (G false []). apply Nat.le_refl.
  - destruct (Ascii.eqb c "-"%char).
    + intros H. apply (G true s') in H; cbn [List.length] in *; lia.
    + apply (G false (c :: s')). apply Nat.le_refl.
Qed.

Ltac parse_cases H :=
  repeat match type of H with
         | context [match ?x with _ => _ end] =>
             let E := fresh "E" in destruct x eqn:E; try discriminate H
         end.

Lemma parse_rest (f : nat) :
  (forall s v r, parse_value f s = Some (v, r) ->
                 (List.length r < List.length s)%nat)
  /\ (forall s vs r, parse_array_elements f s = Some (vs, r) ->
                     (List.length r < List.length s)%nat)
  /\ (forall s ms r, parse_object_members f s = Some (ms, r) ->
                     (List.length r < List.length s)%nat).
Proof.
  induction f as [|f (IHv & IHe & IHm)].
  - repeat split; intros; discriminate.
  - split; [|split].
    + intros s v r H. cbn [parse_value] in H.
      pose proof (skip_ws_length s) as Hs.
      destruct (skip_ws s) as [|c r0] eqn:Es; [discriminate H|].
      cbn [List.length] in Hs.
      pose proof (skip_ws_length r0) as Hr0.
      parse_cases H; injection H as <- <-;
        repeat match goal with
               | E : parse_string_body _ = Some _ |- _ =>
                   apply (parse_string_body_rest _ _ _ _ (le_n _)) in E
               | E : parse_array_elements f _ = Some _ |- _ => apply IHe in E
               | E : parse_object_members f _ = Some _ |- _ => apply IHm in E
               | E : strip_prefix _ _ = Some _ |- _ =>
                   apply strip_prefix_rest in E
               | E : parse_number _ = Some _ |- _ =>
                   apply parse_number_rest in E
               | E : skip_ws r0 = _ |- _ => rewrite E in Hr0; clear E
               end;
        cbn [List.length list_ascii_of_string] in *; lia.
    + intros s vs r H. cbn [parse_array_elements] in H.
      destruct (parse_value f s) as [[v r0]|] eqn:Ev; [|discriminate H].
      apply IHv in Ev.
      pose proof (skip_ws_length r0) as Hr0.
      destruct (skip_ws r0) as [|c r1] eqn:Es; [discriminate H|].
      cbn [List.length] in Hr0.
      parse_cases H; injection H as <- <-;
        repeat match goal with
               | E : parse_array_elements f _ = Some _ |- _ => apply IHe in E
               end; lia.
    + intros s ms r H. cbn [parse_object_members] in H.
      pose proof (skip_ws_length s) as Hs.
      destruct (skip_ws s) as [|c r0] eqn:Es; [discriminate H|].
      cbn [List.length] in Hs.
      destruct (Ascii.eqb c "034"%char); [|discriminate H].
      destruct (parse_string_body r0) as [[k r1]|] eqn:Ek; [|discriminate H].
      apply (parse_string_body_rest _ _ _ _ (le_n _)) in Ek.
      pose proof (skip_ws_length r1) as Hr1.
      destruct (skip_ws r1) as [|d r2] eqn:Es1; [discriminate H|].
      cbn [List.length] in Hr1.
      destruct (Ascii.eqb d ":"%char); [|discriminate H].
      destruct (parse_value f r2) as [[v r3]|] eqn:Ev; [|discriminate H].
      apply IHv in Ev.
      pose proof (skip_ws_length r3) as Hr3.
      destruct (skip_ws r3) as [|e r4] eqn:Es3; [discriminate H|].
      cbn [List.length] in Hr3.
      parse_cases H; injection H as <- <-;
        repeat match goal with
               | E : parse_object_members f _ = Some _ |- _ => apply IHm in E
               end; lia.
Qed.

(** Above [2 * length s] the result of the parser does not depend on the
    fuel: [JSON_parse] fails only on a text that is not JSON. *)
Lemma parse_fuel (f1 : nat) :
  forall f2,
    (forall s, (2 * List.length s < f1)%nat ->
               (2 * List.length s < f2)%nat ->
               parse_value f1 s = parse_value f2 s)
    /\ (forall s, (2 * List.length s + 1 < f1)%nat ->
                  (2 * List.length s + 1 < f2)%nat ->
                  parse_array_elements f1 s = parse_array_elements f2 s)
    /\ (forall s, (2 * List.length s + 1 < f1)%nat ->
                  (2 * List.length s + 1 < f2)%nat ->
                  parse_object_members f1 s = parse_object_members f2 s).
Proof.
  induction f1 as [|f1 IH]; intros f2.
  - repeat split; intros; lia.
  - destruct f2 as [|f2]; [repeat split; intros; lia|].
    destruct (IH f2) as (IHv & IHe & IHm).
    split; [|split].
    + intros s H1 H2. cbn [parse_value].
      pose proof (skip_ws_length s) as Hs.
      destruct (skip_ws s) as [|c r0]; [reflexivity|].
      cbn [List.length] in Hs.
      pose proof (skip_ws_length r0) as Hr0.
      destruct (Ascii.eqb c "034"%char); [reflexivity|].
      destruct (Ascii.eqb c "["%char).
      { destruct (skip_ws r0) as [|d r1]; [reflexivity|].
        destruct (Ascii.eqb d "]"%char); [reflexivity|].
        rewrite IHe by lia. reflexivity. }
      destruct (Ascii.eqb c "{"%char); [|reflexivity].
      destruct (skip_ws r0) as [|d r1]; [reflexivity|].
      destruct (Ascii.eqb d "}"%char); [reflexivity|].
      rewrite IHm by lia. reflexivity.
    + intros s H1 H2. cbn [parse_array_elements].
      rewrite (IHv s) by lia.
      destruct (parse_value f2 s) as [[v r0]|] eqn:Ev; [|reflexivity].
      apply parse_rest in Ev.
      pose proof (skip_ws_length r0) as Hr0.
      destruct (skip_ws r0) as [|c r1]; [reflexivity|].
      cbn [List.length] in Hr0.
      destruct (Ascii.eqb c ","%char); [|reflexivity].
      rewrite IHe by lia. reflexivity.
    + intros s H1 H2. cbn [parse_object_members].
      pose proof (skip_ws_length s) as Hs.
      destruct (skip_ws s) as [|c r0]; [reflexivity|].
      cbn [List.length] in Hs.
      destruct (Ascii.eqb c "034"%char); [|reflexivity].
      destruct (parse_string_body r0) as [[k r1]|] eqn:Ek; [|reflexivity].
      apply (parse_string_body_rest _ _ _ _ (le_n _)) in Ek.
      pose proof (skip_ws_length r1) as Hr1.
      destruct (skip_ws r1) as [|d r2]; [reflexivity|].
      cbn [List.length] in Hr1.
      destruct (Ascii.eqb d ":"%char); [|reflexivity].
      rewrite (IHv r2) by lia.
      destruct (parse_value f2 r2) as [[v r3]|] eqn:Ev; [|reflexivity].
      apply parse_rest in Ev.
      pose proof (skip_ws_length r3) as Hr3.
      destruct (skip_ws r3) as [|e r4]; [reflexivity|].
      cbn [List.length] in Hr3.
      destruct (Ascii.eqb e ","%char); [|reflexivity].
      rewrite IHm by lia. reflexivity.
Qed.

(** ** Files: what [getFileNodes] matches *)


Lemma like_match_percent (p s : list ascii) :
  like_match ("%"%char :: p) s = true
  <-> exists pre t, s = pre ++ t /\ like_match p t = true.
Proof.
  induction s as [|d s IH].
  - change (like_match ("%"%char :: p) []) with (like_match p [] || false).
    rewrite orb_false_r. split.
    + intros H. exists [], []. split; [reflexivity | exact H].
    + intros (pre & t & E & H). symmetry in E.
      apply app_eq_nil in E. destruct E as [_ ->]. exact H.
  - change (like_match ("%"%char :: p) (d :: s))
      with (like_match p (d :: s) || like_match ("%"%char :: p) s).
    rewrite orb_true_iff, IH. split.
    + intros [H | (pre & t & E & H)].
      * exists [], (d :: s). split; [reflexivity | exact H].
      * exists (d :: pre), t. split; [rewrite E; reflexivity | exact H].
    + intros (pre & t & E & H). destruct pre as [|x pre].
      * left. cbn in E. rewrite E. exact H.
      * right. injection E as _ E. exists pre, t. split; assumption.
Qed.




(** ** Node details: the relations [getNodeInfo] reports *)

Lemma edge_type_is_true (ty : string) (e : EdgeRow) :
  edge_type_is ty e = true <-> edge_type e = Some ty.
Proof.
  unfold edge_type_is. destruct (edge_type e) as [t|].
  - rewrite String.eqb_eq. split; intros H; [subst; reflexivity|].
    injection H as ->. reflexivity.
  - split; discriminate.
Qed.

Lemma names_of_In (d : Db) (id c : string) :
  In c (names_of d id)
  <-> exists n, In n (nodes d) /\ node_id n = id /\ name n = c.
Proof.
  unfold names_of. rewrite in_map_iff. split.
  - intros (n & E & H). apply filter_In in H. destruct H as [H1 H2].
    apply String.eqb_eq in H2. exists n. auto.
  - intros (n & H1 & H2 & H3). exists n. split; [exact H3|].
    apply filter_In. split; [exact H1 | apply String.eqb_eq, H2].
Qed.

Lemma firstn_short {A} (k : nat) (l : list A) :
  (List.length (firstn k l) < k)%nat -> firstn k l = l.
Proof.
  intros H. rewrite length_firstn in H. apply firstn_all2. lia.
Qed.

Lemma outgoing_names_sound (d : Db) (ty : string) (lim : nat)
  (id c : string) :
  In c (outgoing_names d ty lim id) ->
  exists n, In n (nodes d) /\ name n = c /\ linked d ty id (node_id n).
Proof.
  unfold outgoing_names. intros H. apply firstn_In in H.
  apply in_flat_map in H. destruct H as (e & He & Hc).
  apply filter_In in He. destruct He as [He Hb].
  apply andb_true_iff in Hb. destruct Hb as [Hs Ht].
  apply String.eqb_eq in Hs. apply edge_type_is_true in Ht.
  apply names_of_In in Hc. destruct Hc as (n & Hn & Hid & Hname).
  exists n. split; [exact Hn|]. split; [exact Hname|].
  exists e. rewrite Hid. auto.
Qed.

Lemma outgoing_names_complete (d : Db) (ty : string) (lim : nat)
  (id : string) (n : NodeRow) :
  (List.length (outgoing_names d ty lim id) < lim)%nat ->
  In n (nodes d) -> linked d ty id (node_id n) ->
  In (name n) (outgoing_names d ty lim id).
Proof.
  unfold outgoing_names. intros Hlen Hn (e & He & Hs & Ht & Hty).
  rewrite (firstn_short _ _ Hlen). apply in_flat_map. exists e. split.
  - apply filter_In. split; [exact He|]. apply andb_true_iff. split.
    + apply String.eqb_eq, Hs.
    + apply edge_type_is_true, Hty.
  - apply names_of_In. exists n. auto.
Qed.

Lemma incoming_names_sound (d : Db) (ty : string) (lim : nat)
  (id c : string) :
  In c (incoming_names d ty lim id) ->
  exists n, In n (nodes d) /\ name n = c /\ linked d ty (node_id n) id.
Proof.
  unfold incoming_names. intros H. apply firstn_In in H.
  apply in_flat_map in H. destruct H as (e & He & Hc).
  apply filter_In in He. destruct He as [He Hb].
  apply andb_true_iff in Hb. destruct Hb as [Hs Ht].
  apply String.eqb_eq in Hs. apply edge_type_is_true in Ht.
  apply names_of_In in Hc. destruct Hc as (n & Hn & Hid & Hname).
  exists n. split; [exact Hn|]. split; [exact Hname|].
  exists e. rewrite Hid. auto.
Qed.

Lemma incoming_names_complete (d : Db) (ty : string) (lim : nat)
  (id : string) (n : NodeRow) :
  (List.length (incoming_names d ty lim id) < lim)%nat ->
  In n (nodes d) -> linked d ty (node_id n) id ->
  In (name n) (incoming_names d ty lim id).
Proof.
  unfold incoming_names. intros Hlen Hn (e & He & Hs & Ht & Hty).
  rewrite (firstn_short _ _ Hlen). apply in_flat_map. exists e. split.
  - apply filter_In. split; [exact He|]. apply andb_true_iff. split.
    + apply String.eqb_eq, Ht.
    + apply edge_type_is_true, Hty.
  - apply names_of_In. exists n. auto.
Qed.

Lemma getNodeInfo_row (g : SQLiteGraph) (nodeName : string)
  (includeSource : bool) (i : NodeInfo) :
  getNodeInfo g nodeName includeSource = Some i ->
  exists row,
    find (fun n => String.eqb (name n) nodeName) (nodes (db g)) = Some row
    /\ In row (nodes (db g)) /\ name row = nodeName
    /\ info_node_id i = node_id row
    /\ info_name i = nodeName
    /\ info_body_text i = (if includeSource then body_text row else None)
    /\ callers i = incoming_names (db g) "CALLS" 20 (node_id row)
    /\ callees i = outgoing_names (db g) "CALLS" 20 (node_id row)
    /\ tests i = incoming_names (db g) "TESTS" 20 (node_id row).
Proof.
  unfold getNodeInfo.
  destruct (find _ (nodes (db g))) as [row|] eqn:E; [|discriminate].
  intros H. injection H as <-. exists row.
  destruct (find_some _ _ E) as [Hin Hname]. apply String.eqb_eq in Hname.
  cbn. rewrite Hname. repeat split; auto.
Qed.

(** X17.  [getNodeInfo] answers null exactly when no node has the name.
    Otherwise it describes a stored node of that name, hides the body
    unless the source is asked for, and reports at most 20 callers, callees
    and tests, each the name of a stored node joined to it by an edge of
    the type CALLS or TESTS in the right direction; a list shorter than 20
    holds every such name. *)
Theorem getNodeInfo_relations (g : SQLiteGraph) (nodeName : string)
  (includeSource : bool) :
  match getNodeInfo g nodeName includeSource with
  | None => forall n, In n (nodes (db g)) -> name n <> nodeName
  | Some i =>
      exists row,
        In row (nodes (db g)) /\ name row = nodeName
        /\ info_node_id i = node_id row /\ info_name i = nodeName
        /\ (includeSource = false -> info_body_text i = None)
        /\ (List.length (callers i) <= 20
            /\ List.length (callees i) <= 20
            /\ List.length (tests i) <= 20)%nat
        /\ (forall c, In c (callees i) ->
              exists n, In n (nodes (db g)) /\ name n = c
                        /\ linked (db g) "CALLS" (node_id row) (node_id n))
        /\ (forall c, In c (callers i) ->
              exists n, In n (nodes (db g)) /\ name n = c
                        /\ linked (db g) "CALLS" (node_id n) (node_id row))
        /\ (forall c, In c (tests i) ->
              exists n, In n (nodes (db g)) /\ name n = c
                        /\ linked (db g) "TESTS" (node_id n) (node_id row))
        /\ ((List.length (callees i) < 20)%nat ->
            forall n, In n (nodes (db g)) ->
                      linked (db g) "CALLS" (node_id row) (node_id n) ->
                      In (name n) (callees i))
        /\ ((List.length (callers i) < 20)%nat ->
            forall n, In n (nodes (db g)) ->
                      linked (db g) "CALLS" (node_id n) (node_id row) ->
                      In (name n) (callers i))
        /\ ((List.length (tests i) < 20)%nat ->
            forall n, In n (nodes (db g)) ->
                      linked (db g) "TESTS" (node_id n) (node_id row) ->
                      In (name n) (tests i))
  end.
Proof.
  destruct (getNodeInfo g nodeName includeSource) as [i|] eqn:E.
  - destruct (getNodeInfo_row _ _ _ _ E)
      as (row & _ & Hin & Hname & Hid & Hn & Hb & Hcr & Hce & Hts).
    exists row. rewrite Hcr, Hce, Hts.
    split; [exact Hin|]. split; [exact Hname|]. split; [exact Hid|].
    split; [exact Hn|].
    split; [intros ->; exact Hb|].
    split.
    { unfold incoming_names, outgoing_names. rewrite !length_firstn. lia. }
    split; [intros c; apply outgoing_names_sound|].
    split; [intros c; apply incoming_names_sound|].
    split; [intros c; apply incoming_names_sound|].
    split; [intros H n; apply outgoing_names_complete, H|].
    split; [intros H n; apply incoming_names_complete, H|].
    intros H n; apply incoming_names_complete, H.
  - unfold getNodeInfo in E.
    destruct (find _ (nodes (db g))) as [row|] eqn:F; [discriminate|].
    intros n Hn Hname.
    pose proof (find_none _ _ F n Hn) as X. cbn in X.
    apply String.eqb_neq in X. contradiction.
Qed.

Lemma NoDup_map_inj {A B} (f : A -> B) (l : list A) (a b : A) :
  NoDup (map f l) -> In a l -> In b l -> f a = f b -> a = b.
Proof.
  induction l as [|x l IH]; intros Hnd Ha Hb E; [destruct Ha|].
  cbn [map] in Hnd. apply NoDup_cons_iff in Hnd. destruct Hnd as [Hx Hl].
  destruct Ha as [<- | Ha], Hb as [<- | Hb].
  - reflexivity.
  - exfalso. apply Hx. rewrite E. apply in_map, Hb.
  - exfalso. apply Hx. rewrite <- E. apply in_map, Ha.
  - exact (IH Hl Ha Hb E).
Qed.

(** X18.  On a store where names are unique, the two directions of a call
    agree: when the details of [a] list [b] among the callees, the details
    of [b] exist and list [a] among the callers, unless that list is full
    (20 names). *)
Theorem getNodeInfo_calls_both_ways (g : SQLiteGraph) (a b : string)
  (srcA srcB : bool) (ia : NodeInfo) :
  NoDup (map name (nodes (db g))) ->
  getNodeInfo g a srcA = Some ia ->
  In b (callees ia) ->
  exists ib,
    getNodeInfo g b srcB = Some ib
    /\ ((List.length (callers ib) < 20)%nat -> In a (callers ib)).
Proof.
  intros Hnd Ha Hb.
  destruct (getNodeInfo_row _ _ _ _ Ha)
    as (ra & _ & Hina & Hnamea & _ & _ & _ & _ & Hce & _).
  rewrite Hce in Hb. apply outgoing_names_sound in Hb.
  destruct Hb as (n & Hn & Hname & Hlink).
  destruct (getNodeInfo g b srcB) as [ib|] eqn:Eb.
  - exists ib. split; [reflexivity|]. intros Hlen.
    destruct (getNodeInfo_row _ _ _ _ Eb)
      as (rb & _ & Hinb & Hnameb & _ & _ & _ & Hcr & _ & _).
    assert (rb = n).
    { apply (NoDup_map_inj name (nodes (db g))); try assumption.
      congruence. }
    subst rb. rewrite Hcr in Hlen |- *. rewrite <- Hnamea.
    apply incoming_names_complete; assumption.
  - exfalso. unfold getNodeInfo in Eb.
    destruct (find _ (nodes (db g))) as [row|] eqn:F; [discriminate|].
    pose proof (find_none _ _ F n Hn) as X. cbn in X.
    apply String.eqb_neq in X. contradiction.
Qed.

Lemma getNodeInfo_calls_both_ways_example :
  exists ib,
    getNodeInfo (open_graph relations_db) "clean" false = Some ib
    /\ ((List.length (callers ib) < 20)%nat -> In "fit_model" (callers ib)).
Proof.
  eapply (getNodeInfo_calls_both_ways (open_graph relations_db)
            "fit_model" "clean" true false).
  - cbn. repeat constructor; cbn; intuition discriminate.
  - reflexivity.
  - cbn. left. reflexivity.
Defined.

(** ** The query in the ranking, and the size of the returned text *)

Lemma buildQueryVector_unknown (query : string)
  (vocab : JsMap TfidfVocabRow) :
  (forall t, In t (tokenize query) -> map_get t vocab = None) ->
  buildQueryVector query vocab = [].
Proof.
  intros H. rewrite buildQueryVector_entries.
  assert (G : forall l : list (string * nat),
            (forall tc, In tc l -> In (fst tc) (tokenize query)) ->
            flat_map
              (fun tc : string * nat =>
                 match map_get (fst tc) vocab with
                 | Some row =>
                     [(fst tc,
                       tf_weight (snd tc) (List.length (tokenize query))
                         (idf row))]
                 | None => []
                 end) l = []).
  { induction l as [|tc l IH]; intros Hl; [reflexivity|].
    cbn [flat_map]. rewrite (H (fst tc)) by (apply Hl; left; reflexivity).
    apply IH. intros x Hx. apply Hl. right. exact Hx. }
  apply G. intros [t c] Htc. apply count_tokens_spec in Htc. apply Htc.
Qed.

(** X19.  When the vocabulary knows no token of the query (an empty or
    missing vocabulary table included), the query plays no part in the
    ranking: every candidate is scored
    [0.25 * pagerank + 0.25 * task_weight + 0.1 / (1 + 0.5 * depth)], and
    two such queries that resolve to the same seed get the same nodes and
    the same token estimate. *)
Theorem queryContext_unknown_terms (g : SQLiteGraph) (q1 q2 : string)
  (seed1 seed2 : option string) (B : Z) (maxDepth maxNodes : nat) :
  (forall t, In t (tokenize q1) -> map_get t (tfidfVocab g) = None) ->
  (forall t, In t (tokenize q2) -> map_get t (tfidfVocab g) = None) ->
  _findSeedNode (db g) q1 seed1 = _findSeedNode (db g) q2 seed2 ->
  let r1 := queryContext g q1 seed1 B maxDepth maxNodes in
  let r2 := queryContext g q2 seed2 B maxDepth maxNodes in
  node_ids r1 = node_ids r2
  /\ token_estimate r1 = token_estimate r2
  /\ seed_node r1 = seed_node r2
  /\ forall nd : NodeRow * nat,
       score_node (qVecArr_of (buildQueryVector q1 (tfidfVocab g))) nd
       = (0.25 * match pagerank (fst nd) with Some p => Q2R p | None => 0 end
          + 0.25 * match task_weight (fst nd) with
                   | Some t => Q2R t
                   | None => 0.5
                   end
          + 0.1 * (1 / (1 + INR (snd nd) * 0.5)))%R.
Proof.
  intros H1 H2 Hseed r1 r2.
  pose proof (buildQueryVector_unknown q1 _ H1) as E1.
  pose proof (buildQueryVector_unknown q2 _ H2) as E2.
  assert (Hs : forall cands, scored_nodes g q1 cands = scored_nodes g q2 cands).
  { intros cands. unfold scored_nodes. rewrite E1, E2. reflexivity. }
  split; [|split; [|split]].
  4:{ intros nd. rewrite E1. unfold score_node, qVecArr_of, semScore_of.
      cbv zeta. lra. }
  all: subst r1 r2.
  all: destruct (_findSeedNode (db g) q1 seed1) as [[|c s]|] eqn:F1.
  all: symmetry in Hseed.
  all: try (rewrite (queryContext_no_seed g q1 seed1) by (right; exact F1);
            rewrite (queryContext_no_seed g q2 seed2) by (right; exact Hseed);
            reflexivity).
  all: try (rewrite (queryContext_no_seed g q1 seed1) by (left; exact F1);
            rewrite (queryContext_no_seed g q2 seed2) by (left; exact Hseed);
            reflexivity).
  all: destruct (queryContext_seeded g q1 seed1 B maxDepth maxNodes
                   (String c s) F1 ltac:(discriminate))
         as (A1 & A2 & A3 & _).
  all: destruct (queryContext_seeded g q2 seed2 B maxDepth maxNodes
                   (String c s) Hseed ltac:(discriminate))
         as (B1 & B2 & B3 & _).
  - rewrite A1, B1, Hs. reflexivity.
  - rewrite A2, B2, Hs. reflexivity.
  - rewrite A3, B3. reflexivity.
Qed.

Lemma queryContext_unknown_terms_fixture :
  node_ids (queryContext fixture "zzz" (Some "query_context") 6000 3 80)
  = node_ids (queryContext fixture "yyy www" (Some "query_context") 6000 3 80).
Proof.
  apply (queryContext_unknown_terms fixture "zzz" "yyy www"
           (Some "query_context") (Some "query_context") 6000 3 80).
  - intros t Ht. cbn in Ht. destruct Ht as [<- | []]. reflexivity.
  - intros t Ht. cbn in Ht. destruct Ht as [<- | [<- | []]]; reflexivity.
  - reflexivity.
Defined.








(** ** A deeper traversal only appends rows *)

Section StableSortFilter.
Context {A : Type} (before : A -> A -> bool) (p : A -> bool).

Hypothesis before_asym : forall a b, before a b = true -> before b a = false.
Hypothesis before_ntrans :
  forall a b c, before b a = false -> before c b = false -> before c a = false.

Lemma filter_insert_out (x : A) (l : list A) :
  p x = false -> filter p (insert_sorted before x l) = filter p l.
Proof.
  intros Hx. induction l as [|y l IH]; cbn [insert_sorted filter].
  - rewrite Hx. reflexivity.
  - destruct (before y x); cbn [filter].
    + rewrite IH. reflexivity.
    + rewrite Hx. reflexivity.
Qed.

Lemma filter_insert_in (x : A) (l : list A) :
  p x = true ->
  StronglySorted (fun a b => before b a = false) l ->
  filter p (insert_sorted before x l) = insert_sorted before x (filter p l).
Proof.
  intros Hx Hs. induction Hs as [|y l Hs IH Hall].
  - cbn. rewrite Hx. reflexivity.
  - cbn [insert_sorted]. destruct (before y x) eqn:E.
    + cbn [filter]. destruct (p y).
      * cbn [insert_sorted]. rewrite E, IH. reflexivity.
      * exact IH.
    + change (filter p (x :: y :: l)) with
        (if p x then x :: filter p (y :: l) else filter p (y :: l)).
      rewrite Hx.
      assert (G : Forall (fun z => before z x = false) (y :: l)).
      { constructor; [exact E|]. rewrite Forall_forall in *.
        intros z Hz. apply (before_ntrans x y z E), Hall, Hz. }
      destruct (filter p (y :: l)) as [|z r] eqn:F; [reflexivity|].
      cbn [insert_sorted].
      assert (Hz : In z (y :: l)).
      { apply (proj1 (filter_In p z (y :: l))). rewrite F. left. reflexivity. }
      rewrite Forall_forall in G. rewrite (G z Hz). reflexivity.
Qed.

Lemma stable_sort_strongly_sorted (l : list A) :
  StronglySorted (fun a b => before b a = false) (stable_sort before l).
Proof.
  apply Sorted_StronglySorted.
  - intros a b c. apply before_ntrans.
  - apply stable_sort_sorted, before_asym.
Qed.

(** A stable sort and a filter commute. *)
Lemma stable_sort_filter (l : list A) :
  filter p (stable_sort before l) = stable_sort before (filter p l).
Proof.
  induction l as [|x l IH]; [reflexivity|].
  change (stable_sort before (x :: l))
    with (insert_sorted before x (stable_sort before l)).
  cbn [filter]. destruct (p x) eqn:Hx.
  - rewrite filter_insert_in by
      (try exact Hx; apply stable_sort_strongly_sorted).
    rewrite IH. reflexivity.
  - rewrite filter_insert_out by exact Hx. exact IH.
Qed.
End StableSortFilter.

Lemma bfs_rank_le_before (a b : NodeRow * nat) :
  bfs_rank_le a b -> bfs_before b a = false.
Proof.
  unfold bfs_rank_le, bfs_before. intros [H | [E P]]; apply orb_false_iff.
  - split; [apply Nat.ltb_ge; lia|].
    apply andb_false_iff. left. apply Nat.eqb_neq. lia.
  - split; [apply Nat.ltb_ge; lia|].
    apply andb_false_iff. right.
    destruct (pagerank (fst a)) as [x|], (pagerank (fst b)) as [y|];
      cbn in P |- *; try reflexivity; try contradiction.
    apply Qltb_false, P.
Qed.

Lemma bfs_before_ntrans (a b c : NodeRow * nat) :
  bfs_before b a = false -> bfs_before c b = false -> bfs_before c a = false.
Proof.
  intros H1 H2. apply bfs_rank_le_before.
  eapply bfs_rank_le_trans; apply bfs_before_false; eassumption.
Qed.

Lemma min_depth_of_None (rows : list (string * nat)) (id : string) :
  min_depth_of rows id = None <-> forall k, ~ In (id, k) rows.
Proof.
  split.
  - intros H k Hk. unfold min_depth_of in H.
    assert (X : In k (map snd
                        (filter (fun r => String.eqb (fst r) id) rows))).
    { apply in_map_iff. exists (id, k). split; [reflexivity|].
      apply filter_In. split; [exact Hk | apply String.eqb_refl]. }
    destruct (map snd (filter (fun r => String.eqb (fst r) id) rows));
      [destruct X | discriminate H].
  - intros H. destruct (min_depth_of rows id) as [k|] eqn:E; [|reflexivity].
    apply min_depth_of_Some in E. destruct E as [E _].
    exfalso. exact (H k E).
Qed.

Lemma min_depth_shallower (es : list EdgeRow) (seed : string)
  (D D' : nat) (id : string) :
  (D <= D')%nat ->
  min_depth_of (bfs_cte es seed D) id
  = match min_depth_of (bfs_cte es seed D') id with
    | Some k => if (k <=? D)%nat then Some k else None
    | None => None
    end.
Proof.
  intros HD.
  destruct (min_depth_of (bfs_cte es seed D') id) as [k|] eqn:E'.
  - apply min_depth_of_Some in E'. destruct E' as [Hin Hmin].
    apply bfs_cte_spec in Hin. destruct Hin as [Hk Hw].
    destruct (k <=? D)%nat eqn:Ek.
    + apply Nat.leb_le in Ek. apply min_depth_of_Some. split.
      * apply bfs_cte_spec. split; assumption.
      * intros j Hj. apply Hmin. apply bfs_cte_spec.
        apply bfs_cte_spec in Hj. destruct Hj as [Hj Hwj].
        split; [lia | exact Hwj].
    + apply Nat.leb_gt in Ek. apply min_depth_of_None. intros j Hj.
      apply bfs_cte_spec in Hj. destruct Hj as [Hj Hwj].
      assert (k <= j)%nat; [|lia].
      apply Hmin, bfs_cte_spec. split; [lia | exact Hwj].
  - apply min_depth_of_None. intros j Hj.
    apply bfs_cte_spec in Hj. destruct Hj as [Hj Hwj].
    apply (proj1 (min_depth_of_None _ _) E' j).
    apply bfs_cte_spec. split; [lia | exact Hwj].
Qed.

Lemma bfs_grouped_shallower (ns : list NodeRow) (es : list EdgeRow)
  (seed : string) (D D' : nat) :
  (D <= D')%nat ->
  bfs_grouped ns (bfs_cte es seed D)
  = filter (fun x => (snd x <=? D)%nat)
      (bfs_grouped ns (bfs_cte es seed D')).
Proof.
  intros HD. unfold bfs_grouped.
  induction ns as [|n ns IH]; [reflexivity|].
  cbn [flat_map]. rewrite filter_app, <- IH.
  rewrite (min_depth_shallower es seed D D' (node_id n) HD).
  destruct (min_depth_of (bfs_cte es seed D') (node_id n)) as [k|];
    [|reflexivity].
  cbn [filter snd]. destruct (k <=? D)%nat; reflexivity.
Qed.

Lemma bfs_sorted_split (D : nat) (s : list (NodeRow * nat)) :
  StronglySorted bfs_rank_le s ->
  s = filter (fun x => (snd x <=? D)%nat) s
      ++ filter (fun x => negb (snd x <=? D)%nat) s.
Proof.
  induction 1 as [|x l Hs IH Hall]; [reflexivity|].
  cbn [filter]. destruct (snd x <=? D)%nat eqn:E; cbn [negb app].
  - rewrite <- IH. reflexivity.
  - apply Nat.leb_gt in E.
    assert (G : forall y, In y l -> (snd y <=? D)%nat = false).
    { rewrite Forall_forall in Hall. intros y Hy. apply Nat.leb_gt.
      destruct (Hall y Hy) as [H1 | [H1 _]]; lia. }
    assert (F1 : filter (fun x => (snd x <=? D)%nat) l = []).
    { clear -G. induction l as [|y l IH]; [reflexivity|].
      cbn [filter]. rewrite (G y (or_introl eq_refl)).
      apply IH. intros z Hz. apply G. right. exact Hz. }
    assert (F2 : filter (fun x => negb (snd x <=? D)%nat) l = l).
    { clear -G. induction l as [|y l IH]; [reflexivity|].
      cbn [filter]. rewrite (G y (or_introl eq_refl)). cbn [negb].
      rewrite IH; [reflexivity|]. intros z Hz. apply G. right. exact Hz. }
    rewrite F1, F2. reflexivity.
Qed.

(** X21.  Raising the depth bound only appends rows to the traversal: the
    rows found within the smaller bound come first, in the same order and
    with the same depths, and every added row lies deeper than the smaller
    bound.  The same holds after the cut to [maxNodes] rows. *)
Theorem bfs_deeper_only_appends (d : Db) (seed : string)
  (D D' maxNodes : nat) :
  (D <= D')%nat ->
  (exists more,
     bfs_ordered d seed D' = bfs_ordered d seed D ++ more
     /\ Forall (fun x => (D < snd x)%nat) more)
  /\ exists more,
       BFS_SQL d seed D' maxNodes = BFS_SQL d seed D maxNodes ++ more.
Proof.
  intros HD.
  assert (H : exists more,
             bfs_ordered d seed D' = bfs_ordered d seed D ++ more
             /\ Forall (fun x => (D < snd x)%nat) more).
  { exists (filter (fun x => negb (snd x <=? D)%nat) (bfs_ordered d seed D')).
    split.
    - rewrite (bfs_sorted_split D (bfs_ordered d seed D'))
        at 1 by apply bfs_ordered_sorted.
      f_equal. unfold bfs_ordered.
      rewrite (stable_sort_filter bfs_before _ bfs_before_asym
                 bfs_before_ntrans).
      rewrite <- (bfs_grouped_shallower _ _ _ D D' HD). reflexivity.
    - apply Forall_forall. intros x Hx. apply filter_In in Hx.
      destruct Hx as [_ Hx]. apply negb_true_iff, Nat.leb_gt in Hx. exact Hx. }
  split; [exact H|].
  destruct H as (more & E & _). unfold BFS_SQL. rewrite E, firstn_app.
  eexists. reflexivity.
Qed.

Lemma bfs_deeper_only_appends_cycle :
  exists more,
    BFS_SQL cycle_db "A" 2 80 = BFS_SQL cycle_db "A" 1 80 ++ more.
Proof.
  apply (bfs_deeper_only_appends cycle_db "A" 1 2 80). lia.
Defined.

(** ** Suggestions for a name that was not found *)

Lemma is_alnum_char_plain (c : ascii) :
  is_alnum_char c = true ->
  lower_ascii c = c /\ c <> "%"%char /\ c <> "_"%char /\ c <> "\"%char
  /\ c <> " "%char /\ js_is_white c = false.
Proof.
  destruct c as [b0 b1 b2 b3 b4 b5 b6 b7].
  destruct b0, b1, b2, b3, b4, b5, b6, b7; cbv; intros H;
    try discriminate H; repeat split; discriminate.
Qed.

Lemma lower_ascii_idem (c : ascii) : lower_ascii (lower_ascii c) = lower_ascii c.
Proof.
  destruct c as [b0 b1 b2 b3 b4 b5 b6 b7].
  destruct b0, b1, b2, b3, b4, b5, b6, b7; reflexivity.
Qed.

Lemma js_is_white_blank (c : ascii) :
  js_is_white c = true -> blank_non_alnum (lower_ascii c) = " "%char.
Proof.
  destruct c as [b0 b1 b2 b3 b4 b5 b6 b7].
  destruct b0, b1, b2, b3, b4, b5, b6, b7; cbv; intros H;
    try discriminate H; reflexivity.
Qed.

Lemma blank_non_alnum_kept (c : ascii) :
  blank_non_alnum c <> " "%char ->
  is_alnum_char c = true /\ blank_non_alnum c = c.
Proof.
  unfold blank_non_alnum. destruct (is_alnum_char c); [auto|].
  intros H. exfalso. apply H. reflexivity.
Qed.

(** A piece of the split is a stretch of the text. *)
Lemma split_blank_runs_stretch (s : list ascii) :
  forall (cur : list ascii) (in_run : bool) (p : string),
    (in_run = true -> cur = []) ->
    In p (split_blank_runs cur in_run s) ->
    exists pre post, rev cur ++ s = pre ++ list_ascii_of_string p ++ post.
Proof.
  induction s as [|c r IH]; intros cur in_run p Hrun H.
  - cbn in H. destruct H as [<- | []].
    exists [], []. rewrite list_ascii_of_string_of_list_ascii.
    rewrite !app_nil_r. reflexivity.
  - cbn [split_blank_runs] in H. destruct (Ascii.eqb c " "%char).
    + destruct in_run.
      * rewrite (Hrun eq_refl) in H |- *. apply IH in H; [|reflexivity].
        destruct H as (pre & post & E). cbn in E |- *.
        exists (c :: pre), post. rewrite E. reflexivity.
      * destruct H as [<- | H].
        -- exists [], (c :: r). rewrite list_ascii_of_string_of_list_ascii.
           reflexivity.
        -- apply IH in H; [|reflexivity].
           destruct H as (pre & post & E). cbn in E.
           exists (rev cur ++ c :: pre), post. rewrite E, <- app_assoc.
           reflexivity.
    + apply IH in H; [|discriminate].
      destruct H as (pre & post & E). exists pre, post.
      rewrite <- E. cbn [rev]. rewrite <- app_assoc. reflexivity.
Qed.

Lemma map_eq_app3 {A B} (f : A -> B) (l : list A) (x y z : list B) :
  map f l = x ++ y ++ z ->
  exists a b c, l = a ++ b ++ c /\ map f a = x /\ map f b = y /\ map f c = z.
Proof.
  intros H. apply map_eq_app in H. destruct H as (a & bc & -> & Ha & Hbc).
  apply map_eq_app in Hbc. destruct Hbc as (b & c & -> & Hb & Hc).
  exists a, b, c. auto.
Qed.

(** Every segment of a name is made of letters and digits and occurs in
    the name. *)
Lemma name_parts_In (nm p : string) :
  In p (name_parts nm) ->
  (2 <= String.length p)%nat
  /\ Forall (fun c => is_alnum_char c = true) (list_ascii_of_string p)
  /\ contains_ci nm p.
Proof.
  unfold name_parts. intros H. apply filter_In in H. destruct H as [H Hlen].
  apply Nat.ltb_lt in Hlen. split; [lia|].
  pose proof (fun c =>
                split_blank_runs_chars
                  (map blank_non_alnum
                     (map lower_ascii (list_ascii_of_string nm)))
                  [] false p c H) as Hc.
  apply split_blank_runs_stretch in H; [|discriminate].
  destruct H as (pre & post & E). cbn [rev app] in E.
  rewrite map_map in E. apply map_eq_app3 in E.
  destruct E as (a & b & c & Enm & _ & Eb & _).
  assert (Hb : Forall (fun x => is_alnum_char (lower_ascii x) = true
                                /\ blank_non_alnum (lower_ascii x)
                                   = lower_ascii x) b).
  { apply Forall_forall. intros x Hx. apply blank_non_alnum_kept.
    assert (Hin : In (blank_non_alnum (lower_ascii x))
                    (list_ascii_of_string p)).
    { rewrite <- Eb. apply (in_map (fun y => blank_non_alnum (lower_ascii y))).
      exact Hx. }
    destruct (Hc _ Hin) as [[] | [_ Hne]]. exact Hne. }
  assert (Eb' : list_ascii_of_string p = map lower_ascii b).
  { rewrite <- Eb. apply map_ext_in. intros x Hx.
    rewrite Forall_forall in Hb. apply (Hb x Hx). }
  split.
  - rewrite Eb'. apply Forall_forall. intros y Hy.
    apply in_map_iff in Hy. destruct Hy as (x & <- & Hx).
    rewrite Forall_forall in Hb. apply (Hb x Hx).
  - exists a, b, c. split; [exact Enm|].
    rewrite Eb', map_map. apply map_ext. intros x.
    symmetry. apply lower_ascii_idem.
Qed.

Lemma trim_is_empty_no_parts (nm : string) :
  trim_is_empty nm = true -> name_parts nm = [].
Proof.
  unfold trim_is_empty, name_parts. intros H.
  rewrite forallb_forall in H.
  set (s := map blank_non_alnum (map lower_ascii (list_ascii_of_string nm))).
  assert (Hs : forall c, In c s -> c = " "%char).
  { intros c Hc. subst s. rewrite map_map in Hc.
    apply in_map_iff in Hc. destruct Hc as (x & <- & Hx).
    apply js_is_white_blank, H, Hx. }
  assert (G : forall l : list string,
            (forall p, In p l -> p = EmptyString) ->
            filter (fun t => (1 <? String.length t)%nat) l = []).
  { induction l as [|p l IH]; intros Hl; [reflexivity|].
    cbn [filter]. rewrite (Hl p (or_introl eq_refl)). cbn.
    apply IH. intros q Hq. apply Hl. right. exact Hq. }
  apply G. intros p Hp.
  destruct p as [|c p]; [reflexivity|]. exfalso.
  destruct (split_blank_runs_chars s [] false _ c Hp (or_introl eq_refl))
    as [[] | [Hin Hne]].
  apply Hne, Hs, Hin.
Qed.

Lemma like_escape_plain (s : string) :
  Forall (fun c => is_alnum_char c = true) (list_ascii_of_string s) ->
  like_escape s = s.
Proof.
  unfold like_escape. intros H.
  assert (E : flat_map
                (fun c => if Ascii.eqb c "\"%char || Ascii.eqb c "%"%char
                          then ["\"%char; c] else [c])
                (list_ascii_of_string s) = list_ascii_of_string s).
  { induction H as [|c l Hc Hl IH]; [reflexivity|].
    cbn [flat_map]. rewrite IH.
    destruct (is_alnum_char_plain c Hc) as (_ & H1 & _ & H2 & _).
    apply Ascii.eqb_neq in H1, H2. rewrite H1, H2. reflexivity. }
  rewrite E. apply string_of_list_ascii_of_string.
Qed.

Lemma like_match_any (t : list ascii) : like_match ["%"%char] t = true.
Proof.
  apply like_match_percent. exists t, []. split; [|reflexivity].
  rewrite app_nil_r. reflexivity.
Qed.

Lemma like_match_plain_then_any (p : list ascii) :
  (forall c, In c p -> c <> "%"%char /\ c <> "_"%char) ->
  forall s,
    like_match (p ++ ["%"%char]) s = true
    <-> exists mid post, s = mid ++ post
                         /\ map lower_ascii mid = map lower_ascii p.
Proof.
  induction p as [|c p IH]; intros Hp s.
  - cbn [app]. rewrite like_match_any. split; [|reflexivity].
    intros _. exists [], s. split; reflexivity.
  - destruct (Hp c (or_introl eq_refl)) as [H1 H2].
    apply Ascii.eqb_neq in H1, H2.
    cbn [app like_match]. rewrite H1.
    destruct s as [|d s].
    + split; [discriminate|]. intros (mid & post & E & M).
      symmetry in E. apply app_eq_nil in E. destruct E as [-> _].
      discriminate M.
    + rewrite H2. cbn [orb]. rewrite andb_true_iff, Ascii.eqb_eq.
      rewrite (IH (fun x Hx => Hp x (or_intror Hx)) s). split.
      * intros (E1 & mid & post & E & M).
        exists (d :: mid), post. split; [rewrite E; reflexivity|].
        cbn [map]. rewrite M, E1. reflexivity.
      * intros (mid & post & E & M). destruct mid as [|m mid];
          [discriminate M|].
        cbn [map] in M. injection M as M1 M2. injection E as -> E.
        split; [symmetry; exact M1|]. exists mid, post. auto.
Qed.

Lemma sql_like_contains (p text : string) :
  Forall (fun c => is_alnum_char c = true) (list_ascii_of_string p) ->
  sql_like ("%" ++ like_escape p ++ "%") text = true <-> contains_ci text p.
Proof.
  intros Hp. rewrite (like_escape_plain p Hp). unfold sql_like, contains_ci.
  change (list_ascii_of_string ("%" ++ p ++ "%"))
    with ("%"%char :: list_ascii_of_string (p ++ "%")).
  rewrite list_ascii_of_string_app.
  change (list_ascii_of_string "%") with ["%"%char].
  rewrite like_match_percent.
  assert (Hplain : forall c, In c (list_ascii_of_string p) ->
                             c <> "%"%char /\ c <> "_"%char).
  { rewrite Forall_forall in Hp. intros c Hc.
    destruct (is_alnum_char_plain c (Hp c Hc)) as (_ & H1 & H2 & _). auto. }
  split.
  - intros (pre & t & E & H).
    apply (like_match_plain_then_any _ Hplain) in H.
    destruct H as (mid & post & -> & M). exists pre, mid, post. auto.
  - intros (pre & mid & post & E & M). exists pre, (mid ++ post).
    split; [exact E|]. apply (like_match_plain_then_any _ Hplain).
    exists mid, post. auto.
Qed.

Lemma sql_limit_In {A} (n : Z) (l : list A) (x : A) :
  In x (sql_limit n l) -> In x l.
Proof.
  unfold sql_limit. destruct (n <? 0)%Z; [auto | apply firstn_In].
Qed.

(** X22.  For a name with at least one word segment (a run of two or more
    letters or digits), every suggestion of [findSimilarNodes] is the name
    of a stored node that contains each segment, letters compared without
    case; there are at most [limit] of them; when the statement runs and
    the limit is not reached, every such node is suggested.  The segments
    occur in the requested name itself, and a blank name gets no
    suggestion. *)
Theorem findSimilarNodes_suggestions (statement_runs : list string -> bool)
  (g : SQLiteGraph) (nm : string) (limit : Z) :
  name_parts nm <> [] ->
  let parts := name_parts nm in
  let r := findSimilarNodes statement_runs g nm limit in
  (forall x, In x r ->
     exists n, In n (nodes (db g)) /\ name n = x
               /\ forall p, In p parts -> contains_ci (name n) p)
  /\ ((0 <= limit)%Z -> (Z.of_nat (List.length r) <= limit)%Z)
  /\ (statement_runs
        (map (fun s => ("%" ++ like_escape s ++ "%")%string) parts) = true ->
      (limit < 0)%Z \/ (Z.of_nat (List.length r) < limit)%Z ->
      forall n, In n (nodes (db g)) ->
                (forall p, In p parts -> contains_ci (name n) p) ->
                In (name n) r)
  /\ (forall p, In p parts -> contains_ci nm p)
  /\ (forall blank, trim_is_empty blank = true ->
                    findSimilarNodes statement_runs g blank limit = []).
Proof.
  intros Hparts parts r.
  assert (Hblank : trim_is_empty nm = false).
  { destruct (trim_is_empty nm) eqn:E; [|reflexivity].
    exfalso. apply Hparts, trim_is_empty_no_parts, E. }
  set (pats := map (fun s => ("%" ++ like_escape s ++ "%")%string) parts).
  set (keep := fun n : NodeRow =>
                 forallb (fun p => sql_like p (name n)) pats).
  assert (Hkeep : forall n, keep n = true
                            <-> forall p, In p parts -> contains_ci (name n) p).
  { intros n. unfold keep, pats. rewrite forallb_forall. split.
    - intros H p Hp.
      apply (sql_like_contains p (name n));
        [apply (name_parts_In nm p Hp)|].
      apply H. apply in_map_iff. exists p. auto.
    - intros H q Hq. apply in_map_iff in Hq. destruct Hq as (p & <- & Hp).
      apply (sql_like_contains p (name n));
        [apply (name_parts_In nm p Hp) | apply H, Hp]. }
  assert (Hr : r = if statement_runs pats
                   then map name
                          (sql_limit limit
                             (order_by_pagerank_desc
                                (filter keep (nodes (db g)))))
                   else []).
  { subst r. unfold findSimilarNodes. rewrite Hblank. fold parts.
    destruct parts as [|p0 ps] eqn:Ep; [contradiction|]. reflexivity. }
  split; [|split; [|split; [|split]]].
  - intros x Hx. rewrite Hr in Hx.
    destruct (statement_runs pats); [|destruct Hx].
    apply in_map_iff in Hx. destruct Hx as (n & <- & Hn).
    apply sql_limit_In in Hn.
    apply (Permutation_in _ (stable_sort_perm _ _)) in Hn.
    apply filter_In in Hn. destruct Hn as [Hn Hk].
    exists n. split; [exact Hn|]. split; [reflexivity|].
    apply Hkeep, Hk.
  - intros Hl. rewrite Hr. destruct (statement_runs pats); [|cbn; lia].
    rewrite length_map. unfold sql_limit.
    destruct (limit <? 0)%Z eqn:E; [apply Z.ltb_lt in E; lia|].
    rewrite length_firstn. lia.
  - intros Hruns Hroom n Hn Hall. fold pats in Hruns.
    rewrite Hr in Hroom |- *. rewrite Hruns in Hroom |- *.
    apply in_map.
    assert (Hin : In n (order_by_pagerank_desc (filter keep (nodes (db g))))).
    { apply (Permutation_in _ (Permutation_sym (stable_sort_perm _ _))).
      apply filter_In. split; [exact Hn | apply Hkeep, Hall]. }
    rewrite length_map in Hroom. unfold sql_limit in Hroom |- *.
    destruct (limit <? 0)%Z eqn:E; [exact Hin|].
    apply Z.ltb_ge in E. destruct Hroom as [Hroom | Hroom]; [lia|].
    rewrite length_firstn in Hroom.
    rewrite firstn_all2; [exact Hin | lia].
  - intros p Hp. apply (name_parts_In nm p Hp).
  - intros blank Hb. unfold findSimilarNodes. rewrite Hb. reflexivity.
Qed.


Lemma findSimilarNodes_suggestions_fixture :
  name_parts "Query-Context!" = ["query"; "context"]
  /\ forall x,
       In x (findSimilarNodes (fun _ => true) fixture "Query-Context!" 5) ->
       exists n, In n (nodes (db fixture)) /\ name n = x
                 /\ forall p, In p (name_parts "Query-Context!") ->
                              contains_ci (name n) p.
Proof.
  split; [vm_compute; reflexivity|].
  assert (H : name_parts "Query-Context!" <> []).
  { intros E. vm_compute in E. discriminate E. }
  exact (proj1 (findSimilarNodes_suggestions (fun _ => true) fixture
                  "Query-Context!" 5 H)).
Defined.

(** ** The cached vocabulary *)

Lemma map_of_entries_fold {V} (l : list (string * V)) :
  forall m : JsMap V,
    NoDup (map fst (m ++ l)) ->
    fold_left (fun m kv => map_set (fst kv) (snd kv) m) l m = m ++ l.
Proof.
  induction l as [|[k v] l IH]; intros m H.
  - rewrite app_nil_r. reflexivity.
  - cbn [fold_left fst snd].
    assert (Hk : ~ In k (map fst m)).
    { rewrite map_app in H. cbn [map fst] in H.
      apply NoDup_remove_2 in H. intros X. apply H, in_or_app. left.
      exact X. }
    rewrite (map_set_new k v m Hk), IH.
    + rewrite <- app_assoc. reflexivity.
    + rewrite <- app_assoc. exact H.
Qed.

Lemma map_of_entries_NoDup {V} (l : list (string * V)) :
  NoDup (map fst l) -> map_of_entries l = l.
Proof. intros H. apply (map_of_entries_fold l []). exact H. Qed.

(** X23.  [reload] reads the vocabulary table again and touches nothing
    else: with the table present (its terms are a primary key) the cache
    holds the rows in table order and a lookup gives the row of the term;
    with the table missing the cache keeps what it held before.  Reloading
    twice is reloading once. *)
Theorem reload_vocabulary (g : SQLiteGraph) :
  match tfidf_vocab (db g) with
  | Some rows =>
      NoDup (map term rows) ->
      map_values (tfidfVocab (reload g)) = rows
      /\ forall t, map_get t (tfidfVocab (reload g))
                   = find (fun r => String.eqb t (term r)) rows
  | None => tfidfVocab (reload g) = tfidfVocab g
  end
  /\ db (reload g) = db g
  /\ reload (reload g) = reload g.
Proof.
  unfold reload, _loadVocab.
  destruct (tfidf_vocab (db g)) as [rows|] eqn:E.
  - cbn [db tfidfVocab]. rewrite E. split; [|split; reflexivity].
    intros Hnd.
    rewrite map_of_entries_NoDup by (rewrite map_map; exact Hnd).
    split.
    + unfold map_values. rewrite map_map. apply map_id.
    + intros t. clear. induction rows as [|r rows IH]; [reflexivity|].
      cbn [map map_get find]. destruct (String.eqb t (term r)); auto.
  - rewrite E. repeat split; reflexivity.
Qed.

(** ** The summary of the graph *)

Lemma map_get_app {V} (t : string) (a b : JsMap V) :
  map_get t (a ++ b)
  = match map_get t a with Some v => Some v | None => map_get t b end.
Proof.
  induction a as [|[k v] a IH]; [reflexivity|].
  cbn [app map_get]. destruct (String.eqb t k); [reflexivity | exact IH].
Qed.

Lemma map_get_set {V} (t k : string) (v : V) (m : JsMap V) :
  map_get t (map_set k v m) = if String.eqb t k then Some v else map_get t m.
Proof.
  destruct (String.eqb_spec t k) as [-> | N].
  - apply map_get_set_same.
  - apply map_get_set_other, N.
Qed.

(** In [new Map(entries)] and in [Object.fromEntries(entries)] the last
    entry of a key is the one that stays. *)
Lemma map_of_entries_get {V} (t : string) (l : list (string * V)) :
  map_get t (map_of_entries l) = map_get t (rev l).
Proof.
  unfold map_of_entries.
  assert (G : forall m : JsMap V,
            map_get t (fold_left (fun m kv => map_set (fst kv) (snd kv) m) l m)
            = match map_get t (rev l) with
              | Some v => Some v
              | None => map_get t m
              end).
  { induction l as [|[k v] l IH]; intros m; [reflexivity|].
    cbn [fold_left fst snd rev]. rewrite IH, map_get_app, map_get_set.
    destruct (map_get t (rev l)); [reflexivity|].
    cbn [map_get]. destruct (String.eqb t k); reflexivity. }
  rewrite G. destruct (map_get t (rev l)); reflexivity.
Qed.

Lemma map_get_Some_In {V} (t : string) (v : V) (m : JsMap V) :
  map_get t m = Some v -> In (t, v) m.
Proof.
  induction m as [|[k w] m IH]; [discriminate|].
  cbn [map_get]. destruct (String.eqb_spec t k) as [-> | N].
  - intros H. injection H as ->. left. reflexivity.
  - intros H. right. apply IH, H.
Qed.

Lemma group_counts_In (keys : list (option string)) (k : option string)
  (c : Z) :
  In (k, c) (group_counts keys)
  <-> In k keys /\ c = Z.of_nat (count_occ sql_key_dec keys k).
Proof.
  unfold group_counts. rewrite in_map_iff. split.
  - intros (k' & E & H). injection E as -> <-.
    apply (Permutation_in _ (stable_sort_perm _ _)) in H.
    apply nodup_In in H. auto.
  - intros [H ->]. exists k. split; [reflexivity|].
    apply (Permutation_in _ (Permutation_sym (stable_sort_perm _ _))).
    apply nodup_In, H.
Qed.

Lemma type_counts_get (keys : list (option string)) (t : string) :
  t <> "unknown" ->
  map_get t (type_counts keys)
  = if (count_occ sql_key_dec keys (Some t) =? 0)%nat then None
    else Some (Z.of_nat (count_occ sql_key_dec keys (Some t))).
Proof.
  intros Ht. unfold type_counts. rewrite map_of_entries_get.
  set (E := map (fun r : option string * Z =>
                   (match fst r with Some t0 => t0 | None => "unknown" end,
                    snd r)) (group_counts keys)).
  destruct (map_get t (rev E)) as [v|] eqn:G.
  - apply map_get_Some_In, in_rev in G. unfold E in G.
    apply in_map_iff in G. destruct G as ([k c] & Ek & Hk).
    cbn [fst snd] in Ek. injection Ek as Ek ->.
    destruct k as [t0|]; [subst t0 | congruence].
    apply group_counts_In in Hk. destruct Hk as [Hin ->].
    apply (count_occ_In sql_key_dec) in Hin.
    destruct (Nat.eqb_spec (count_occ sql_key_dec keys (Some t)) 0);
      [lia | reflexivity].
  - apply map_get_None in G.
    destruct (Nat.eqb_spec (count_occ sql_key_dec keys (Some t)) 0) as [|N];
      [reflexivity|].
    exfalso. apply G. rewrite map_rev. apply -> in_rev.
    unfold E. rewrite map_map. cbn [fst].
    apply in_map_iff. exists (Some t, Z.of_nat (count_occ sql_key_dec keys (Some t))).
    split; [reflexivity|]. apply group_counts_In. split; [|reflexivity].
    apply (count_occ_In sql_key_dec). lia.
Qed.

Lemma type_counts_unknown (keys : list (option string)) :
  map_get "unknown" (type_counts keys) = None
  <-> ~ In None keys /\ ~ In (Some "unknown") keys.
Proof.
  unfold type_counts. rewrite map_of_entries_get, map_get_None, map_rev.
  rewrite <- in_rev, map_map. cbn [fst]. rewrite in_map_iff. split.
  - intros H. split; intros Hin; apply H.
    + exists (None, Z.of_nat (count_occ sql_key_dec keys None)).
      split; [reflexivity|]. apply group_counts_In. auto.
    + exists (Some "unknown",
              Z.of_nat (count_occ sql_key_dec keys (Some "unknown"))).
      split; [reflexivity|]. apply group_counts_In. auto.
  - intros [H1 H2] ([k c] & Ek & Hk). cbn [fst] in Ek.
    apply group_counts_In in Hk. destruct Hk as [Hin _].
    destruct k as [t0|]; [subst t0; exact (H2 Hin) | exact (H1 Hin)].
Qed.

(** X24.  In the summary, the entry of a type other than "unknown" is the
    number of rows of that type, and is absent when there is none; the
    entry "unknown" is absent exactly when no row has a NULL type or the
    type "unknown".  The hubs are at most 10 stored nodes in descending
    centrality, a NULL centrality shown as 0, and no node left out ranks
    above a listed one. *)
Theorem getGraphSummary_counts (g : SQLiteGraph) (meta : GraphMetadata) :
  let s := getGraphSummary g meta in
  let ntypes := map node_type (nodes (db g)) in
  let etypes := map edge_type (edges (db g)) in
  node_count s = Z.of_nat (List.length (nodes (db g)))
  /\ edge_count s = Z.of_nat (List.length (edges (db g)))
  /\ (forall t, t <> "unknown" ->
        map_get t (node_types s)
        = if (count_occ sql_key_dec ntypes (Some t) =? 0)%nat then None
          else Some (Z.of_nat (count_occ sql_key_dec ntypes (Some t))))
  /\ (forall t, t <> "unknown" ->
        map_get t (edge_types s)
        = if (count_occ sql_key_dec etypes (Some t) =? 0)%nat then None
          else Some (Z.of_nat (count_occ sql_key_dec etypes (Some t))))
  /\ (map_get "unknown" (node_types s) = None
      <-> ~ In None ntypes /\ ~ In (Some "unknown") ntypes)
  /\ (List.length (top_hubs s) <= 10)%nat
  /\ exists rows,
       top_hubs s
       = map (fun r => (name r,
                        match pagerank r with Some p => p | None => 0 end))
           rows
       /\ (forall r, In r rows -> In r (nodes (db g)))
       /\ StronglySorted (fun a b => pagerank_ge (pagerank a) (pagerank b))
            rows
       /\ (forall n, In n (nodes (db g)) -> ~ In n rows ->
           forall r, In r rows -> pagerank_ge (pagerank r) (pagerank n)).
Proof.
  intros s ntypes etypes. subst s. unfold getGraphSummary.
  cbn [node_count edge_count node_types edge_types top_hubs].
  split; [reflexivity|]. split; [reflexivity|].
  split; [intros t Ht; apply type_counts_get, Ht|].
  split; [intros t Ht; apply type_counts_get, Ht|].
  split; [apply type_counts_unknown|].
  split; [rewrite length_map, length_firstn; lia|].
  set (sorted := order_by_pagerank_desc (nodes (db g))).
  assert (Hp : Permutation sorted (nodes (db g))) by apply stable_sort_perm.
  assert (Hs : StronglySorted
                 (fun a b => pagerank_ge (pagerank a) (pagerank b)) sorted)
    by apply order_by_pagerank_desc_sorted.
  exists (firstn 10 sorted). split; [reflexivity|]. split; [|split].
  - intros r Hr. apply (Permutation_in _ Hp), (firstn_In _ _ _ Hr).
  - apply StronglySorted_firstn, Hs.
  - intros n Hn Hout r Hr.
    apply (Permutation_in _ (Permutation_sym Hp)) in Hn.
    rewrite <- (firstn_skipn 10 sorted) in Hn, Hs.
    apply in_app_or in Hn. destruct Hn as [Hn | Hn]; [contradiction|].
    exact (StronglySorted_app_cross _ _ _ Hs r n Hr Hn).
Qed.

(** ** Reading the nodes of a file through its URI *)

Lemma strip_prefix_app (p s : list ascii) :
  strip_prefix p (p ++ s) = Some s.
Proof.
  induction p as [|a p IH]; [reflexivity|].
  cbn [app strip_prefix]. rewrite Ascii.eqb_refl. exact IH.
Qed.

Lemma strip_prefix_Some (p s r : list ascii) :
  strip_prefix p s = Some r -> s = p ++ r.
Proof.
  revert s. induction p as [|a p IH]; intros s H.
  - cbn in H. injection H as ->. reflexivity.
  - destruct s as [|b s]; [discriminate H|]. cbn [strip_prefix] in H.
    destruct (Ascii.eqb_spec a b) as [-> | _]; [|discriminate H].
    cbn [app]. f_equal. apply IH, H.
Qed.

Lemma string_eq_of_chars (a b : string) :
  list_ascii_of_string a = list_ascii_of_string b -> a = b.
Proof.
  intros H. rewrite <- (string_of_list_ascii_of_string a),
              <- (string_of_list_ascii_of_string b), H. reflexivity.
Qed.

Lemma getFileNodes_empty_path (g : SQLiteGraph) :
  getFileNodes g EmptyString
  = inr (map (fun r =>
                mkNodeInfo (node_id r) (name r) (file r) (node_type r)
                  (signature r) (body_text r) (roxygen_text r)
                  (complexity r) (pagerank r) (task_weight r)
                  (pkg_name r) (pkg_version r) [] [] [])
           (filter (fun r => match file r with
                             | Some _ => true
                             | None => false
                             end) (nodes (db g)))).
Proof.
  unfold getFileNodes. cbn [decodeURIComponent list_ascii_of_string decode_uri
                             Nat.eqb option_map string_of_list_ascii].
  f_equal. f_equal. apply filter_ext. intros r. unfold file_matches.
  destruct (file r) as [f|]; [|reflexivity].
  unfold sql_like. change (list_ascii_of_string ("%" ++ "")) with ["%"%char].
  rewrite like_match_any. apply orb_true_r.
Qed.

(** X25.  The resource takes as path what follows [rrlmgraph://file/] in
    the URI, provided it is not empty and holds no line break; any other
    URI is read with the empty path, and then the answer lists every node
    that has a file.  A failure of [getFileNodes] is passed on. *)
Theorem file_nodes_read_path (g : SQLiteGraph) (uri : string) :
  (forall p, uri = (file_uri_prefix ++ p)%string ->
     file_path_of_uri uri
     = if negb (String.eqb p EmptyString)
          && forallb (fun x => negb (is_line_terminator x))
               (list_ascii_of_string p)
       then p else EmptyString)
  /\ ((forall p, uri <> (file_uri_prefix ++ p)%string) ->
      file_path_of_uri uri = EmptyString)
  /\ (file_path_of_uri uri = EmptyString ->
      exists found,
        file_nodes_read g uri
        = inr [mkResourceContents uri "text/markdown"
                 (file_nodes_text EmptyString found)]
        /\ map info_node_id found
           = map node_id
               (filter (fun r => match file r with
                                 | Some _ => true
                                 | None => false
                                 end) (nodes (db g))))
  /\ (forall e, file_nodes_read g uri = inl e
                <-> getFileNodes g (file_path_of_uri uri) = inl e).
Proof.
  split; [|split; [|split]].
  - intros p ->. unfold file_path_of_uri.
    rewrite list_ascii_of_string_app, strip_prefix_app.
    destruct p as [|c p]; [reflexivity|].
    cbn [list_ascii_of_string String.eqb negb andb].
    destruct (forallb _ (c :: list_ascii_of_string p)); [|reflexivity].
    apply string_eq_of_chars.
    rewrite list_ascii_of_string_of_list_ascii. reflexivity.
  - intros H. unfold file_path_of_uri.
    destruct (strip_prefix _ (list_ascii_of_string uri)) as [r|] eqn:E;
      [|reflexivity].
    exfalso. apply strip_prefix_Some in E.
    apply (H (string_of_list_ascii r)). apply string_eq_of_chars.
    rewrite list_ascii_of_string_app, list_ascii_of_string_of_list_ascii.
    exact E.
  - intros E. unfold file_nodes_read. rewrite E, getFileNodes_empty_path.
    eexists. split; [reflexivity|]. rewrite map_map. reflexivity.
  - intros e. unfold file_nodes_read.
    destruct (getFileNodes g (file_path_of_uri uri)); split; intros H;
      try discriminate H; injection H as ->; reflexivity.
Qed.
